(** * Extendible hash table (src/container/hash/extendible_hash_table.cpp)

    A shallow embedding of [bustub::ExtendibleHashTable<K, V>] and of its
    nested [Bucket] class, followed by the properties of the table that are
    established (or refuted) on the embedding.

    Conventions of the embedding.
    - [int] and [size_t] values are integers of [Z].  The only arithmetic of
      the source are the shifts [1 << n], bitwise and/or, [- 1] and [+ 1];
      a shift whose count is outside [0, 31) has no defined [int] result and
      is an undefined outcome of the model ([shl1]).
    - [std::shared_ptr<Bucket>] is an address into a store of bucket objects
      ([heap]); the null pointer is [None].  [std::make_shared] allocates at
      the end of the store.  Several directory slots may hold the same
      address: this is the aliasing of the source.
    - [dir_] is a [std::vector]: indexing is unchecked, so an index outside
      the vector, as well as the dereference of a null pointer, is an
      undefined outcome ([Undef]), never a signalled failure.
    - [Insert] is recursive and contains a loop whose bound [dir_.size()] may
      change while it runs: both are given fuel, and [OutOfFuel] is the
      outcome of a run that needs more steps than the fuel allows. *)

From Stdlib Require Import ZArith Bool Lia.
From stdpp Require Import base list.

Open Scope Z_scope.

(** ** Outcomes of a member function *)

Inductive outcome (A : Type) : Type :=
| Ret (a : A)      (* the call returns *)
| Abort            (* a signalled failure: failed assertion or exception *)
| Undef            (* undefined behaviour of the C++ source *)
| OutOfFuel.       (* the run is longer than the fuel given *)

Arguments Ret {A} a.
Arguments Abort {A}.
Arguments Undef {A}.
Arguments OutOfFuel {A}.

Definition bind {A B : Type} (m : outcome A) (f : A -> outcome B) : outcome B :=
  match m with
  | Ret a => f a
  | Abort => Abort
  | Undef => Undef
  | OutOfFuel => OutOfFuel
  end.

Notation "x <- m ;; k" := (bind m (fun x => k))
  (at level 100, m at next level, right associativity).

Definition returns {A : Type} (m : outcome A) : bool :=
  match m with Ret _ => true | _ => false end.

(** [1 << n] on [int]. *)
Definition shl1 (n : Z) : outcome Z :=
  if (0 <=? n) && (n <? 31) then Ret (Z.shiftl 1 n) else Undef.

Section ExtendibleHashTable.

Context {K V : Type} `{EqDecision K}.

(** [std::hash<K>()(key)], a [size_t]. *)
Variable hash : K -> Z.

(** The default-initialised local [V temp_value] of [Insert]. *)
Variable temp_value : V.

(** ** Bucket *)

Record Bucket : Type := mkBucket {
  size_ : Z;                 (* size_t size_ : the capacity *)
  depth_ : Z;                (* int depth_ : the local depth *)
  list_ : list (K * V)       (* std::list<std::pair<K, V>> list_ *)
}.

(** [Bucket::Bucket(size_t array_size, int depth)]. *)
Definition Bucket_new (array_size depth : Z) : Bucket :=
  mkBucket array_size depth [].

(** Modelled from the spec: the accessors of [Bucket] declared in
    extendible_hash_table.h, which is not part of the sources:
    [is_full() -> bool: len(entries) == capacity]. *)
Definition Bucket_IsFull (b : Bucket) : bool :=
  Z.of_nat (length (list_ b)) =? size_ b.

(** Modelled from the spec: "read current depth" (declared in the header). *)
Definition Bucket_GetDepth (b : Bucket) : Z := depth_ b.

(** Modelled from the spec: "increment depth by exactly 1" (declared in the
    header). *)
Definition Bucket_IncrementDepth (b : Bucket) : Bucket :=
  mkBucket (size_ b) (depth_ b + 1) (list_ b).

(** Modelled from the spec: the entries of the bucket (declared in the
    header). *)
Definition Bucket_GetItems (b : Bucket) : list (K * V) := list_ b.

(** The scan of [Bucket::Find] over the entries.  [value] is the caller's
    out parameter; the result pairs the returned flag with the content of
    the out parameter after the call. *)
Fixpoint find_entry (l : list (K * V)) (key : K) (value : V) : bool * V :=
  match l with
  | [] => (false, value)
  | (k, v) :: l' => if decide (k = key) then (true, v) else find_entry l' key value
  end.

Definition Bucket_Find (b : Bucket) (key : K) (value : V) : bool * V :=
  find_entry (list_ b) key value.

(** The scan of [Bucket::Remove]: erase the first entry with this key. *)
Fixpoint remove_entry (l : list (K * V)) (key : K) : list (K * V) * bool :=
  match l with
  | [] => ([], false)
  | (k, v) :: l' =>
      if decide (k = key) then (l', true)
      else let '(r, found) := remove_entry l' key in ((k, v) :: r, found)
  end.

Definition Bucket_Remove (b : Bucket) (key : K) : Bucket * bool :=
  let '(l, found) := remove_entry (list_ b) key in
  (mkBucket (size_ b) (depth_ b) l, found).

(** The scan of [Bucket::Insert]: overwrite the value of the first entry
    with this key; [None] when the scan reaches the end. *)
Fixpoint update_entry (l : list (K * V)) (key : K) (value : V) : option (list (K * V)) :=
  match l with
  | [] => None
  | (k, v) :: l' =>
      if decide (k = key) then Some ((k, value) :: l')
      else match update_entry l' key value with
           | Some r => Some ((k, v) :: r)
           | None => None
           end
  end.

Definition Bucket_Insert (b : Bucket) (key : K) (value : V) : Bucket * bool :=
  if Bucket_IsFull b then (b, false)
  else match update_entry (list_ b) key value with
       | Some l => (mkBucket (size_ b) (depth_ b) l, true)
       | None => (mkBucket (size_ b) (depth_ b) (list_ b ++ [(key, value)]), true)
       end.

(** ** Table

    The data members are declared in the header; their types are those the
    member functions use them at. *)

Record Table : Type := mkTable {
  global_depth_ : Z;             (* int global_depth_ *)
  bucket_size_ : Z;              (* size_t bucket_size_ *)
  num_buckets_ : Z;              (* int num_buckets_ *)
  dir_ : list (option nat);      (* std::vector<std::shared_ptr<Bucket>> dir_ *)
  heap : list Bucket             (* the bucket objects, by address *)
}.

Definition set_global_depth (st : Table) (d : Z) : Table :=
  mkTable d (bucket_size_ st) (num_buckets_ st) (dir_ st) (heap st).

Definition set_dir (st : Table) (d : list (option nat)) : Table :=
  mkTable (global_depth_ st) (bucket_size_ st) (num_buckets_ st) d (heap st).

Definition set_heap (st : Table) (h : list Bucket) : Table :=
  mkTable (global_depth_ st) (bucket_size_ st) (num_buckets_ st) (dir_ st) h.

(** [std::make_shared<Bucket>(...)]: the new object and its address. *)
Definition make_shared (st : Table) (b : Bucket) : Table * nat :=
  (set_heap st (heap st ++ [b]), length (heap st)).

Definition dir_size (st : Table) : Z := Z.of_nat (length (dir_ st)).

Definition in_range (st : Table) (i : Z) : bool :=
  (0 <=? i) && (i <? dir_size st).

(** [dir_[i]] read. *)
Definition dir_get (st : Table) (i : Z) : outcome (option nat) :=
  if in_range st i then
    match dir_ st !! Z.to_nat i with
    | Some p => Ret p
    | None => Undef
    end
  else Undef.

(** [dir_[i] = p]. *)
Definition dir_set (st : Table) (i : Z) (p : option nat) : outcome Table :=
  if in_range st i then Ret (set_dir st (<[Z.to_nat i := p]> (dir_ st)))
  else Undef.

(** [dir_.resize(n)]: the new elements are null pointers. *)
Definition dir_resize (st : Table) (n : Z) : Table :=
  let len := length (dir_ st) in
  set_dir st (take (Z.to_nat n) (dir_ st) ++ replicate (Z.to_nat n - len)%nat None).

(** [*p]. *)
Definition deref (st : Table) (p : option nat) : outcome Bucket :=
  match p with
  | Some a => match heap st !! a with
              | Some b => Ret b
              | None => Undef
              end
  | None => Undef
  end.

(** The object [p] points to is replaced by [b]. *)
Definition store (st : Table) (p : option nat) (b : Bucket) : outcome Table :=
  match p with
  | Some a => if decide (a < length (heap st))%nat
              then Ret (set_heap st (<[a := b]> (heap st)))
              else Undef
  | None => Undef
  end.

(** [dir_[i]->...] read. *)
Definition bucket_at (st : Table) (i : Z) : outcome Bucket :=
  p <- dir_get st i ;; deref st p.

(** [dir_[i]->...] for a member function that mutates the bucket. *)
Definition bucket_update (st : Table) (i : Z) (f : Bucket -> Bucket) : outcome Table :=
  p <- dir_get st i ;;
  b <- deref st p ;;
  store st p (f b).

(** [ExtendibleHashTable::ExtendibleHashTable(size_t bucket_size)]: the loop
    runs [num_buckets_ = 1] times.

    Modelled from the spec: the default value of the [depth] argument of the
    bucket constructor, which the header declares: the bucket "created as
    the table's sole initial bucket (depth 0)". *)
Definition ExtendibleHashTable (bucket_size : Z) : Table :=
  let st := mkTable 0 bucket_size 1 [] [] in
  let '(st, p) := make_shared st (Bucket_new bucket_size 0) in
  set_dir st (dir_ st ++ [Some p]).

Definition IndexOf (st : Table) (key : K) : outcome Z :=
  m <- shl1 (global_depth_ st) ;;
  let mask := m - 1 in
  Ret (Z.land (hash key) mask).

Definition GetGlobalDepthInternal (st : Table) : Z := global_depth_ st.

Definition GetGlobalDepth (st : Table) : Z := GetGlobalDepthInternal st.

Definition GetLocalDepthInternal (st : Table) (dir_index : Z) : outcome Z :=
  b <- bucket_at st dir_index ;; Ret (Bucket_GetDepth b).

Definition GetLocalDepth (st : Table) (dir_index : Z) : outcome Z :=
  GetLocalDepthInternal st dir_index.

Definition GetNumBucketsInternal (st : Table) : Z := num_buckets_ st.

Definition GetNumBuckets (st : Table) : Z := GetNumBucketsInternal st.

(** [Find(key, value)]: the flag and the out parameter after the call. *)
Definition Find (st : Table) (key : K) (value : V) : outcome (bool * V) :=
  bucket_index <- IndexOf st key ;;
  b <- bucket_at st bucket_index ;;
  Ret (Bucket_Find b key value).

Definition Remove (st : Table) (key : K) : outcome (Table * bool) :=
  bucket_index <- IndexOf st key ;;
  p <- dir_get st bucket_index ;;
  b <- deref st p ;;
  let '(b', found) := Bucket_Remove b key in
  st' <- store st p b' ;;
  Ret (st', found).

(** The second loop of [RedistributeBucket]: [dst_bucket->Insert(k,v)] then
    [src_bucket->Remove(k)] for every selected pair.  [src_bucket] is a
    reference to the directory slot [dir_[src]], read at each use. *)
Fixpoint distribute (pairs : list (K * V)) (src : Z) (dst : option nat)
    (st : Table) : outcome Table :=
  match pairs with
  | [] => Ret st
  | (k, v) :: rest =>
      d <- deref st dst ;;
      st <- store st dst (fst (Bucket_Insert d k v)) ;;
      st <- bucket_update st src (fun b => fst (Bucket_Remove b k)) ;;
      distribute rest src dst st
  end.

(** [RedistributeBucket(src_bucket, dst_bucket, index)].  Both call sites
    pass [dir_[bucket_index]] for the reference [src_bucket]; the reference
    is the slot number [src]. *)
Definition RedistributeBucket (st : Table) (src : Z) (dst : option nat)
    (index : Z) : outcome Table :=
  s <- bucket_at st src ;;
  mask <- shl1 (Bucket_GetDepth s - 1) ;;
  st <- dir_set st (Z.lor index mask) dst ;;
  s <- bucket_at st src ;;
  let pairs_to_distribute :=
    filter (fun kv => Z.land (hash (fst kv)) mask <> 0) (Bucket_GetItems s) in
  distribute pairs_to_distribute src dst st.

(** The three statements that both branches of [Insert] share:
    [split_bucket = make_shared<Bucket>(bucket_size_, dir_[bucket_index]->GetDepth());
     RedistributeBucket(dir_[bucket_index], split_bucket, bucket_index);]
    The retry [Insert(key, value)] follows at the call sites. *)
Definition split (st : Table) (bucket_index : Z) : outcome Table :=
  b <- bucket_at st bucket_index ;;
  let '(st, split_bucket) :=
    make_shared st (Bucket_new (bucket_size_ st) (Bucket_GetDepth b)) in
  RedistributeBucket st bucket_index (Some split_bucket) bucket_index.

Fixpoint Insert (fuel : nat) (key : K) (value : V) (st : Table) {struct fuel}
    : outcome Table :=
  match fuel with
  | O => OutOfFuel
  | S fuel =>
      bucket_index <- IndexOf st key ;;
      b <- bucket_at st bucket_index ;;
      if fst (Bucket_Find b key temp_value) then Ret st
      else
        b <- bucket_at st bucket_index ;;
        if negb (Bucket_IsFull b) then
          bucket_update st bucket_index (fun b => fst (Bucket_Insert b key value))
        else
          local_depth <- GetLocalDepth st bucket_index ;;
          if local_depth =? GetGlobalDepth st then
            let st := set_global_depth st (global_depth_ st + 1) in
            st <- bucket_update st bucket_index Bucket_IncrementDepth ;;
            n <- shl1 (global_depth_ st) ;;
            let st := dir_resize st n in
            m <- shl1 (global_depth_ st - 1) ;;
            let mask := m - 1 in
            m <- shl1 (global_depth_ st - 1) ;;
            grow_loop fuel key value bucket_index mask m st
          else
            st <- bucket_update st bucket_index Bucket_IncrementDepth ;;
            st <- split st bucket_index ;;
            Insert fuel key value st
  end

(** The [for] loop of the growth branch, at loop variable [i]. *)
with grow_loop (fuel : nat) (key : K) (value : V) (bucket_index mask i : Z)
    (st : Table) {struct fuel} : outcome Table :=
  match fuel with
  | O => OutOfFuel
  | S fuel =>
      if i <? dir_size st then
        if Z.land i mask =? bucket_index then
          st <- split st bucket_index ;;
          st <- Insert fuel key value st ;;
          grow_loop fuel key value bucket_index mask (i + 1) st
        else
          p <- dir_get st (Z.land i mask) ;;
          st <- dir_set st i p ;;
          grow_loop fuel key value bucket_index mask (i + 1) st
      else Ret st
  end.

(** ** Sequences of operations of one caller *)

Inductive op : Type :=
| OpFind (key : K)
| OpInsert (key : K) (value : V)
| OpRemove (key : K).

Definition step (fuel : nat) (st : Table) (o : op) : outcome Table :=
  match o with
  | OpFind key => _ <- Find st key temp_value ;; Ret st
  | OpInsert key value => Insert fuel key value st
  | OpRemove key => r <- Remove st key ;; Ret (fst r)
  end.

Fixpoint run_ops (fuel : nat) (ops : list op) (st : Table) : outcome Table :=
  match ops with
  | [] => Ret st
  | o :: rest => st <- step fuel st o ;; run_ops fuel rest st
  end.

(** The states a table built with capacity [bucket_size] can be in: the
    state the constructor leaves, and the state after any operation that
    completes (with whatever fuel) in such a state. *)
Inductive reachable (bucket_size : Z) : Table -> Prop :=
| reachable_new : reachable bucket_size (ExtendibleHashTable bucket_size)
| reachable_step (fuel : nat) (st : Table) (o : op) (st' : Table) :
    reachable bucket_size st -> step fuel st o = Ret st' ->
    reachable bucket_size st'.

(** The keys of the entries of a bucket. *)
Definition keys (b : Bucket) : list K := (list_ b).*1.

(** The number of distinct bucket objects the directory references. *)
Definition distinct_buckets (st : Table) : Z :=
  Z.of_nat (length (remove_dups (dir_ st))).

(** ** Predicates on buckets and tables *)

(** The bucket has the configured capacity [cap] and respects it. *)
Definition bucket_ok (cap : Z) (b : Bucket) : Prop :=
  size_ b = cap /\ Z.of_nat (length (list_ b)) <= size_ b.

(** Every bucket object of the table has the capacity the table was built
    with and holds no more entries than that. *)
Definition capacity_invariant (st : Table) : Prop :=
  Forall (bucket_ok (bucket_size_ st)) (heap st).

(** The table after the statements of [st], as far as the scalar members and
    the length of the directory go. *)
Definition keeps (st st' : Table) : Prop :=
  global_depth_ st' = global_depth_ st /\
  bucket_size_ st' = bucket_size_ st /\
  num_buckets_ st' = num_buckets_ st /\
  length (dir_ st') = length (dir_ st).

(** What holds of the store and of the scalar members between any two
    statements of the member functions. *)
Definition heap_inv (st : Table) : Prop :=
  0 <= bucket_size_ st /\ capacity_invariant st /\ num_buckets_ st = 1.

(** What holds of the directory between two operations. *)
Definition dir_inv (st : Table) : Prop :=
  0 <= global_depth_ st < 31 /\ dir_size st = 2 ^ global_depth_ st.

(** The low [d] bits of [i]. *)
Definition low_bits (d i : Z) : Z := Z.land i (Z.shiftl 1 d - 1).

(** Slot [i] references the bucket object at address [a], which is [b]. *)
Definition references (st : Table) (i : Z) (a : nat) (b : Bucket) : Prop :=
  0 <= i /\ dir_ st !! Z.to_nat i = Some (Some a) /\ heap st !! a = Some b.

(** The aliasing invariant of the directory: the slots that agree with a
    slot [i] on the low [depth] bits of its bucket reference that bucket. *)
Definition aliasing_invariant (st : Table) : Prop :=
  forall i j a b,
    references st i a b -> in_range st j = true ->
    low_bits (depth_ b) j = low_bits (depth_ b) i ->
    dir_ st !! Z.to_nat j = Some (Some a).

Definition directory_invariant (st : Table) : Prop :=
  dir_size st = 2 ^ global_depth_ st /\ aliasing_invariant st.

(** [Bucket::insert] in the words of the specification: an update of a
    present key first, then the capacity check, then the append. *)
Definition overwrite (l : list (K * V)) (key : K) (value : V) : list (K * V) :=
  map (fun kv => if decide (fst kv = key) then (fst kv, value) else kv) l.

Definition spec_Bucket_insert (b : Bucket) (key : K) (value : V) : Bucket * bool :=
  if decide (key ∈ keys b) then
    (mkBucket (size_ b) (depth_ b) (overwrite (list_ b) key value), true)
  else if Z.of_nat (length (list_ b)) =? size_ b then (b, false)
  else (mkBucket (size_ b) (depth_ b) (list_ b ++ [(key, value)]), true).

(** The keys of the bucket are pairwise distinct and its local depth is
    between 0 and [g]. *)
Definition bucket_wf (g : Z) (b : Bucket) : Prop :=
  NoDup (keys b) /\ 0 <= depth_ b <= g.

(** Every bucket object has distinct keys and a local depth between 0 and
    the global depth. *)
Definition buckets_wf (st : Table) : Prop :=
  Forall (bucket_wf (global_depth_ st)) (heap st).

(** The entries left of [l] after [src_bucket->Remove(k)] for the key [k]
    of every pair of [pairs], in order. *)
Fixpoint remove_keys (l pairs : list (K * V)) : list (K * V) :=
  match pairs with
  | [] => l
  | kv :: rest => remove_keys (fst (remove_entry l (fst kv))) rest
  end.

(** In a table of capacity 0, slot [idx] references an empty bucket of
    capacity 0 whose depth is the global depth, and the directory has
    [2 ^ global_depth_] slots. *)
Definition slot_empty_and_full (idx : Z) (st : Table) : Prop :=
  dir_size st = 2 ^ global_depth_ st /\ bucket_size_ st = 0 /\
  exists a, dir_ st !! Z.to_nat idx = Some (Some a) /\
            heap st !! a = Some (mkBucket 0 (global_depth_ st) []).

(** The bucket [Find], [Remove] and [Insert] address for a key. *)
Definition addressed_bucket (st : Table) (key : K) : outcome Bucket :=
  idx <- IndexOf st key ;; bucket_at st idx.

(** The bucket the key addresses holds the key. *)
Definition holds_key (st : Table) (key : K) : Prop :=
  exists b, addressed_bucket st key = Ret b /\ key ∈ keys b.

(** No slot of the directory holds a pointer outside the store. *)
Definition pointers_valid (st : Table) : Prop :=
  forall (i x : nat), dir_ st !! i = Some (Some x) -> (x < length (heap st))%nat.

End ExtendibleHashTable.

(** ** The instance [ExtendibleHashTable<int, int>]

    [std::hash<int>] of libstdc++ and libc++ converts the key to [size_t]. *)

Definition int_hash (k : Z) : Z := k mod 2 ^ 64.

Definition IntTable : Type := @Table Z Z.

Definition int_insert (fuel : nat) (k v : Z) (st : IntTable) : outcome IntTable :=
  Insert int_hash 0 fuel k v st.

Definition int_find (st : IntTable) (k : Z) (value : Z) : outcome (bool * Z) :=
  Find int_hash st k value.

Definition int_run (fuel : nat) (ops : list (@op Z Z)) (st : IntTable) : outcome IntTable :=
  run_ops int_hash 0 fuel ops st.

(** The table of capacity 1 after [Insert] of the keys 0, 3, 2, 7. *)
Definition table_0327 : IntTable :=
  mkTable 2 1 1 [Some 0%nat; Some 1%nat; Some 2%nat; Some 3%nat]
    [mkBucket 1 2 [(0, 0)]; mkBucket 1 2 [(3, 30)];
     mkBucket 1 2 [(2, 20)]; mkBucket 1 2 [(7, 70)]].

(** The table of capacity 1 after [Insert] of the keys 0, 3, 2. *)
Definition table_032 : IntTable :=
  mkTable 2 1 1 [Some 0%nat; Some 1%nat; Some 2%nat; Some 1%nat]
    [mkBucket 1 2 [(0, 0)]; mkBucket 1 1 [(3, 30)]; mkBucket 1 2 [(2, 20)]].

(** The table of capacity 1 after [Insert] of the keys 0, 1. *)
Definition table_01 : IntTable :=
  mkTable 1 1 1 [Some 0%nat; Some 1%nat]
    [mkBucket 1 1 [(0, 0)]; mkBucket 1 1 [(1, 10)]].

(** Slot 1 references a bucket of capacity 1 and depth [g] whose only entry
    has key 3, in a directory of [2 ^ g] slots at global depth [g]. *)
Definition stuck (g : Z) (st : IntTable) : Prop :=
  global_depth_ st = g /\ dir_size st = 2 ^ g /\
  exists a w, dir_ st !! 1%nat = Some (Some a) /\
              heap st !! a = Some (mkBucket 1 g [(3, w)]).

(** * Properties *)

(** ** The outcome monad *)

Lemma bind_Ret {A B : Type} (m : outcome A) (f : A -> outcome B) (b : B) :
  bind m f = Ret b -> exists a, m = Ret a /\ f a = Ret b.
Proof.
  destruct m as [a| | |]; simpl; intros H; try discriminate.
  exists a. split; [reflexivity | exact H].
Qed.

Lemma bind_not_returns {A B : Type} (m : outcome A) (f : A -> outcome B) :
  (forall a, m = Ret a -> returns (f a) = false) -> returns (bind m f) = false.
Proof.
  destruct m as [a| | |]; simpl; intros H; try reflexivity.
  apply H. reflexivity.
Qed.

Tactic Notation "inv_bind" hyp(H) "as" ident(x) ident(Hx) :=
  apply bind_Ret in H; destruct H as (x & Hx & H).

Lemma shl1_Ret (n m : Z) : shl1 n = Ret m -> 0 <= n < 31 /\ m = 2 ^ n.
Proof.
  unfold shl1. destruct (0 <=? n) eqn:E1; destruct (n <? 31) eqn:E2; simpl;
    intros H; try discriminate.
  injection H as <-. rewrite Z.shiftl_1_l. lia.
Qed.

Lemma shl1_in_range (n : Z) : 0 <= n < 31 -> shl1 n = Ret (2 ^ n).
Proof.
  intros Hn. unfold shl1.
  replace (0 <=? n) with true by (symmetry; apply Z.leb_le; lia).
  replace (n <? 31) with true by (symmetry; apply Z.ltb_lt; lia).
  simpl. rewrite Z.shiftl_1_l. reflexivity.
Qed.

Section BucketFacts.

Context {K V : Type} `{EqDecision K}.
Implicit Types (b : @Bucket K V) (l : list (K * V)) (key : K) (value : V).

Lemma find_entry_miss l key value :
  key ∉ l.*1 -> find_entry l key value = (false, value).
Proof.
  induction l as [|[k v] l IH]; simpl; intros Hnot.
  - reflexivity.
  - destruct (decide (k = key)) as [->|Hne].
    + exfalso. apply Hnot. left.
    + apply IH. intros Hin. apply Hnot. right. exact Hin.
Qed.

Lemma find_entry_hit l key value :
  key ∈ l.*1 -> fst (find_entry l key value) = true.
Proof.
  induction l as [|[k v] l IH]; simpl; intros Hin.
  - inversion Hin.
  - destruct (decide (k = key)) as [->|Hne]; [reflexivity|].
    apply IH. inversion Hin; subst; [congruence | assumption].
Qed.

Lemma find_entry_flag l key value value' :
  fst (find_entry l key value) = fst (find_entry l key value').
Proof.
  induction l as [|[k v] l IH]; simpl; [reflexivity|].
  destruct (decide (k = key)); [reflexivity | exact IH].
Qed.

Lemma find_entry_false l key value :
  fst (find_entry l key value) = false -> key ∉ l.*1.
Proof.
  intros Hf Hin. rewrite (find_entry_hit l key value Hin) in Hf. discriminate.
Qed.

Lemma update_entry_None l key value :
  update_entry l key value = None <-> key ∉ l.*1.
Proof.
  induction l as [|[k v] l IH]; simpl.
  - split; [intros _ Hin; inversion Hin | reflexivity].
  - destruct (decide (k = key)) as [->|Hne].
    + split; [discriminate | intros Hnot; exfalso; apply Hnot; left].
    + destruct (update_entry l key value) eqn:E.
      * split; [discriminate|]. intros Hnot. exfalso.
        assert (key ∉ l.*1) as Hl by (intros Hin; apply Hnot; right; exact Hin).
        apply IH in Hl. discriminate.
      * split; [|reflexivity]. intros _ Hin.
        inversion Hin; subst; [congruence|].
        destruct IH as [IH1 _]. apply (IH1 eq_refl). assumption.
Qed.

Lemma update_entry_Some l key value l' :
  update_entry l key value = Some l' ->
  length l' = length l /\ l'.*1 = l.*1 /\
  (forall value0, find_entry l' key value0 = (true, value)) /\
  (forall key' value0, key' <> key ->
     find_entry l' key' value0 = find_entry l key' value0).
Proof.
  revert l'. induction l as [|[k v] l IH]; simpl; intros l' Hu; [discriminate|].
  destruct (decide (k = key)) as [->|Hne].
  - injection Hu as <-. simpl. repeat split.
    + intros value0. destruct (decide (key = key)); [reflexivity | congruence].
    + intros key' value0 Hk. destruct (decide (key = key')); [congruence | reflexivity].
  - destruct (update_entry l key value) as [r|] eqn:E; [|discriminate].
    injection Hu as <-. destruct (IH r eq_refl) as (Hlen & Hkeys & Hfind & Hother).
    simpl. repeat split.
    + rewrite Hlen. reflexivity.
    + change (k :: r.*1 = k :: l.*1). rewrite Hkeys. reflexivity.
    + intros value0. destruct (decide (k = key)); [congruence | apply Hfind].
    + intros key' value0 Hk. destruct (decide (k = key')); [reflexivity|].
      apply Hother. exact Hk.
Qed.

Lemma remove_entry_length l key :
  (length (fst (remove_entry l key)) <= length l)%nat.
Proof.
  induction l as [|[k v] l IH]; simpl; [lia|].
  destruct (decide (k = key)); simpl; [lia|].
  destruct (remove_entry l key) as [r found]. simpl in *. lia.
Qed.

End BucketFacts.

(** ** Bucket::Insert and Bucket::Find *)

Section BucketClaims.

Context {K V : Type} `{EqDecision K}.
Implicit Types (b : @Bucket K V) (key : K) (value : V).

(** C2, as the code has it.  [Bucket::Insert] checks the capacity first: a
    full bucket rejects the call and is left as it was, whether or not the
    key is present (the flag returned is the negation of [IsFull]).  On a
    bucket that is not full, a present key has its value overwritten, the
    other entries and the number of entries being unchanged, and a new key
    is appended; both report success. *)
Theorem Bucket_Insert_checks_capacity_first b key value :
  snd (Bucket_Insert b key value) = negb (Bucket_IsFull b) /\
  (Bucket_IsFull b = true -> Bucket_Insert b key value = (b, false)) /\
  (Bucket_IsFull b = false -> key ∈ keys b ->
     exists b', Bucket_Insert b key value = (b', true) /\
       size_ b' = size_ b /\ depth_ b' = depth_ b /\ keys b' = keys b /\
       (forall value0, Bucket_Find b' key value0 = (true, value)) /\
       (forall key' value0, key' <> key ->
          Bucket_Find b' key' value0 = Bucket_Find b key' value0)) /\
  (Bucket_IsFull b = false -> key ∉ keys b ->
     Bucket_Insert b key value =
       (mkBucket (size_ b) (depth_ b) (list_ b ++ [(key, value)]), true)).
Proof.
  unfold Bucket_Insert, keys, Bucket_Find.
  destruct (Bucket_IsFull b) eqn:Hfull.
  - split; [reflexivity|]. split; [reflexivity|]. split; discriminate.
  - split; [|split; [discriminate|split]].
    + destruct (update_entry (list_ b) key value); reflexivity.
    + intros _ Hin.
      destruct (update_entry (list_ b) key value) as [l|] eqn:Hu.
      * destruct (update_entry_Some _ _ _ _ Hu) as (Hlen & Hkeys & Hfind & Hother).
        exists (mkBucket (size_ b) (depth_ b) l). simpl. repeat split; assumption.
      * apply update_entry_None in Hu. contradiction.
    + intros _ Hnot. apply (update_entry_None _ _ value) in Hnot.
      rewrite Hnot. reflexivity.
Qed.

Lemma Bucket_Find_miss b key value :
  (key ∉ keys b -> Bucket_Find b key value = (false, value)) /\
  (fst (Bucket_Find b key value) = false -> snd (Bucket_Find b key value) = value).
Proof.
  unfold Bucket_Find, keys. split.
  - apply find_entry_miss.
  - intros Hf. apply find_entry_false in Hf.
    rewrite (find_entry_miss _ _ _ Hf). reflexivity.
Qed.

End BucketClaims.

(** The bucket [{1 -> 10}] of capacity 1 is full; [Insert(1, 20)] is rejected
    and is not the update of the specification. *)
Lemma Bucket_Insert_full_present_key_rejected :
  let b := mkBucket 1 0 [(1, 10)] in
  Bucket_Insert b 1 20 = (b, false) /\
  spec_Bucket_insert b 1 20 = (mkBucket 1 0 [(1, 20)], true) /\
  Bucket_Insert b 1 20 <> spec_Bucket_insert b 1 20.
Proof.
  vm_compute. repeat split; discriminate.
Qed.

Lemma Bucket_Insert_checks_capacity_first_witness :
  Bucket_IsFull (mkBucket 2 0 [(1, 10)]) = false /\
  (exists b', Bucket_Insert (mkBucket 2 0 [(1, 10)]) 1 20 = (b', true) /\
              keys b' = keys (mkBucket 2 0 [(1, 10)])) /\
  Bucket_Insert (mkBucket 2 0 [(1, 10)]) 2 20 =
    (mkBucket 2 0 [(1, 10); (2, 20)], true).
Proof.
  pose proof (Bucket_Insert_checks_capacity_first (mkBucket 2 0 [(1, 10)]) 1 20)
    as (_ & _ & Hupd & _).
  pose proof (Bucket_Insert_checks_capacity_first (mkBucket 2 0 [(1, 10)]) 2 20)
    as (_ & _ & _ & Happ).
  split; [reflexivity|]. split.
  - destruct (Hupd eq_refl) as (b' & Hb & _ & _ & Hk & _).
    + vm_compute. left.
    + exists b'. split; assumption.
  - apply (Happ eq_refl). vm_compute.
    intros Hx. inversion Hx as [|? ? ? Hy]; subst. inversion Hy.
Defined.


(** ** The primitives of the table *)

Section TableFacts.

Context {K V : Type} `{EqDecision K}.
Variable hash : K -> Z.
Variable temp_value : V.
Implicit Types (st : @Table K V) (b : @Bucket K V) (p : option nat).

Lemma deref_Ret st p b :
  deref st p = Ret b -> exists a, p = Some a /\ heap st !! a = Some b.
Proof.
  unfold deref. destruct p as [a|]; [|discriminate].
  destruct (heap st !! a) as [b'|] eqn:E; [|discriminate].
  intros [= <-]. exists a. split; [reflexivity | exact E].
Qed.

Lemma store_Ret st p b st' :
  store st p b = Ret st' ->
  exists a, p = Some a /\ (a < length (heap st))%nat /\
            st' = set_heap st (<[a := b]> (heap st)).
Proof.
  unfold store. destruct p as [a|]; [|discriminate].
  destruct (decide (a < length (heap st))%nat) as [Hlt|]; [|discriminate].
  intros [= <-]. exists a. repeat split. exact Hlt.
Qed.

Lemma dir_get_Ret st i p :
  dir_get st i = Ret p ->
  in_range st i = true /\ dir_ st !! Z.to_nat i = Some p.
Proof.
  unfold dir_get. destruct (in_range st i); [|discriminate].
  destruct (dir_ st !! Z.to_nat i) as [q|] eqn:E; [|discriminate].
  intros [= <-]. split; reflexivity.
Qed.

Lemma dir_set_Ret st i p st' :
  dir_set st i p = Ret st' ->
  in_range st i = true /\ st' = set_dir st (<[Z.to_nat i := p]> (dir_ st)).
Proof.
  unfold dir_set. destruct (in_range st i); [|discriminate].
  intros [= <-]. split; reflexivity.
Qed.

Lemma in_range_iff st i : in_range st i = true <-> 0 <= i < dir_size st.
Proof.
  unfold in_range. rewrite andb_true_iff, Z.leb_le, Z.ltb_lt. reflexivity.
Qed.

Lemma dir_get_in_range st i :
  in_range st i = true -> exists p, dir_get st i = Ret p /\ dir_ st !! Z.to_nat i = Some p.
Proof.
  intros Hr. unfold dir_get. rewrite Hr.
  apply in_range_iff in Hr. unfold dir_size in Hr.
  destruct (dir_ st !! Z.to_nat i) as [q|] eqn:E.
  - exists q. split; reflexivity.
  - apply lookup_ge_None in E. lia.
Qed.

Lemma bucket_at_Ret st i b :
  bucket_at st i = Ret b ->
  exists a, in_range st i = true /\ dir_ st !! Z.to_nat i = Some (Some a) /\
            heap st !! a = Some b.
Proof.
  unfold bucket_at. intros H0. inv_bind H0 as p Hp.
  apply dir_get_Ret in Hp. destruct Hp as [Hr Hl].
  apply deref_Ret in H0. destruct H0 as (x & -> & Hh).
  exists x. repeat split; assumption.
Qed.

Lemma bucket_at_references st i a b :
  in_range st i = true -> dir_ st !! Z.to_nat i = Some (Some a) ->
  heap st !! a = Some b -> bucket_at st i = Ret b.
Proof.
  intros Hr Hd Hh. unfold bucket_at, dir_get. rewrite Hr, Hd. simpl.
  rewrite Hh. reflexivity.
Qed.

Lemma bucket_update_Ret st i f st' :
  bucket_update st i f = Ret st' ->
  exists a b, in_range st i = true /\ dir_ st !! Z.to_nat i = Some (Some a) /\
              heap st !! a = Some b /\
              st' = set_heap st (<[a := f b]> (heap st)).
Proof.
  unfold bucket_update. intros H0. inv_bind H0 as p Hp.
  apply dir_get_Ret in Hp. destruct Hp as [Hr Hl].
  inv_bind H0 as b Hb. apply deref_Ret in Hb. destruct Hb as (x & -> & Hh).
  apply store_Ret in H0. destruct H0 as (y & [= <-] & _ & ->).
  exists x, b. repeat split; assumption.
Qed.

Lemma bucket_update_references st i a b f :
  in_range st i = true -> dir_ st !! Z.to_nat i = Some (Some a) ->
  heap st !! a = Some b ->
  bucket_update st i f = Ret (set_heap st (<[a := f b]> (heap st))).
Proof.
  intros Hr Hd Hh. unfold bucket_update, dir_get. rewrite Hr, Hd. simpl.
  rewrite Hh. simpl. apply lookup_lt_Some in Hh.
  destruct (decide (a < length (heap st))%nat); [reflexivity | contradiction].
Qed.

Lemma Insert_S fuel key value st :
  Insert hash temp_value (S fuel) key value st =
  (bucket_index <- IndexOf hash st key ;;
   b <- bucket_at st bucket_index ;;
   if fst (Bucket_Find b key temp_value) then Ret st
   else
     b <- bucket_at st bucket_index ;;
     if negb (Bucket_IsFull b) then
       bucket_update st bucket_index (fun b => fst (Bucket_Insert b key value))
     else
       local_depth <- GetLocalDepth st bucket_index ;;
       if local_depth =? GetGlobalDepth st then
         st <- bucket_update (set_global_depth st (global_depth_ st + 1))
                 bucket_index Bucket_IncrementDepth ;;
         n <- shl1 (global_depth_ st) ;;
         m <- shl1 (global_depth_ (dir_resize st n) - 1) ;;
         m' <- shl1 (global_depth_ (dir_resize st n) - 1) ;;
         grow_loop hash temp_value fuel key value bucket_index (m - 1) m'
           (dir_resize st n)
       else
         st <- bucket_update st bucket_index Bucket_IncrementDepth ;;
         st <- split hash st bucket_index ;;
         Insert hash temp_value fuel key value st).
Proof. reflexivity. Qed.

Lemma grow_loop_S fuel key value bucket_index mask i st :
  grow_loop hash temp_value (S fuel) key value bucket_index mask i st =
  if i <? dir_size st then
    if Z.land i mask =? bucket_index then
      st <- split hash st bucket_index ;;
      st <- Insert hash temp_value fuel key value st ;;
      grow_loop hash temp_value fuel key value bucket_index mask (i + 1) st
    else
      p <- dir_get st (Z.land i mask) ;;
      st <- dir_set st i p ;;
      grow_loop hash temp_value fuel key value bucket_index mask (i + 1) st
  else Ret st.
Proof. reflexivity. Qed.

End TableFacts.

(** ** Invariants of the table *)

Section Invariants.

Context {K V : Type} `{EqDecision K}.
Variable hash : K -> Z.
Variable temp_value : V.
Implicit Types (st : @Table K V) (b : @Bucket K V) (p : option nat).

Lemma bucket_ok_new cap d : 0 <= cap -> bucket_ok cap (@Bucket_new K V cap d).
Proof. intros Hc. split; simpl; [reflexivity | lia]. Qed.

Lemma bucket_ok_IncrementDepth cap b :
  bucket_ok cap b -> bucket_ok cap (Bucket_IncrementDepth b).
Proof. intros [Hs Hl]. split; simpl; assumption. Qed.

Lemma bucket_ok_Remove cap b key :
  bucket_ok cap b -> bucket_ok cap (fst (Bucket_Remove b key)).
Proof.
  intros [Hs Hl]. unfold Bucket_Remove.
  pose proof (remove_entry_length (list_ b) key) as Hr.
  destruct (remove_entry (list_ b) key) as [l found]. simpl in *.
  split; simpl; [assumption | lia].
Qed.

Lemma bucket_ok_Insert cap b key value :
  bucket_ok cap b -> bucket_ok cap (fst (Bucket_Insert b key value)).
Proof.
  intros [Hs Hl]. unfold Bucket_Insert, Bucket_IsFull.
  destruct (Z.of_nat (length (list_ b)) =? size_ b) eqn:Hfull; simpl.
  - split; assumption.
  - apply Z.eqb_neq in Hfull.
    destruct (update_entry (list_ b) key value) as [l|] eqn:Hu; simpl.
    + apply update_entry_Some in Hu. destruct Hu as (Hlen & _).
      split; simpl; [assumption | lia].
    + split; simpl; [assumption|]. rewrite length_app. simpl. lia.
Qed.

Lemma keeps_refl st : keeps st st.
Proof. repeat split. Qed.

Lemma keeps_trans st1 st2 st3 : keeps st1 st2 -> keeps st2 st3 -> keeps st1 st3.
Proof.
  intros (A1 & A2 & A3 & A4) (B1 & B2 & B3 & B4).
  repeat split; congruence.
Qed.

Lemma keeps_set_heap st h : keeps st (set_heap st h).
Proof. repeat split. Qed.

Lemma heap_inv_lookup st a b :
  heap_inv st -> heap st !! a = Some b -> bucket_ok (bucket_size_ st) b.
Proof.
  intros (_ & Hc & _) Hl. unfold capacity_invariant in Hc.
  rewrite Forall_lookup in Hc. apply (Hc a b Hl).
Qed.

Lemma heap_inv_keeps st st' :
  heap_inv st -> keeps st st' -> heap st' = heap st -> heap_inv st'.
Proof.
  intros (H1 & H2 & H3) (_ & K2 & K3 & _) Hh. unfold heap_inv, capacity_invariant.
  rewrite Hh, K2, K3. repeat split; assumption.
Qed.

Lemma store_keeps st p b st' :
  heap_inv st -> bucket_ok (bucket_size_ st) b -> store st p b = Ret st' ->
  heap_inv st' /\ keeps st st'.
Proof.
  intros (H1 & H2 & H3) Hb Hs. apply store_Ret in Hs.
  destruct Hs as (a & -> & Hlt & ->). split; [|apply keeps_set_heap].
  repeat split; simpl; try assumption.
  unfold capacity_invariant. simpl. apply Forall_insert; assumption.
Qed.

Lemma bucket_update_keeps st i f st' :
  heap_inv st ->
  (forall b, bucket_ok (bucket_size_ st) b -> bucket_ok (bucket_size_ st) (f b)) ->
  bucket_update st i f = Ret st' -> heap_inv st' /\ keeps st st'.
Proof.
  intros Hinv Hf Hu. apply bucket_update_Ret in Hu.
  destruct Hu as (a & b & _ & _ & Hh & ->).
  destruct Hinv as (H1 & H2 & H3). split; [|apply keeps_set_heap].
  repeat split; simpl; try assumption.
  unfold capacity_invariant. simpl. apply Forall_insert; [assumption|].
  apply Hf. unfold capacity_invariant in H2. rewrite Forall_lookup in H2.
  apply (H2 a b Hh).
Qed.

Lemma dir_set_keeps st i p st' :
  heap_inv st -> dir_set st i p = Ret st' -> heap_inv st' /\ keeps st st'.
Proof.
  intros Hinv Hs. apply dir_set_Ret in Hs. destruct Hs as (_ & ->).
  split; [exact Hinv|]. repeat split. simpl. apply length_insert.
Qed.

Lemma make_shared_keeps st b :
  heap_inv st -> bucket_ok (bucket_size_ st) b ->
  heap_inv (fst (make_shared st b)) /\ keeps st (fst (make_shared st b)).
Proof.
  intros (H1 & H2 & H3) Hb. split; [|apply keeps_set_heap].
  repeat split; simpl; try assumption.
  unfold capacity_invariant. simpl. apply Forall_app. split; [assumption|].
  apply Forall_singleton. assumption.
Qed.

Lemma distribute_keeps pairs src p st st' :
  heap_inv st -> distribute pairs src p st = Ret st' ->
  heap_inv st' /\ keeps st st'.
Proof.
  revert st. induction pairs as [|[k v] rest IH]; simpl; intros st Hinv Hd.
  - injection Hd as <-. split; [assumption | apply keeps_refl].
  - inv_bind Hd as d Hderef. inv_bind Hd as st1 Hstore.
    inv_bind Hd as st2 Hupd.
    apply deref_Ret in Hderef. destruct Hderef as (a & -> & Hh).
    pose proof (heap_inv_lookup _ _ _ Hinv Hh) as Hok.
    destruct (store_keeps _ _ _ _ Hinv (bucket_ok_Insert _ _ k v Hok) Hstore)
      as [Hinv1 Hk1].
    destruct (bucket_update_keeps _ _ _ _ Hinv1
                (fun b Hb => bucket_ok_Remove _ b k Hb) Hupd) as [Hinv2 Hk2].
    destruct (IH _ Hinv2 Hd) as [Hinv3 Hk3].
    split; [assumption|]. eapply keeps_trans; [|exact Hk3].
    eapply keeps_trans; eassumption.
Qed.

Lemma RedistributeBucket_keeps st src p index st' :
  heap_inv st -> RedistributeBucket hash st src p index = Ret st' ->
  heap_inv st' /\ keeps st st'.
Proof.
  unfold RedistributeBucket. intros Hinv Hr.
  inv_bind Hr as s Hs. inv_bind Hr as mask Hmask. inv_bind Hr as st1 Hset.
  inv_bind Hr as s' Hs'.
  destruct (dir_set_keeps _ _ _ _ Hinv Hset) as [Hinv1 Hk1].
  destruct (distribute_keeps _ _ _ _ _ Hinv1 Hr) as [Hinv2 Hk2].
  split; [assumption|]. eapply keeps_trans; eassumption.
Qed.

Lemma split_keeps st bucket_index st' :
  heap_inv st -> split hash st bucket_index = Ret st' ->
  heap_inv st' /\ keeps st st'.
Proof.
  unfold split. intros Hinv Hs. inv_bind Hs as b Hb.
  destruct (make_shared st (Bucket_new (bucket_size_ st) (Bucket_GetDepth b)))
    as [st1 a] eqn:Hm.
  assert (Hok : bucket_ok (bucket_size_ st)
                  (@Bucket_new K V (bucket_size_ st) (Bucket_GetDepth b))).
  { apply bucket_ok_new. apply Hinv. }
  destruct (make_shared_keeps st _ Hinv Hok) as [Hinv1 Hk1].
  rewrite Hm in Hinv1, Hk1. simpl in Hinv1, Hk1.
  destruct (RedistributeBucket_keeps _ _ _ _ _ Hinv1 Hs) as [Hinv2 Hk2].
  split; [assumption|]. eapply keeps_trans; eassumption.
Qed.

Lemma dir_inv_keeps st st' : dir_inv st -> keeps st st' -> dir_inv st'.
Proof.
  intros [Hd Hs] (K1 & _ & _ & K4). unfold dir_inv, dir_size in *.
  rewrite K1, K4. split; assumption.
Qed.

Lemma dir_resize_length st n :
  length (dir_ (dir_resize st n)) = Z.to_nat n.
Proof.
  unfold dir_resize. simpl. rewrite length_app, length_take, length_replicate. lia.
Qed.

Lemma dir_inv_grow st n :
  dir_inv (set_global_depth st (global_depth_ st - 1)) ->
  shl1 (global_depth_ st) = Ret n -> dir_inv (dir_resize st n).
Proof.
  intros [Hd _] Hn. apply shl1_Ret in Hn. destruct Hn as [Hr ->].
  simpl in Hd. split.
  - simpl. exact Hr.
  - unfold dir_size. rewrite dir_resize_length. simpl.
    rewrite Z2Nat.id; [reflexivity | lia].
Qed.

Lemma Insert_grow_loop_inv fuel :
  (forall key value st st',
     heap_inv st -> dir_inv st ->
     Insert hash temp_value fuel key value st = Ret st' ->
     heap_inv st' /\ dir_inv st' /\ bucket_size_ st' = bucket_size_ st) /\
  (forall key value bucket_index mask i st st',
     heap_inv st -> dir_inv st ->
     grow_loop hash temp_value fuel key value bucket_index mask i st = Ret st' ->
     heap_inv st' /\ dir_inv st' /\ bucket_size_ st' = bucket_size_ st).
Proof.
  induction fuel as [|fuel [IHins IHloop]]; [split; intros; discriminate|].
  split.
  - intros key value st st' Hinv Hdir Hi. simpl in Hi.
    inv_bind Hi as bucket_index Hidx. inv_bind Hi as b Hb.
    destruct (fst (Bucket_Find b key temp_value)).
    { injection Hi as <-. repeat split; try assumption; apply Hinv || apply Hdir. }
    inv_bind Hi as b' Hb'.
    destruct (negb (Bucket_IsFull b')).
    { destruct (bucket_update_keeps _ _ _ _ Hinv
                  (fun x Hx => bucket_ok_Insert _ x key value Hx) Hi) as [H1 H2].
      split; [assumption|]. split; [eapply dir_inv_keeps; eassumption | apply H2]. }
    inv_bind Hi as local_depth Hld.
    destruct (local_depth =? GetGlobalDepth st).
    + inv_bind Hi as st1 Hupd. inv_bind Hi as n Hn.
      inv_bind Hi as m Hm. inv_bind Hi as m' Hm'.
      assert (Hinv0 : heap_inv (set_global_depth st (global_depth_ st + 1)))
        by exact Hinv.
      destruct (bucket_update_keeps _ _ _ _ Hinv0
                  (fun x Hx => bucket_ok_IncrementDepth _ x Hx) Hupd)
        as [Hinv1 (K1 & K2 & K3 & K4)].
      apply (IHloop _ _ _ _ _ _ _) in Hi; [|exact Hinv1|].
      * destruct Hi as (R1 & R2 & R3). repeat split; try apply R1; try apply R2.
        rewrite R3. simpl. exact K2.
      * apply dir_inv_grow; [|exact Hn].
        destruct Hdir as [Hd Hs]. unfold dir_inv, dir_size in *. simpl in *.
        rewrite K1, K4. simpl.
        replace (global_depth_ st + 1 - 1) with (global_depth_ st) by lia.
        split; assumption.
    + inv_bind Hi as st1 Hupd. inv_bind Hi as st2 Hsplit.
      destruct (bucket_update_keeps _ _ _ _ Hinv
                  (fun x Hx => bucket_ok_IncrementDepth _ x Hx) Hupd)
        as [Hinv1 Hk1].
      destruct (split_keeps _ _ _ Hinv1 Hsplit) as [Hinv2 Hk2].
      pose proof (keeps_trans _ _ _ Hk1 Hk2) as Hk.
      apply IHins in Hi; [|exact Hinv2|eapply dir_inv_keeps; eassumption].
      destruct Hi as (R1 & R2 & R3). repeat split; try apply R1; try apply R2.
      rewrite R3. apply Hk.
  - intros key value bucket_index mask i st st' Hinv Hdir Hl. simpl in Hl.
    destruct (i <? dir_size st).
    2:{ injection Hl as <-. repeat split; try assumption; apply Hinv || apply Hdir. }
    destruct (Z.land i mask =? bucket_index).
    + inv_bind Hl as st1 Hsplit. inv_bind Hl as st2 Hins.
      destruct (split_keeps _ _ _ Hinv Hsplit) as [Hinv1 Hk1].
      destruct (IHins _ _ _ _ Hinv1 (dir_inv_keeps _ _ Hdir Hk1) Hins)
        as (Hinv2 & Hdir2 & Hsz2).
      apply IHloop in Hl; [|assumption|assumption].
      destruct Hl as (R1 & R2 & R3). repeat split; try apply R1; try apply R2.
      rewrite R3, Hsz2. apply Hk1.
    + inv_bind Hl as p Hp. inv_bind Hl as st1 Hset.
      destruct (dir_set_keeps _ _ _ _ Hinv Hset) as [Hinv1 Hk1].
      apply IHloop in Hl; [|exact Hinv1|eapply dir_inv_keeps; eassumption].
      destruct Hl as (R1 & R2 & R3). repeat split; try apply R1; try apply R2.
      rewrite R3. apply Hk1.
Qed.

Lemma Remove_inv st key st' found :
  heap_inv st -> dir_inv st -> Remove hash st key = Ret (st', found) ->
  heap_inv st' /\ dir_inv st' /\ bucket_size_ st' = bucket_size_ st.
Proof.
  intros Hinv Hdir Hr. unfold Remove in Hr.
  inv_bind Hr as bucket_index Hidx. inv_bind Hr as p Hp. inv_bind Hr as b Hb.
  apply deref_Ret in Hb. destruct Hb as (a & -> & Hh).
  pose proof (bucket_ok_Remove _ _ key (heap_inv_lookup _ _ _ Hinv Hh)) as Hok.
  destruct (Bucket_Remove b key) as [b' f]. simpl in Hok.
  inv_bind Hr as st1 Hstore. injection Hr as <- <-.
  destruct (store_keeps _ _ _ _ Hinv Hok Hstore) as [H1 H2].
  split; [assumption|]. split; [eapply dir_inv_keeps; eassumption | apply H2].
Qed.

Lemma step_inv fuel st o st' :
  heap_inv st -> dir_inv st -> step hash temp_value fuel st o = Ret st' ->
  heap_inv st' /\ dir_inv st' /\ bucket_size_ st' = bucket_size_ st.
Proof.
  intros Hinv Hdir Hs. destruct o as [key|key value|key]; simpl in Hs.
  - inv_bind Hs as r Hr. injection Hs as <-. repeat split; apply Hinv || apply Hdir.
  - destruct (Insert_grow_loop_inv fuel) as [Hins _]. eapply Hins; eassumption.
  - inv_bind Hs as r Hr. injection Hs as <-. destruct r as [st1 found].
    eapply Remove_inv; eassumption.
Qed.

Lemma run_ops_inv fuel ops st st' :
  heap_inv st -> dir_inv st -> run_ops hash temp_value fuel ops st = Ret st' ->
  heap_inv st' /\ dir_inv st' /\ bucket_size_ st' = bucket_size_ st.
Proof.
  revert st. induction ops as [|o rest IH]; simpl; intros st Hinv Hdir Hr.
  - injection Hr as <-. repeat split; apply Hinv || apply Hdir.
  - inv_bind Hr as st1 Hstep.
    destruct (step_inv _ _ _ _ Hinv Hdir Hstep) as (H1 & H2 & H3).
    destruct (IH _ H1 H2 Hr) as (R1 & R2 & R3).
    repeat split; try apply R1; try apply R2. congruence.
Qed.

Lemma constructor_inv bucket_size :
  0 <= bucket_size ->
  heap_inv (@ExtendibleHashTable K V bucket_size) /\
  dir_inv (@ExtendibleHashTable K V bucket_size).
Proof.
  intros Hb. split.
  - repeat split; simpl; try assumption.
    unfold capacity_invariant. simpl. apply Forall_singleton.
    apply bucket_ok_new. assumption.
  - split; simpl; [lia | reflexivity].
Qed.

Lemma reachable_inv bucket_size st :
  0 <= bucket_size -> reachable hash temp_value bucket_size st ->
  heap_inv st /\ dir_inv st /\ bucket_size_ st = bucket_size.
Proof.
  intros Hb Hreach. induction Hreach as [|fuel st o st' _ IH Hstep].
  - destruct (constructor_inv bucket_size Hb) as [H1 H2].
    split; [exact H1|]. split; [exact H2 | reflexivity].
  - destruct IH as (H1 & H2 & H3).
    destruct (step_inv _ _ _ _ H1 H2 Hstep) as (R1 & R2 & R3).
    split; [exact R1|]. split; [exact R2 | congruence].
Qed.

Lemma run_ops_reachable bucket_size fuel ops st st' :
  reachable hash temp_value bucket_size st ->
  run_ops hash temp_value fuel ops st = Ret st' ->
  reachable hash temp_value bucket_size st'.
Proof.
  revert st. induction ops as [|o rest IH]; simpl; intros st Hreach Hrun.
  - injection Hrun as <-. exact Hreach.
  - inv_bind Hrun as st1 Hstep. apply (IH st1); [|exact Hrun].
    apply (reachable_step _ _ _ fuel st o st1 Hreach Hstep).
Qed.

(** The length of the directory is [2 ^ global_depth_] and [num_buckets_]
    is 1 in every reachable state. *)
Lemma directory_length_is_pow2 bucket_size st :
  0 <= bucket_size -> reachable hash temp_value bucket_size st ->
  dir_size st = 2 ^ global_depth_ st /\ GetNumBuckets st = 1.
Proof.
  intros Hb Hreach.
  destruct (reachable_inv bucket_size st Hb Hreach) as ((_ & _ & Hn) & (_ & Hs) & _).
  split; [exact Hs | exact Hn].
Qed.

End Invariants.

(** ** Properties of the member functions of the table *)

Section TableClaims.

Context {K V : Type} `{EqDecision K}.
Variable hash : K -> Z.
Variable temp_value : V.
Implicit Types (st : @Table K V) (b : @Bucket K V) (key : K) (value : V).

(** C4: in a table built with capacity [bucket_size], after any sequence of
    completed operations (construction, Find, Insert with its splits,
    Remove) every bucket object has capacity [bucket_size] and holds at most
    that many entries; and [Bucket::Insert] on a full bucket is rejected with
    the bucket left as it was. *)
Theorem capacity_never_exceeded bucket_size st :
  0 <= bucket_size -> reachable hash temp_value bucket_size st ->
  (forall a b, heap st !! a = Some b ->
     size_ b = bucket_size /\ Z.of_nat (length (list_ b)) <= bucket_size) /\
  (forall a b key value, heap st !! a = Some b -> Bucket_IsFull b = true ->
     Bucket_Insert b key value = (b, false)).
Proof.
  intros Hb Hreach.
  destruct (reachable_inv hash temp_value _ _ Hb Hreach) as (Hinv & _ & Hsz).
  split.
  - intros a b Hl. destruct (heap_inv_lookup _ _ _ Hinv Hl) as [H1 H2].
    rewrite Hsz in H1. split; [exact H1 | lia].
  - intros a b key value _ Hfull. unfold Bucket_Insert. rewrite Hfull. reflexivity.
Qed.

Lemma IndexOf_in_range st key :
  dir_inv st ->
  IndexOf hash st key = Ret (Z.land (hash key) (Z.shiftl 1 (global_depth_ st) - 1)) /\
  Z.land (hash key) (Z.shiftl 1 (global_depth_ st) - 1) =
    hash key mod 2 ^ global_depth_ st /\
  in_range st (Z.land (hash key) (Z.shiftl 1 (global_depth_ st) - 1)) = true.
Proof.
  intros [Hd Hs]. unfold IndexOf. rewrite (shl1_in_range _ Hd). simpl.
  rewrite Z.shiftl_1_l.
  assert (Hland : Z.land (hash key) (2 ^ global_depth_ st - 1) =
                  hash key mod 2 ^ global_depth_ st).
  { rewrite <- Z.land_ones by lia. rewrite Z.ones_equiv. reflexivity. }
  split; [reflexivity|]. split; [exact Hland|].
  apply in_range_iff. rewrite Hland, Hs.
  apply Z.mod_pos_bound. apply Z.pow_pos_nonneg; lia.
Qed.

(** C8: in every state of a table after a sequence of operations, the slot
    [IndexOf] computes for a key is [hash(key) & ((1 << global_depth_) - 1)],
    that is the low [global_depth_] bits of the hash, a slot of the
    directory; [Find] and [Remove] act on the bucket of that slot, and so
    does [Insert], which returns at once when that bucket holds the key and
    inserts into it when it has room. *)
Theorem IndexOf_is_low_bits_of_hash bucket_size st key :
  0 <= bucket_size -> reachable hash temp_value bucket_size st ->
  let idx := Z.land (hash key) (Z.shiftl 1 (global_depth_ st) - 1) in
  IndexOf hash st key = Ret idx /\
  idx = hash key mod 2 ^ global_depth_ st /\
  in_range st idx = true /\
  (forall value,
     Find hash st key value = (b <- bucket_at st idx ;; Ret (Bucket_Find b key value))) /\
  Remove hash st key =
    (p <- dir_get st idx ;; b <- deref st p ;;
     st' <- store st p (fst (Bucket_Remove b key)) ;;
     Ret (st', snd (Bucket_Remove b key))) /\
  (forall fuel value b, bucket_at st idx = Ret b -> key ∈ keys b ->
     Insert hash temp_value (S fuel) key value st = Ret st) /\
  (forall fuel value b, bucket_at st idx = Ret b -> key ∉ keys b ->
     Bucket_IsFull b = false ->
     Insert hash temp_value (S fuel) key value st =
       bucket_update st idx (fun b => fst (Bucket_Insert b key value))).
Proof.
  intros Hb Hreach idx.
  destruct (reachable_inv hash temp_value _ _ Hb Hreach) as (_ & Hdir & _).
  destruct (IndexOf_in_range st key Hdir) as (Hidx & Hmod & Hr).
  fold idx in Hidx, Hmod, Hr.
  split; [exact Hidx|]. split; [exact Hmod|]. split; [exact Hr|].
  split; [|split; [|split]].
  - intros value. unfold Find. rewrite Hidx. reflexivity.
  - unfold Remove. rewrite Hidx. simpl.
    destruct (dir_get st idx) as [p| | |]; simpl; try reflexivity.
    destruct (deref st p) as [b| | |]; simpl; try reflexivity.
    destruct (Bucket_Remove b key) as [b' found]. reflexivity.
  - intros fuel value b Hat Hin. simpl. rewrite Hidx. simpl. rewrite Hat. simpl.
    unfold Bucket_Find. rewrite (find_entry_hit _ _ _ Hin). reflexivity.
  - intros fuel value b Hat Hnot Hfull. simpl. rewrite Hidx. simpl.
    rewrite Hat. simpl. unfold Bucket_Find.
    rewrite (find_entry_miss _ _ temp_value Hnot). simpl.
    rewrite Hfull. reflexivity.
Qed.

(** C9, as the code has it.  [GetLocalDepth] does not check its argument:
    for a slot of the directory that references a bucket it returns the
    depth of that bucket, and for an index outside the directory the access
    [dir_[dir_index]] is undefined behaviour, not a signalled failure. *)
Theorem GetLocalDepth_unchecked st (dir_index : Z) :
  (forall a b, references st dir_index a b ->
     GetLocalDepth st dir_index = Ret (depth_ b)) /\
  (in_range st dir_index = false -> GetLocalDepth st dir_index = Undef).
Proof.
  unfold GetLocalDepth, GetLocalDepthInternal. split.
  - intros a b (Hpos & Hd & Hh).
    assert (Hr : in_range st dir_index = true).
    { apply in_range_iff. apply lookup_lt_Some in Hd. unfold dir_size. lia. }
    rewrite (bucket_at_references _ _ _ _ Hr Hd Hh). reflexivity.
  - intros Hr. unfold bucket_at, dir_get. rewrite Hr. reflexivity.
Qed.

(** C10: when the key is not in the bucket, [Bucket::Find] returns false and
    the out parameter holds what it held before the call; the same is true
    of the [Find] of a table whose slot for the key references that
    bucket. *)
Theorem Find_miss_keeps_value b key value :
  key ∉ keys b ->
  Bucket_Find b key value = (false, value) /\
  (forall st idx, IndexOf hash st key = Ret idx -> bucket_at st idx = Ret b ->
     Find hash st key value = Ret (false, value)).
Proof.
  intros Hnot. destruct (Bucket_Find_miss b key value) as [Hmiss _].
  split; [exact (Hmiss Hnot)|].
  intros st idx Hidx Hat. unfold Find. rewrite Hidx. simpl. rewrite Hat. simpl.
  rewrite (Hmiss Hnot). reflexivity.
Qed.

End TableClaims.

(** ** The defects of [Insert] and [RedistributeBucket], on [ExtendibleHashTable<int, int>] *)

Lemma table_032_reached :
  int_run 8 [OpInsert 0 0; OpInsert 3 30; OpInsert 2 20] (ExtendibleHashTable 1)
  = Ret table_032.
Proof. vm_compute. reflexivity. Qed.

Lemma table_0327_reached :
  int_insert 8 7 70 table_032 = Ret table_0327.
Proof. vm_compute. reflexivity. Qed.

(** C1 on the code.  [Insert] returns as soon as [Find] succeeds on the
    addressed bucket: after [Insert(1, 10)] and [Insert(1, 20)] the table is
    the one [Insert(1, 10)] left and [Find(1)] yields 10, not 20.  Also, the
    loop of the growth branch goes on with the bound of a directory that a
    nested call has doubled and splits the same bucket again: with capacity
    2, after the inserts of 0, 2 and 4, [Find(2)] misses. *)
Theorem Insert_present_key_keeps_old_value :
  (exists st1,
     int_insert 4 1 10 (ExtendibleHashTable 2) = Ret st1 /\
     int_insert 4 1 20 st1 = Ret st1 /\
     int_find st1 1 0 = Ret (true, 10)) /\
  (exists st,
     int_run 12 [OpInsert 0 0; OpInsert 2 20; OpInsert 4 40] (ExtendibleHashTable 2)
       = Ret st /\
     int_find st 2 0 = Ret (false, 0)).
Proof.
  split.
  - eexists. split; [vm_compute; reflexivity|]. split; vm_compute; reflexivity.
  - eexists. split; vm_compute; reflexivity.
Qed.

(** C3 on the code.  No member function assigns [num_buckets_]: with
    capacity 1, after the inserts of 0 and 1 the directory references two
    bucket objects and [GetNumBuckets] still returns 1. *)
Theorem GetNumBuckets_not_updated_by_split :
  exists st,
    int_run 8 [OpInsert 0 0; OpInsert 1 10] (ExtendibleHashTable 1) = Ret st /\
    distinct_buckets (ExtendibleHashTable (K:=Z) (V:=Z) 1) = 1 /\
    distinct_buckets st = 2 /\
    GetNumBuckets st = 1.
Proof.
  eexists. split; [vm_compute; reflexivity|]. repeat split.
Qed.

(** C5 on the code.  A split below the global depth repoints one slot only:
    with capacity 1, after the inserts of 0, 1, 2, 4 and 3 the directory has
    8 slots for global depth 3; slot 7 references the bucket of depth 2 at
    address 1, and slot 3, which has the same low 2 bits, references another
    bucket. *)
Theorem aliasing_broken_by_split_below_global_depth :
  exists st,
    int_run 12 [OpInsert 0 0; OpInsert 1 10; OpInsert 2 20; OpInsert 4 40; OpInsert 3 30]
      (ExtendibleHashTable 1) = Ret st /\
    dir_size st = 2 ^ global_depth_ st /\
    references st 7 1%nat (mkBucket 1 2 [(1, 10)]) /\
    in_range st 3 = true /\
    low_bits 2 3 = low_bits 2 7 /\
    dir_ st !! Z.to_nat 3 = Some (Some 4%nat) /\
    ~ directory_invariant st.
Proof.
  eexists. split; [vm_compute; reflexivity|].
  assert (Href : references
    (mkTable 3 1 1
       [Some 0%nat; Some 1%nat; Some 2%nat; Some 4%nat; Some 3%nat; Some 1%nat;
        Some 2%nat; Some 1%nat]
       [mkBucket 1 3 [(0, 0)]; mkBucket 1 2 [(1, 10)]; mkBucket 1 2 [(2, 20)];
        mkBucket 1 3 [(4, 40)]; mkBucket 1 2 [(3, 30)]])
    7 1%nat (mkBucket 1 2 [(1, 10)])).
  { repeat split. lia. }
  split; [reflexivity|]. split; [exact Href|]. split; [reflexivity|].
  split; [reflexivity|]. split; [reflexivity|].
  intros [_ Halias].
  specialize (Halias 7 3 1%nat _ Href eq_refl eq_refl).
  vm_compute in Halias. discriminate.
Qed.

(** C6 on the code.  [src_bucket] is a reference to the slot
    [dir_[bucket_index]]; when [bucket_index] has the new bit set, the
    assignment [dir_[index|mask] = dst_bucket] overwrites that very slot and
    the entries scanned are those of the empty sibling.  In the table of
    capacity 1 that holds 0, 3, 2, the split of the bucket of slot 3 at new
    depth 2 leaves the entry of key 3, whose hash has bit [1 << 1] set, in
    the original bucket and the sibling empty; after the insert of 7 that
    caused the split, [Find(3)] misses. *)
Theorem split_through_slot_with_bit_set_moves_nothing :
  exists st1 st2,
    bucket_update table_032 3 Bucket_IncrementDepth = Ret st1 /\
    bucket_at st1 3 = Ret (mkBucket 1 2 [(3, 30)]) /\
    Z.land (int_hash 3) (Z.shiftl 1 (2 - 1)) <> 0 /\
    split int_hash st1 3 = Ret st2 /\
    dir_ st2 !! Z.to_nat (Z.lor 3 (Z.shiftl 1 (2 - 1))) = Some (Some 3%nat) /\
    heap st2 !! 1%nat = Some (mkBucket 1 2 [(3, 30)]) /\
    heap st2 !! 3%nat = Some (mkBucket 1 2 []) /\
    int_insert 8 7 70 table_032 = Ret table_0327 /\
    int_find table_032 3 0 = Ret (true, 30) /\
    int_find table_0327 3 0 = Ret (false, 0).
Proof.
  eexists. eexists. split; [vm_compute; reflexivity|].
  split; [vm_compute; reflexivity|]. split; [vm_compute; discriminate|].
  split; [vm_compute; reflexivity|]. repeat split.
Qed.

(** *** The retry of [Insert] that never ends *)

Lemma land_one_mask (g : Z) : 1 <= g -> Z.land 1 (2 ^ g - 1) = 1.
Proof.
  intros Hg. change (2 ^ g - 1) with (Z.pred (2 ^ g)).
  rewrite <- Z.ones_equiv, Z.land_ones by lia.
  apply Z.mod_small. pose proof (Z.pow_gt_1 2 g). lia.
Qed.

Lemma land_pow_mask (g : Z) : 0 <= g -> Z.land (2 ^ g) (2 ^ g - 1) = 0.
Proof.
  intros Hg. change (2 ^ g - 1) with (Z.pred (2 ^ g)).
  rewrite <- Z.ones_equiv, Z.land_ones by lia.
  apply Z.mod_same. pose proof (Z.pow_pos_nonneg 2 g). lia.
Qed.

Lemma land_pow_succ_mask (g : Z) : 1 <= g -> Z.land (2 ^ g + 1) (2 ^ g - 1) = 1.
Proof.
  intros Hg. change (2 ^ g - 1) with (Z.pred (2 ^ g)).
  rewrite <- Z.ones_equiv, Z.land_ones by lia.
  pose proof (Z.pow_gt_1 2 g).
  replace (2 ^ g + 1) with (1 + 1 * 2 ^ g) by lia.
  rewrite Z.mod_add by lia. apply Z.mod_small. lia.
Qed.

Lemma land_three_pow (g : Z) : 2 <= g -> Z.land 3 (2 ^ g) = 0.
Proof.
  intros Hg. rewrite Z.land_comm. change 3 with (Z.ones 2).
  rewrite Z.land_ones by lia.
  replace g with (g - 2 + 2) by lia. rewrite Z.pow_add_r by lia.
  apply Z.mod_mul. lia.
Qed.

Lemma lor_one_pow (g : Z) : 1 <= g -> Z.lor 1 (2 ^ g) = 2 ^ g + 1.
Proof.
  intros Hg. pose proof (Z.add_lor_land 1 (2 ^ g)) as Hadd.
  assert (Hland : Z.land 1 (2 ^ g) = 0).
  { rewrite Z.land_comm. change 1 with (Z.ones 1) at 1.
    rewrite Z.land_ones by lia.
    replace g with (g - 1 + 1) by lia. rewrite Z.pow_add_r by lia.
    apply Z.mod_mul. lia. }
  lia.
Qed.

Lemma stuck_in_range (g : Z) (st : IntTable) (i : Z) :
  0 <= g -> stuck g st -> 0 <= i < 2 ^ g -> in_range st i = true.
Proof.
  intros Hg (_ & Hs & _) Hi. apply in_range_iff. lia.
Qed.

Lemma stuck_bucket_at (g : Z) (st : IntTable) :
  1 <= g -> stuck g st ->
  exists w, bucket_at st 1 = Ret (mkBucket 1 g [(3, w)]).
Proof.
  intros Hg Hst. pose proof Hst as (_ & _ & a & w & Hd & Hh).
  exists w. apply (bucket_at_references st 1 a); [|exact Hd|exact Hh].
  apply (stuck_in_range g); [lia | exact Hst |].
  pose proof (Z.pow_gt_1 2 g). lia.
Qed.

Lemma stuck_dir_set (g : Z) (st st' : IntTable) (i : Z) (p : option nat) :
  stuck g st -> 2 <= i -> dir_set st i p = Ret st' -> stuck g st'.
Proof.
  intros (Hgd & Hs & a & w & Hd & Hh) Hi Hset.
  apply dir_set_Ret in Hset. destruct Hset as [_ ->].
  split; [exact Hgd|]. split.
  - unfold dir_size in *. simpl. rewrite length_insert. exact Hs.
  - exists a, w. simpl. split; [|exact Hh].
    rewrite list_lookup_insert_ne by lia. exact Hd.
Qed.

Lemma split_stuck (g : Z) (st st' : IntTable) :
  3 <= g -> stuck g st -> split int_hash st 1 = Ret st' -> stuck g st'.
Proof.
  intros Hg Hst Hsplit.
  destruct (stuck_bucket_at g st ltac:(lia) Hst) as (w & Hat).
  pose proof Hst as (Hgd & Hs & a & w' & Hd & Hh).
  unfold split in Hsplit. rewrite Hat in Hsplit. cbn [bind] in Hsplit.
  unfold make_shared in Hsplit.
  set (st1 := set_heap st (heap st ++ [Bucket_new (bucket_size_ st)
                 (Bucket_GetDepth (mkBucket 1 g [(3, w)]))])) in Hsplit.
  assert (Hst1 : stuck g st1).
  { split; [exact Hgd|]. split; [exact Hs|]. exists a, w'. split; [exact Hd|].
    simpl. rewrite lookup_app_l; [exact Hh|]. apply lookup_lt_Some in Hh. exact Hh. }
  destruct (stuck_bucket_at g st1 ltac:(lia) Hst1) as (w1 & Hat1).
  unfold RedistributeBucket in Hsplit. rewrite Hat1 in Hsplit.
  cbn [bind Bucket_GetDepth depth_] in Hsplit.
  inv_bind Hsplit as mask Hmask. apply shl1_Ret in Hmask.
  destruct Hmask as [Hrange ->].
  inv_bind Hsplit as st2 Hset.
  rewrite (lor_one_pow (g - 1)) in Hset by lia.
  assert (H4 : 4 <= 2 ^ (g - 1)).
  { change 4 with (2 ^ 2). apply Z.pow_le_mono_r; lia. }
  assert (Hst2 : stuck g st2).
  { apply (stuck_dir_set g st1 st2 (2 ^ (g - 1) + 1) (Some (length (heap st))));
      [exact Hst1 | lia | exact Hset]. }
  destruct (stuck_bucket_at g st2 ltac:(lia) Hst2) as (w2 & Hat2).
  rewrite Hat2 in Hsplit. cbn [bind Bucket_GetItems list_] in Hsplit.
  rewrite filter_cons_False in Hsplit.
  - rewrite filter_nil in Hsplit. simpl in Hsplit. injection Hsplit as <-.
    exact Hst2.
  - simpl. intros Hne. apply Hne. change (int_hash 3) with 3.
    apply land_three_pow. lia.
Qed.

Lemma grow_loop_stuck (fuel : nat) (g : Z) (value : Z) (st : IntTable) :
  3 <= g -> stuck g st ->
  (forall f st', (f < fuel)%nat -> stuck g st' ->
     returns (int_insert f 1 value st') = false) ->
  returns (grow_loop int_hash 0 fuel 1 value 1 (2 ^ (g - 1) - 1) (2 ^ (g - 1)) st)
  = false.
Proof.
  intros Hg Hst IH.
  assert (H4 : 4 <= 2 ^ (g - 1)).
  { change 4 with (2 ^ 2). apply Z.pow_le_mono_r; lia. }
  assert (Hdouble : 2 ^ g = 2 * 2 ^ (g - 1)).
  { replace g with (g - 1 + 1) at 1 by lia. rewrite Z.pow_add_r by lia. lia. }
  destruct fuel as [|fuel]; [reflexivity|].
  rewrite grow_loop_S.
  pose proof Hst as (_ & Hs & _).
  replace (2 ^ (g - 1) <? dir_size st) with true by (symmetry; apply Z.ltb_lt; lia).
  rewrite land_pow_mask by lia. change (0 =? 1) with false. cbn iota.
  apply bind_not_returns. intros p _.
  apply bind_not_returns. intros st1 Hset.
  assert (Hst1 : stuck g st1).
  { apply (stuck_dir_set g st st1 (2 ^ (g - 1)) p); [exact Hst | lia | exact Hset]. }
  destruct fuel as [|fuel]; [reflexivity|].
  rewrite grow_loop_S.
  pose proof Hst1 as (_ & Hs1 & _).
  replace (2 ^ (g - 1) + 1 <? dir_size st1) with true
    by (symmetry; apply Z.ltb_lt; lia).
  rewrite land_pow_succ_mask by lia. change (1 =? 1) with true. cbn iota.
  apply bind_not_returns. intros st2 Hsplit.
  apply bind_not_returns. intros st3 Hins.
  assert (Hst2 : stuck g st2) by (apply (split_stuck g st1 st2 Hg Hst1 Hsplit)).
  assert (Hno : returns (int_insert fuel 1 value st2) = false)
    by (apply IH; [lia | exact Hst2]).
  unfold int_insert in Hno. rewrite Hins in Hno. discriminate.
Qed.

Lemma Insert_stuck (fuel : nat) :
  forall (g : Z) (value : Z) (st : IntTable),
    2 <= g -> stuck g st -> returns (int_insert fuel 1 value st) = false.
Proof.
  induction fuel as [fuel IH] using lt_wf_ind.
  intros g value st Hg Hst.
  destruct fuel as [|fuel]; [reflexivity|].
  unfold int_insert. rewrite Insert_S.
  pose proof Hst as (Hgd & Hs & a & w & Hd & Hh).
  apply bind_not_returns. intros bucket_index Hidx.
  unfold IndexOf in Hidx. inv_bind Hidx as m Hm.
  apply shl1_Ret in Hm. destruct Hm as [Hrange ->].
  rewrite Hgd in Hidx, Hrange. change (int_hash 1) with 1 in Hidx.
  rewrite land_one_mask in Hidx by lia. injection Hidx as <-.
  assert (Hat : bucket_at st 1 = Ret (mkBucket 1 g [(3, w)])).
  { apply (bucket_at_references st 1 a); [|exact Hd|exact Hh].
    apply (stuck_in_range g); [lia | exact Hst |].
    pose proof (Z.pow_gt_1 2 g). lia. }
  rewrite Hat. cbn [bind]. change (fst (Bucket_Find _ 1 0)) with false. cbn iota.
  change (negb (Bucket_IsFull (mkBucket 1 g [(3, w)]))) with false. cbn iota.
  unfold GetLocalDepth, GetLocalDepthInternal, GetGlobalDepth, GetGlobalDepthInternal.
  rewrite Hat. cbn [bind Bucket_GetDepth depth_].
  rewrite Hgd, Z.eqb_refl.
  apply bind_not_returns. intros st1 Hupd.
  apply bucket_update_Ret in Hupd.
  destruct Hupd as (a' & b' & _ & Hd' & Hh' & ->).
  change (dir_ st !! 1%nat = Some (Some a')) in Hd'.
  rewrite Hd in Hd'. injection Hd' as <-.
  change (heap st !! a = Some b') in Hh'.
  rewrite Hh in Hh'. injection Hh' as <-.
  apply bind_not_returns. intros n Hn. simpl in Hn.
  apply shl1_Ret in Hn. destruct Hn as [Hrange' ->].
  apply bind_not_returns. intros m Hm.
  apply bind_not_returns. intros m' Hm'.
  cbn [dir_resize set_dir set_heap set_global_depth global_depth_] in Hm, Hm'.
  apply shl1_Ret in Hm. destruct Hm as [_ ->].
  apply shl1_Ret in Hm'. destruct Hm' as [_ ->].
  apply (grow_loop_stuck fuel (g + 1)); [lia | |].
  - split; [reflexivity|]. split.
    + unfold dir_size. rewrite dir_resize_length.
      cbn [set_heap set_global_depth global_depth_].
      rewrite Z2Nat.id; [reflexivity|]. apply Z.pow_nonneg. lia.
    + exists a, w. unfold dir_resize. cbn [dir_ set_dir set_heap set_global_depth heap].
      split.
      * rewrite lookup_app_l.
        -- rewrite lookup_take_lt; [exact Hd|].
           pose proof (Z.pow_gt_1 2 (g + 1)). lia.
        -- rewrite length_take. apply lookup_lt_Some in Hd.
           pose proof (Z.pow_gt_1 2 (g + 1)). lia.
      * apply lookup_lt_Some in Hh as Hlt.
        rewrite list_lookup_insert_eq by exact Hlt. reflexivity.
  - intros f st' Hf Hst'. apply (IH f ltac:(lia) (g + 1)); [lia | exact Hst'].
Qed.

Lemma table_0327_invariants :
  capacity_invariant table_0327 /\ directory_invariant table_0327 /\
  Forall (fun b : @Bucket Z Z => depth_ b <= global_depth_ table_0327)
    (heap table_0327) /\
  Forall (fun b : @Bucket Z Z =>
            Forall (fun kv => int_hash (fst kv) <> int_hash 1) (list_ b))
    (heap table_0327).
Proof.
  split; [|split; [|split]].
  - unfold capacity_invariant, bucket_ok. simpl.
    repeat (apply Forall_cons; split; [simpl; lia|]). apply Forall_nil. exact I.
  - split; [reflexivity|].
    intros i j a b (Hi & Hd & Hh) Hj Hlow.
    apply in_range_iff in Hj. change (dir_size table_0327) with 4 in Hj.
    pose proof (lookup_lt_Some _ _ _ Hd) as Hlt. simpl in Hlt.
    assert (Hcases : i = 0 \/ i = 1 \/ i = 2 \/ i = 3) by lia.
    assert (Hjcases : j = 0 \/ j = 1 \/ j = 2 \/ j = 3) by lia.
    destruct Hcases as [-> | [-> | [-> | ->]]];
      vm_compute in Hd; injection Hd as <-;
      vm_compute in Hh; injection Hh as <-;
      destruct Hjcases as [-> | [-> | [-> | ->]]];
      vm_compute in Hlow; try discriminate; reflexivity.
  - simpl. repeat (apply Forall_cons; split; [simpl; lia|]). apply Forall_nil. exact I.
  - simpl.
    repeat (apply Forall_cons; split;
            [apply Forall_cons; split; [vm_compute; discriminate | apply Forall_nil; exact I]|]).
    apply Forall_nil. exact I.
Qed.

(** C7 on the code.  The table of capacity 1 that a caller builds by the
    inserts of 0, 3, 2 and 7 satisfies the capacity and directory invariants
    and holds no key with the hash of 1; its slot 1 references a full bucket
    that holds key 3 (left there by the split of C6).  [Insert(1, value)]
    addresses that bucket at every retry, no split moves key 3 out of it,
    and the directory doubles at each retry: whatever the fuel, the call
    does not return. *)
Theorem Insert_retry_never_returns :
  int_run 8 [OpInsert 0 0; OpInsert 3 30; OpInsert 2 20; OpInsert 7 70]
    (ExtendibleHashTable 1) = Ret table_0327 /\
  capacity_invariant table_0327 /\ directory_invariant table_0327 /\
  Forall (fun b : @Bucket Z Z =>
            Forall (fun kv => int_hash (fst kv) <> int_hash 1) (list_ b))
    (heap table_0327) /\
  forall fuel value, returns (int_insert fuel 1 value table_0327) = false.
Proof.
  split; [vm_compute; reflexivity|].
  destruct table_0327_invariants as (Hcap & Hdir & _ & Hkeys).
  split; [exact Hcap|]. split; [exact Hdir|]. split; [exact Hkeys|].
  intros fuel value. apply (Insert_stuck fuel 2); [lia|].
  split; [reflexivity|]. split; [reflexivity|].
  exists 1%nat, 30. split; reflexivity.
Qed.

(** *** The theorems at concrete tables *)

Lemma table_0327_reachable : reachable int_hash 0 1 table_0327.
Proof.
  apply (run_ops_reachable int_hash 0 1 8
           [OpInsert 0 0; OpInsert 3 30; OpInsert 2 20; OpInsert 7 70]
           (ExtendibleHashTable 1)).
  - apply reachable_new.
  - vm_compute. reflexivity.
Defined.

Lemma capacity_never_exceeded_witness :
  size_ (mkBucket 1 2 [(3, 30)]) = 1 /\
  Z.of_nat (length (list_ (mkBucket 1 2 [(3, 30)]))) <= 1.
Proof.
  assert (Hpos : 0 <= 1) by lia.
  destruct (capacity_never_exceeded int_hash 0 1 table_0327 Hpos table_0327_reachable)
    as [Hall _].
  apply (Hall 1%nat). reflexivity.
Defined.

Lemma IndexOf_is_low_bits_of_hash_witness :
  IndexOf int_hash table_0327 7 = Ret 3 /\ 3 = int_hash 7 mod 2 ^ 2 /\
  in_range table_0327 3 = true.
Proof.
  assert (Hpos : 0 <= 1) by lia.
  destruct (IndexOf_is_low_bits_of_hash int_hash 0 1 table_0327 7 Hpos
              table_0327_reachable) as (H1 & H2 & H3 & _).
  split; [exact H1|]. split; [exact H2 | exact H3].
Defined.

Lemma GetLocalDepth_unchecked_witness :
  GetLocalDepth table_0327 3 = Ret 2 /\ GetLocalDepth table_0327 4 = Undef.
Proof.
  destruct (GetLocalDepth_unchecked table_0327 3) as [Hin _].
  destruct (GetLocalDepth_unchecked table_0327 4) as [_ Hout].
  split.
  - apply (Hin 3%nat (mkBucket 1 2 [(7, 70)])). repeat split. lia.
  - apply Hout. reflexivity.
Defined.

(** The claim of C9 at the table of capacity 1 just built: index 1 is
    outside the directory of one slot, and the outcome of [GetLocalDepth(1)]
    is the undefined one, not a signalled failure. *)
Lemma GetLocalDepth_out_of_range_not_signalled :
  in_range (ExtendibleHashTable (K:=Z) (V:=Z) 1) 1 = false /\
  GetLocalDepth (ExtendibleHashTable (K:=Z) (V:=Z) 1) 1 = Undef /\
  GetLocalDepth (ExtendibleHashTable (K:=Z) (V:=Z) 1) 1 <> Abort.
Proof.
  split; [reflexivity|]. split; [reflexivity|]. vm_compute. discriminate.
Qed.

Lemma Find_miss_keeps_value_witness :
  Bucket_Find (mkBucket 1 2 [(3, 30)]) 1 77 = (false, 77) /\
  Find int_hash table_0327 1 77 = Ret (false, 77).
Proof.
  assert (Hnot : (1 : Z) ∉ keys (mkBucket 1 2 [(3, 30)])).
  { vm_compute. intros Hx. inversion Hx as [|? ? ? Hy]; subst. inversion Hy. }
  destruct (Find_miss_keeps_value int_hash (mkBucket 1 2 [(3, 30)]) 1 77 Hnot)
    as [Hb Ht].
  split; [exact Hb|]. apply (Ht table_0327 1); reflexivity.
Defined.

(** * Further properties of the member functions *)

(** ** Round trips in one bucket *)

Section BucketRoundTrips.

Context {K V : Type} `{EqDecision K}.
Implicit Types (b : @Bucket K V) (l : list (K * V)) (key : K) (value : V).

Lemma find_entry_app l key value key' value0 :
  find_entry (l ++ [(key, value)]) key' value0 =
  if fst (find_entry l key' value0) then find_entry l key' value0
  else if decide (key = key') then (true, value) else (false, value0).
Proof.
  induction l as [|[k v] l IH]; simpl.
  - reflexivity.
  - destruct (decide (k = key')); [reflexivity | exact IH].
Qed.

Lemma remove_entry_absent l key :
  key ∉ l.*1 -> remove_entry l key = (l, false).
Proof.
  induction l as [|[k v] l IH]; simpl; intros Hnot; [reflexivity|].
  destruct (decide (k = key)) as [->|Hne].
  - exfalso. apply Hnot. left.
  - rewrite IH; [reflexivity|]. intros Hin. apply Hnot. right. exact Hin.
Qed.

Lemma remove_entry_present l key :
  key ∈ l.*1 -> snd (remove_entry l key) = true /\
  S (length (fst (remove_entry l key))) = length l.
Proof.
  induction l as [|[k v] l IH]; simpl; intros Hin; [inversion Hin|].
  destruct (decide (k = key)) as [->|Hne]; [split; reflexivity|].
  assert (Hl : key ∈ l.*1) by (inversion Hin; subst; [congruence | assumption]).
  destruct (IH Hl) as [H1 H2].
  destruct (remove_entry l key) as [r found]. simpl in *. split; [exact H1 | lia].
Qed.

Lemma remove_entry_keys l key k :
  k ∈ (fst (remove_entry l key)).*1 -> k ∈ l.*1.
Proof.
  induction l as [|[k0 v] l IH]; simpl; [intros Hin; exact Hin|].
  destruct (decide (k0 = key)) as [->|Hne]; simpl.
  - intros Hin. right. exact Hin.
  - destruct (remove_entry l key) as [r found]. simpl in *.
    intros Hin. inversion Hin; subst; [left | right; apply IH; assumption].
Qed.

Lemma remove_entry_NoDup l key :
  NoDup l.*1 ->
  NoDup (fst (remove_entry l key)).*1 /\ key ∉ (fst (remove_entry l key)).*1.
Proof.
  induction l as [|[k v] l IH]; simpl; intros Hnd.
  - split; [constructor | intros Hin; inversion Hin].
  - apply NoDup_cons in Hnd. destruct Hnd as [Hk Hnd].
    destruct (decide (k = key)) as [->|Hne]; simpl.
    + split; assumption.
    + destruct (IH Hnd) as [H1 H2].
      pose proof (remove_entry_keys l key k) as Hsub.
      destruct (remove_entry l key) as [r found]. simpl in *. split.
      * apply NoDup_cons. split; [|exact H1]. intros Hin. apply Hk, Hsub, Hin.
      * intros Hin. inversion Hin; subst; [congruence | contradiction].
Qed.

Lemma remove_entry_other l key key' value0 :
  key' <> key ->
  find_entry (fst (remove_entry l key)) key' value0 = find_entry l key' value0.
Proof.
  intros Hne. induction l as [|[k v] l IH]; simpl; [reflexivity|].
  destruct (decide (k = key)) as [->|Hk]; simpl.
  - destruct (decide (key = key')); [congruence | reflexivity].
  - destruct (remove_entry l key) as [r found]. simpl in *.
    destruct (decide (k = key')); [reflexivity | exact IH].
Qed.

(** [Bucket::Insert] then [Bucket::Find].  When [Insert(key, value)] reports
    success, [Find(key)] on the bucket it leaves hits and yields [value], and
    [Find] of every other key gives what it gave before; when it reports
    failure the bucket is the one it was.  The number of entries grows by
    one exactly when the key was absent and the call succeeded. *)
Theorem Bucket_Insert_then_Find b key value :
  (snd (Bucket_Insert b key value) = true ->
     forall value0, Bucket_Find (fst (Bucket_Insert b key value)) key value0
                    = (true, value)) /\
  (forall key' value0, key' <> key ->
     Bucket_Find (fst (Bucket_Insert b key value)) key' value0
     = Bucket_Find b key' value0) /\
  (snd (Bucket_Insert b key value) = false -> fst (Bucket_Insert b key value) = b) /\
  length (list_ (fst (Bucket_Insert b key value))) =
    (if snd (Bucket_Insert b key value) && negb (fst (Bucket_Find b key value))
     then S (length (list_ b)) else length (list_ b)).
Proof.
  unfold Bucket_Insert, Bucket_Find.
  destruct (Bucket_IsFull b); simpl.
  { split; [discriminate|]. repeat split. }
  destruct (update_entry (list_ b) key value) as [l|] eqn:Hu; simpl.
  - pose proof Hu as Hsome. apply update_entry_Some in Hsome.
    destruct Hsome as (Hlen & Hkeys & Hfind & Hother).
    split; [intros _; exact Hfind|]. split; [exact Hother|].
    split; [discriminate|].
    assert (Hin : key ∈ (list_ b).*1).
    { destruct (decide (key ∈ (list_ b).*1)) as [Hin|Hnot]; [exact Hin|].
      apply (update_entry_None _ _ value) in Hnot. congruence. }
    rewrite (find_entry_hit _ _ value Hin). simpl. exact Hlen.
  - apply update_entry_None in Hu.
    split; [|split; [|split; [discriminate|]]].
    + intros _ value0. rewrite find_entry_app.
      rewrite (find_entry_miss _ _ value0 Hu). simpl.
      destruct (decide (key = key)); [reflexivity | congruence].
    + intros key' value0 Hne. rewrite find_entry_app.
      destruct (find_entry (list_ b) key' value0) as [[|] x] eqn:Hf; simpl.
      * reflexivity.
      * destruct (decide (key = key')); [congruence|].
        pose proof (find_entry_false (list_ b) key' value0) as Hmiss.
        rewrite Hf in Hmiss. specialize (Hmiss eq_refl).
        rewrite (find_entry_miss _ _ value0 Hmiss) in Hf. exact Hf.
    + rewrite (find_entry_miss _ _ value Hu). simpl.
      rewrite length_app. simpl. lia.
Qed.

(** [Bucket::Remove] then [Bucket::Find], in a bucket whose keys are
    distinct.  [Remove(key)] reports whether the key was there, leaves
    capacity and depth alone, and removes one entry when it reports true and
    none when it reports false; afterwards [Find(key)] misses and [Find] of
    every other key gives what it gave before. *)
Theorem Bucket_Remove_then_Find b key value0 :
  NoDup (keys b) ->
  snd (Bucket_Remove b key) = fst (Bucket_Find b key value0) /\
  Bucket_Find (fst (Bucket_Remove b key)) key value0 = (false, value0) /\
  (forall key', key' <> key ->
     Bucket_Find (fst (Bucket_Remove b key)) key' value0
     = Bucket_Find b key' value0) /\
  size_ (fst (Bucket_Remove b key)) = size_ b /\
  depth_ (fst (Bucket_Remove b key)) = depth_ b /\
  NoDup (keys (fst (Bucket_Remove b key))) /\
  (snd (Bucket_Remove b key) = false -> list_ (fst (Bucket_Remove b key)) = list_ b) /\
  (snd (Bucket_Remove b key) = true ->
     S (length (list_ (fst (Bucket_Remove b key)))) = length (list_ b)).
Proof.
  unfold Bucket_Remove, Bucket_Find, keys. intros Hnd.
  destruct (remove_entry_NoDup _ key Hnd) as [Hnd' Hgone].
  pose proof (fun k' Hk => remove_entry_other (list_ b) key k' value0 Hk) as Hother.
  destruct (decide (key ∈ (list_ b).*1)) as [Hin|Hnot].
  - destruct (remove_entry_present _ _ Hin) as [Hfound Hlen].
    rewrite (find_entry_hit _ _ value0 Hin).
    destruct (remove_entry (list_ b) key) as [r found]. simpl in *.
    subst found. repeat split; try assumption; try discriminate.
    + apply find_entry_miss. exact Hgone.
    + intros _. exact Hlen.
  - rewrite (find_entry_miss _ _ value0 Hnot).
    rewrite (remove_entry_absent _ _ Hnot) in *. simpl in *.
    repeat split; try assumption; try discriminate.
    apply find_entry_miss. exact Hnot.
Qed.

End BucketRoundTrips.

Lemma Bucket_Insert_then_Find_witness :
  Bucket_Find (fst (Bucket_Insert (mkBucket 2 0 [(1, 10)]) 2 20)) 2 0 = (true, 20) /\
  Bucket_Find (fst (Bucket_Insert (mkBucket 2 0 [(1, 10)]) 2 20)) 1 0 = (true, 10) /\
  fst (Bucket_Insert (mkBucket 1 0 [(1, 10)]) 2 20) = mkBucket 1 0 [(1, 10)].
Proof.
  destruct (Bucket_Insert_then_Find (mkBucket 2 0 [(1, 10)]) 2 20) as (H1 & H2 & _).
  destruct (Bucket_Insert_then_Find (mkBucket 1 0 [(1, 10)]) 2 20) as (_ & _ & H3 & _).
  split; [apply H1; reflexivity|]. split; [apply H2; lia | apply H3; reflexivity].
Defined.

Lemma Bucket_Remove_then_Find_witness :
  Bucket_Find (fst (Bucket_Remove (mkBucket 2 0 [(1, 10); (2, 20)]) 1)) 1 0 = (false, 0) /\
  snd (Bucket_Remove (mkBucket 2 0 [(1, 10); (2, 20)]) 1) = true.
Proof.
  assert (Hnd : NoDup (keys (mkBucket 2 0 [(1, 10); (2, 20)]))).
  { vm_compute. apply NoDup_cons. split.
    - intros Hx. inversion Hx as [|? ? ? Hy]; subst. inversion Hy.
    - apply NoDup_cons. split; [intros Hx; inversion Hx | apply NoDup_nil; exact I]. }
  destruct (Bucket_Remove_then_Find (mkBucket 2 0 [(1, 10); (2, 20)]) 1 0 Hnd)
    as (H1 & H2 & _).
  split; [exact H2 | exact H1].
Defined.

(** ** What the statements of [Insert] keep of the buckets *)

Section Frames.

Context {K V : Type} `{EqDecision K}.
Variable hash : K -> Z.
Variable temp_value : V.
Implicit Types (st : @Table K V) (b : @Bucket K V) (p : option nat).

(** A property of buckets that [Bucket::Insert] and [Bucket::Remove] keep
    and that the sibling made from a bucket that has it has too. *)
Variable P : @Bucket K V -> Prop.
Hypothesis P_Insert : forall b key value, P b -> P (fst (Bucket_Insert b key value)).
Hypothesis P_Remove : forall b key, P b -> P (fst (Bucket_Remove b key)).
Hypothesis P_new : forall b n, P b -> P (Bucket_new n (depth_ b)).

Lemma store_frame st p b st' :
  store st p b = Ret st' ->
  keeps st st' /\ dir_ st' = dir_ st /\
  (Forall P (heap st) -> P b -> Forall P (heap st')).
Proof.
  intros Hs. apply store_Ret in Hs. destruct Hs as (a & -> & Hlt & ->).
  split; [apply keeps_set_heap|]. split; [reflexivity|].
  intros Hall Hb. simpl. apply Forall_insert; assumption.
Qed.

Lemma bucket_update_frame st i f st' :
  bucket_update st i f = Ret st' ->
  keeps st st' /\ dir_ st' = dir_ st /\
  (Forall P (heap st) -> (forall b, bucket_at st i = Ret b -> P b -> P (f b)) ->
   Forall P (heap st')).
Proof.
  intros Hu. apply bucket_update_Ret in Hu.
  destruct Hu as (a & b & Hr & Hd & Hh & ->).
  split; [apply keeps_set_heap|]. split; [reflexivity|].
  intros Hall Hf. simpl. apply Forall_insert; [exact Hall|].
  apply Hf; [apply (bucket_at_references st i a b Hr Hd Hh)|].
  rewrite Forall_lookup in Hall. apply (Hall a b Hh).
Qed.

Lemma dir_set_frame st i p st' :
  dir_set st i p = Ret st' -> keeps st st' /\ heap st' = heap st.
Proof.
  intros Hs. apply dir_set_Ret in Hs. destruct Hs as (_ & ->).
  split; [|reflexivity]. repeat split. simpl. apply length_insert.
Qed.

Lemma distribute_frame pairs src p st st' :
  distribute pairs src p st = Ret st' ->
  keeps st st' /\ dir_ st' = dir_ st /\ (Forall P (heap st) -> Forall P (heap st')).
Proof.
  revert st. induction pairs as [|[k v] rest IH]; simpl; intros st Hd.
  - injection Hd as <-. split; [apply keeps_refl|]. split; [reflexivity|]. auto.
  - inv_bind Hd as d Hderef. inv_bind Hd as st1 Hstore. inv_bind Hd as st2 Hupd.
    apply deref_Ret in Hderef. destruct Hderef as (a & -> & Hh).
    destruct (store_frame _ _ _ _ Hstore) as (K1 & D1 & F1).
    destruct (bucket_update_frame _ _ _ _ Hupd) as (K2 & D2 & F2).
    destruct (IH _ Hd) as (K3 & D3 & F3).
    split; [eapply keeps_trans; [eapply keeps_trans|]; eassumption|].
    split; [congruence|].
    intros Hall. apply F3, F2.
    + apply F1; [exact Hall|]. apply P_Insert.
      rewrite Forall_lookup in Hall. apply (Hall a d Hh).
    + intros b _ Hb. apply P_Remove. exact Hb.
Qed.

Lemma RedistributeBucket_frame st src p index st' :
  RedistributeBucket hash st src p index = Ret st' ->
  keeps st st' /\ (Forall P (heap st) -> Forall P (heap st')).
Proof.
  unfold RedistributeBucket. intros Hr.
  inv_bind Hr as s Hs. inv_bind Hr as mask Hmask. inv_bind Hr as st1 Hset.
  inv_bind Hr as s' Hs'.
  destruct (dir_set_frame _ _ _ _ Hset) as (K1 & H1).
  destruct (distribute_frame _ _ _ _ _ Hr) as (K2 & _ & F2).
  split; [eapply keeps_trans; eassumption|].
  intros Hall. apply F2. rewrite H1. exact Hall.
Qed.

Lemma split_frame st bucket_index st' :
  split hash st bucket_index = Ret st' ->
  keeps st st' /\ (Forall P (heap st) -> Forall P (heap st')).
Proof.
  unfold split. intros Hs. inv_bind Hs as b Hb.
  unfold make_shared in Hs.
  destruct (RedistributeBucket_frame _ _ _ _ _ Hs) as (K1 & F1).
  split.
  - eapply keeps_trans; [apply keeps_set_heap | exact K1].
  - intros Hall. apply F1. simpl. apply Forall_app. split; [exact Hall|].
    apply Forall_singleton. apply P_new.
    apply bucket_at_Ret in Hb. destruct Hb as (a & _ & _ & Hh).
    rewrite Forall_lookup in Hall. apply (Hall a b Hh).
Qed.

End Frames.

(** ** Distinct keys, bounded local depth, growth only *)

Section WellFormed.

Context {K V : Type} `{EqDecision K}.
Variable hash : K -> Z.
Variable temp_value : V.
Implicit Types (st : @Table K V) (b : @Bucket K V) (p : option nat).

Lemma bucket_wf_Insert g b key value :
  bucket_wf g b -> bucket_wf g (fst (Bucket_Insert b key value)).
Proof.
  intros [Hnd Hd]. unfold Bucket_Insert.
  destruct (Bucket_IsFull b); [split; assumption|].
  destruct (update_entry (list_ b) key value) as [l|] eqn:Hu; simpl.
  - apply update_entry_Some in Hu. destruct Hu as (_ & Hk & _).
    split; [|exact Hd]. unfold keys in *. simpl. rewrite Hk. exact Hnd.
  - apply update_entry_None in Hu. split; [|exact Hd].
    unfold keys in *. simpl. rewrite fmap_app. apply NoDup_app.
    split; [exact Hnd|]. split.
    + intros x Hx Hin. simpl in Hin. apply list_elem_of_singleton in Hin.
      subst x. contradiction.
    + apply NoDup_singleton.
Qed.

Lemma bucket_wf_Remove g b key :
  bucket_wf g b -> bucket_wf g (fst (Bucket_Remove b key)).
Proof.
  intros [Hnd Hd]. unfold Bucket_Remove, keys in *.
  destruct (remove_entry_NoDup _ key Hnd) as [Hnd' _].
  destruct (remove_entry (list_ b) key) as [r found]. simpl in *.
  split; assumption.
Qed.

Lemma bucket_wf_new g b n :
  bucket_wf g b -> bucket_wf g (@Bucket_new K V n (depth_ b)).
Proof.
  intros [_ Hd]. split; [apply NoDup_nil; exact I | exact Hd].
Qed.

Lemma bucket_wf_mono g g' b : g <= g' -> bucket_wf g b -> bucket_wf g' b.
Proof. intros Hle [Hnd Hd]. split; [exact Hnd | lia]. Qed.

Lemma buckets_wf_keeps st st' :
  keeps st st' -> Forall (bucket_wf (global_depth_ st)) (heap st') -> buckets_wf st'.
Proof.
  intros (K1 & _) Hall. unfold buckets_wf. rewrite K1. exact Hall.
Qed.

Lemma Insert_grow_loop_wf fuel :
  (forall key value st st',
     Insert hash temp_value fuel key value st = Ret st' ->
     global_depth_ st <= global_depth_ st' /\ (buckets_wf st -> buckets_wf st')) /\
  (forall key value bucket_index mask i st st',
     grow_loop hash temp_value fuel key value bucket_index mask i st = Ret st' ->
     global_depth_ st <= global_depth_ st' /\ (buckets_wf st -> buckets_wf st')).
Proof.
  induction fuel as [|fuel [IHins IHloop]]; [split; intros; discriminate|].
  split.
  - intros key value st st' Hi. rewrite Insert_S in Hi.
    inv_bind Hi as bucket_index Hidx. inv_bind Hi as b Hb.
    destruct (fst (Bucket_Find b key temp_value)).
    { injection Hi as <-. split; [lia | auto]. }
    inv_bind Hi as b' Hb'.
    destruct (negb (Bucket_IsFull b')).
    { destruct (bucket_update_frame (bucket_wf (global_depth_ st)) _ _ _ _ Hi)
        as (Hk & _ & Hf).
      split; [destruct Hk as (-> & _); lia|].
      intros Hwf. apply (buckets_wf_keeps _ _ Hk). apply Hf; [exact Hwf|].
      intros x _ Hx. apply bucket_wf_Insert. exact Hx. }
    inv_bind Hi as local_depth Hld.
    unfold GetLocalDepth, GetLocalDepthInternal in Hld.
    inv_bind Hld as b0 Hb0. injection Hld as <-.
    unfold GetGlobalDepth, GetGlobalDepthInternal in Hi.
    destruct (Bucket_GetDepth b0 =? global_depth_ st) eqn:Hdepth.
    + inv_bind Hi as st1 Hupd. inv_bind Hi as n Hn.
      inv_bind Hi as m Hm. inv_bind Hi as m' Hm'.
      destruct (bucket_update_frame (bucket_wf (global_depth_ st + 1)) _ _ _ _ Hupd)
        as (Hk & _ & Hf).
      apply IHloop in Hi. destruct Hi as [Hle Hwf'].
      assert (Hgd : global_depth_ (dir_resize st1 n) = global_depth_ st + 1)
        by (destruct Hk as (Hg & _); exact Hg).
      split; [lia|]. intros Hwf. apply Hwf'.
      unfold buckets_wf. rewrite Hgd. simpl. apply Hf.
      * simpl. eapply Forall_impl; [exact Hwf|].
        intros x Hx. apply (bucket_wf_mono (global_depth_ st)); [lia | exact Hx].
      * intros x Hx [Hnd Hd].
        change (bucket_at st bucket_index = Ret x) in Hx.
        rewrite Hb0 in Hx. injection Hx as <-.
        apply Z.eqb_eq in Hdepth. unfold Bucket_GetDepth in Hdepth.
        split; [exact Hnd | simpl; lia].
    + inv_bind Hi as st1 Hupd. inv_bind Hi as st2 Hsplit.
      apply Z.eqb_neq in Hdepth.
      destruct (bucket_update_frame (bucket_wf (global_depth_ st)) _ _ _ _ Hupd)
        as (Hk1 & _ & Hf1).
      destruct (split_frame hash (bucket_wf (global_depth_ st))
                  (bucket_wf_Insert _) (bucket_wf_Remove _) (bucket_wf_new _)
                  _ _ _ Hsplit) as (Hk2 & Hf2).
      pose proof (keeps_trans _ _ _ Hk1 Hk2) as Hk.
      apply IHins in Hi. destruct Hi as [Hle Hwf'].
      split; [destruct Hk as (Hg & _); lia|].
      intros Hwf. apply Hwf'. apply (buckets_wf_keeps _ _ Hk).
      apply Hf2, Hf1; [exact Hwf|].
      intros x Hx [Hnd Hd]. rewrite Hb0 in Hx. injection Hx as <-.
      unfold Bucket_GetDepth in Hdepth. split; [exact Hnd | simpl; lia].
  - intros key value bucket_index mask i st st' Hl. rewrite grow_loop_S in Hl.
    destruct (i <? dir_size st).
    2:{ injection Hl as <-. split; [lia | auto]. }
    destruct (Z.land i mask =? bucket_index).
    + inv_bind Hl as st1 Hsplit. inv_bind Hl as st2 Hins.
      destruct (split_frame hash (bucket_wf (global_depth_ st))
                  (bucket_wf_Insert _) (bucket_wf_Remove _) (bucket_wf_new _)
                  _ _ _ Hsplit) as (Hk1 & Hf1).
      apply IHins in Hins. destruct Hins as [Hle2 Hwf2].
      apply IHloop in Hl. destruct Hl as [Hle3 Hwf3].
      split; [destruct Hk1 as (Hg & _); lia|].
      intros Hwf. apply Hwf3, Hwf2. apply (buckets_wf_keeps _ _ Hk1).
      apply Hf1. exact Hwf.
    + inv_bind Hl as p Hp. inv_bind Hl as st1 Hset.
      destruct (dir_set_frame _ _ _ _ Hset) as (Hk1 & Hh1).
      apply IHloop in Hl. destruct Hl as [Hle Hwf'].
      split; [destruct Hk1 as (Hg & _); lia|].
      intros Hwf. apply Hwf'. apply (buckets_wf_keeps _ _ Hk1).
      rewrite Hh1. exact Hwf.
Qed.

Lemma Remove_frame st key st' found :
  Remove hash st key = Ret (st', found) ->
  keeps st st' /\ dir_ st' = dir_ st /\ length (heap st') = length (heap st) /\
  (buckets_wf st -> buckets_wf st').
Proof.
  intros Hr. unfold Remove in Hr.
  inv_bind Hr as bucket_index Hidx. inv_bind Hr as p Hp. inv_bind Hr as b Hb.
  apply deref_Ret in Hb. destruct Hb as (a & -> & Hh).
  pose proof (bucket_wf_Remove (global_depth_ st) b key) as Hwfb.
  destruct (Bucket_Remove b key) as [b' f]. simpl in Hwfb.
  inv_bind Hr as st1 Hstore. injection Hr as <- <-.
  destruct (store_frame (bucket_wf (global_depth_ st)) _ _ _ _ Hstore)
    as (Hk & Hd & Hf).
  split; [exact Hk|]. split; [exact Hd|]. split.
  - apply store_Ret in Hstore. destruct Hstore as (x & _ & _ & ->).
    simpl. apply length_insert.
  - intros Hwf. apply (buckets_wf_keeps _ _ Hk). apply Hf; [exact Hwf|].
    apply Hwfb. unfold buckets_wf in Hwf. rewrite Forall_lookup in Hwf.
    apply (Hwf a b Hh).
Qed.

Lemma step_wf fuel st o st' :
  step hash temp_value fuel st o = Ret st' ->
  global_depth_ st <= global_depth_ st' /\ (buckets_wf st -> buckets_wf st').
Proof.
  intros Hs. destruct o as [key|key value|key]; simpl in Hs.
  - inv_bind Hs as r Hr. injection Hs as <-. split; [lia | auto].
  - destruct (Insert_grow_loop_wf fuel) as [Hins _]. apply (Hins _ _ _ _ Hs).
  - inv_bind Hs as r Hr. injection Hs as <-. destruct r as [st1 found].
    destruct (Remove_frame _ _ _ _ Hr) as ((Hg & _) & _ & _ & Hwf).
    simpl. split; [lia | exact Hwf].
Qed.

Lemma reachable_wf bucket_size st :
  reachable hash temp_value bucket_size st -> buckets_wf st.
Proof.
  intros Hreach. induction Hreach as [|fuel st o st' _ IH Hstep].
  - unfold buckets_wf. simpl. apply Forall_singleton.
    split; [apply NoDup_nil; exact I | simpl; lia].
  - destruct (step_wf _ _ _ _ Hstep) as [_ Hwf]. apply Hwf, IH.
Qed.

End WellFormed.

Section TableExtras.

Context {K V : Type} `{EqDecision K}.
Variable hash : K -> Z.
Variable temp_value : V.
Implicit Types (st : @Table K V) (b : @Bucket K V) (key : K) (value : V).

(** In a table built by the constructor and any sequence of completed
    operations, no bucket object holds two entries with the same key. *)
Theorem keys_distinct_in_every_bucket bucket_size st (a : nat) b :
  reachable hash temp_value bucket_size st -> heap st !! a = Some b ->
  NoDup (keys b).
Proof.
  intros Hreach Hh. pose proof (reachable_wf hash temp_value _ _ Hreach) as Hwf.
  unfold buckets_wf in Hwf. rewrite Forall_lookup in Hwf.
  destruct (Hwf a b Hh) as [Hnd _]. exact Hnd.
Qed.

(** In a table built by the constructor and any sequence of completed
    operations, whenever [GetLocalDepth(dir_index)] returns, its result is
    between 0 and [GetGlobalDepth()]. *)
Theorem local_depth_at_most_global_depth bucket_size st (dir_index d : Z) :
  reachable hash temp_value bucket_size st ->
  GetLocalDepth st dir_index = Ret d ->
  0 <= d <= GetGlobalDepth st.
Proof.
  intros Hreach Hd. pose proof (reachable_wf hash temp_value _ _ Hreach) as Hwf.
  unfold GetLocalDepth, GetLocalDepthInternal in Hd. inv_bind Hd as b Hb.
  injection Hd as <-. apply bucket_at_Ret in Hb. destruct Hb as (a & _ & _ & Hh).
  unfold buckets_wf in Hwf. rewrite Forall_lookup in Hwf.
  destruct (Hwf a b Hh) as [_ Hdepth]. exact Hdepth.
Qed.

(** The directory only grows.  An operation that completes in a reachable
    state leaves a global depth and a directory length at least those it
    found, and the directory has [2 ^ global_depth_] slots afterwards. *)
Theorem directory_only_grows bucket_size fuel st o st' :
  0 <= bucket_size -> reachable hash temp_value bucket_size st ->
  step hash temp_value fuel st o = Ret st' ->
  GetGlobalDepth st <= GetGlobalDepth st' /\
  dir_size st <= dir_size st' /\
  dir_size st' = 2 ^ GetGlobalDepth st'.
Proof.
  intros Hb Hreach Hstep.
  destruct (step_wf hash temp_value _ _ _ _ Hstep) as [Hle _].
  destruct (reachable_inv hash temp_value _ _ Hb Hreach) as (_ & [Hd Hs] & _).
  assert (Hreach' : reachable hash temp_value bucket_size st')
    by (apply (reachable_step _ _ _ fuel st o st' Hreach Hstep)).
  destruct (reachable_inv hash temp_value _ _ Hb Hreach') as (_ & [Hd' Hs'] & _).
  unfold GetGlobalDepth, GetGlobalDepthInternal.
  split; [exact Hle|]. split; [|exact Hs'].
  rewrite Hs, Hs'. apply Z.pow_le_mono_r; lia.
Qed.

Lemma bucket_at_updated st (i : Z) (a : nat) b' :
  in_range st i = true -> dir_ st !! Z.to_nat i = Some (Some a) ->
  (a < length (heap st))%nat ->
  bucket_at (set_heap st (<[a := b']> (heap st))) i = Ret b'.
Proof.
  intros Hr Hd Hlt. apply (bucket_at_references _ i a); [exact Hr | exact Hd|].
  simpl. apply list_lookup_insert_eq. exact Hlt.
Qed.

Lemma bucket_at_not_updated st (i : Z) (a : nat) b' :
  dir_ st !! Z.to_nat i <> Some (Some a) ->
  bucket_at (set_heap st (<[a := b']> (heap st))) i = bucket_at st i.
Proof.
  intros Hd. unfold bucket_at, dir_get.
  change (in_range (set_heap st (<[a := b']> (heap st))) i) with (in_range st i).
  destruct (in_range st i); [|reflexivity]. simpl.
  destruct (dir_ st !! Z.to_nat i) as [[a'|]|] eqn:E; simpl; try reflexivity.
  rewrite list_lookup_insert_ne; [reflexivity|]. congruence.
Qed.

Lemma Find_after_bucket_change st (a : nat) b b' key value0 :
  heap st !! a = Some b ->
  Bucket_Find b' key value0 = Bucket_Find b key value0 ->
  Find hash (set_heap st (<[a := b']> (heap st))) key value0 = Find hash st key value0.
Proof.
  intros Hh Hsame. unfold Find.
  change (IndexOf hash (set_heap st (<[a := b']> (heap st))) key)
    with (IndexOf hash st key).
  destruct (IndexOf hash st key) as [idx| | |]; simpl; try reflexivity.
  destruct (decide (dir_ st !! Z.to_nat idx = Some (Some a))) as [Hd|Hd].
  - destruct (in_range st idx) eqn:Hr.
    + rewrite (bucket_at_updated st idx a b' Hr Hd (lookup_lt_Some _ _ _ Hh)).
      rewrite (bucket_at_references st idx a b Hr Hd Hh). simpl.
      rewrite Hsame. reflexivity.
    + unfold bucket_at, dir_get.
      change (in_range (set_heap st (<[a := b']> (heap st))) idx)
        with (in_range st idx).
      rewrite Hr. reflexivity.
  - rewrite (bucket_at_not_updated st idx a b' Hd). reflexivity.
Qed.

Lemma Insert_with_room_eq st key value (idx : Z) b fuel :
  IndexOf hash st key = Ret idx -> bucket_at st idx = Ret b ->
  key ∉ keys b -> Bucket_IsFull b = false ->
  Insert hash temp_value (S fuel) key value st =
  bucket_update st idx (fun b => fst (Bucket_Insert b key value)).
Proof.
  intros Hidx Hat Hnot Hfull.
  rewrite Insert_S, Hidx. cbn [bind]. rewrite Hat. cbn [bind].
  unfold Bucket_Find at 1. rewrite (find_entry_miss _ _ temp_value Hnot).
  cbn [fst]. rewrite Hfull. reflexivity.
Qed.

(** [Insert] then [Find], when the bucket the key addresses has room and
    does not hold the key: [Insert] returns, [Find] of the key then yields
    the value, [Find] of every other key gives what it gave before, and the
    global depth and the directory are not changed. *)
Theorem Insert_with_room_then_Find st key value (idx : Z) b fuel :
  IndexOf hash st key = Ret idx -> bucket_at st idx = Ret b ->
  key ∉ keys b -> Bucket_IsFull b = false ->
  exists st',
    Insert hash temp_value (S fuel) key value st = Ret st' /\
    (forall value0, Find hash st' key value0 = Ret (true, value)) /\
    (forall key' value0, key' <> key ->
       Find hash st' key' value0 = Find hash st key' value0) /\
    global_depth_ st' = global_depth_ st /\ dir_ st' = dir_ st.
Proof.
  intros Hidx Hat Hnot Hfull.
  pose proof Hat as Hat'. apply bucket_at_Ret in Hat'.
  destruct Hat' as (a & Hr & Hd & Hh).
  exists (set_heap st (<[a := fst (Bucket_Insert b key value)]> (heap st))).
  destruct (Bucket_Insert_then_Find b key value) as (Hhit & Hother & _).
  assert (Hok : snd (Bucket_Insert b key value) = true).
  { unfold Bucket_Insert. rewrite Hfull.
    destruct (update_entry (list_ b) key value); reflexivity. }
  split; [|split; [|split; [|split; reflexivity]]].
  - rewrite Insert_S, Hidx. cbn [bind]. rewrite Hat. cbn [bind].
    unfold Bucket_Find at 1. rewrite (find_entry_miss _ _ temp_value Hnot).
    cbn [fst]. rewrite Hfull. cbn [negb].
    exact (bucket_update_references st idx a b
             (fun b => fst (Bucket_Insert b key value)) Hr Hd Hh).
  - intros value0. unfold Find.
    change (IndexOf hash (set_heap st _) key) with (IndexOf hash st key).
    rewrite Hidx. simpl.
    rewrite (bucket_at_updated st idx a _ Hr Hd (lookup_lt_Some _ _ _ Hh)). simpl.
    rewrite (Hhit Hok). reflexivity.
  - intros key' value0 Hne. apply (Find_after_bucket_change st a b); [exact Hh|].
    apply Hother. exact Hne.
Qed.

(** [Remove] then [Find], in a reachable state.  When [Remove(key)]
    returns, its flag is the one [Find(key)] gave before, [Find(key)] misses
    afterwards and leaves the out parameter alone, [Find] of every other key
    gives what it gave before, and nothing shrinks: the global depth, the
    directory and the number of bucket objects are those before the call.
    When the flag is false the table is the one before the call. *)
Theorem Remove_then_Find bucket_size st key st' found :
  reachable hash temp_value bucket_size st ->
  Remove hash st key = Ret (st', found) ->
  (forall value0, exists v, Find hash st key value0 = Ret (found, v)) /\
  (forall value0, Find hash st' key value0 = Ret (false, value0)) /\
  (forall key' value0, key' <> key ->
     Find hash st' key' value0 = Find hash st key' value0) /\
  global_depth_ st' = global_depth_ st /\ dir_ st' = dir_ st /\
  length (heap st') = length (heap st) /\
  (found = false -> st' = st).
Proof.
  intros Hreach Hrem.
  destruct (Remove_frame hash _ _ _ _ Hrem) as ((Hg & _) & Hdir & Hlen & _).
  unfold Remove in Hrem.
  inv_bind Hrem as idx Hidx. inv_bind Hrem as p Hp. inv_bind Hrem as b Hb.
  apply dir_get_Ret in Hp. destruct Hp as [Hr Hd].
  apply deref_Ret in Hb. destruct Hb as (a & -> & Hh).
  pose proof (keys_distinct_in_every_bucket _ _ _ _ Hreach Hh) as Hnd.
  destruct (Bucket_Remove b key) as [b' f] eqn:Hbr.
  inv_bind Hrem as st1 Hstore. injection Hrem as <- <-.
  apply store_Ret in Hstore. destruct Hstore as (x & [= <-] & Hlt & ->).
  assert (Hb' : b' = fst (Bucket_Remove b key)) by (rewrite Hbr; reflexivity).
  assert (Hf : f = snd (Bucket_Remove b key)) by (rewrite Hbr; reflexivity).
  split; [|split; [|split; [|split; [|split; [|split]]]]].
  - intros value0. unfold Find. rewrite Hidx. cbn [bind].
    rewrite (bucket_at_references st idx a b Hr Hd Hh). cbn [bind].
    destruct (Bucket_Remove_then_Find b key value0 Hnd) as (Hflag & _).
    exists (snd (Bucket_Find b key value0)). rewrite Hf, Hflag.
    destruct (Bucket_Find b key value0); reflexivity.
  - intros value0. unfold Find.
    change (IndexOf hash (set_heap st _) key) with (IndexOf hash st key).
    rewrite Hidx. cbn [bind].
    rewrite (bucket_at_updated st idx a b' Hr Hd Hlt). cbn [bind].
    destruct (Bucket_Remove_then_Find b key value0 Hnd) as (_ & Hmiss & _).
    rewrite Hb', Hmiss. reflexivity.
  - intros key' value0 Hne. apply (Find_after_bucket_change st a b); [exact Hh|].
    destruct (Bucket_Remove_then_Find b key value0 Hnd) as (_ & _ & Hother & _).
    rewrite Hb'. apply Hother. exact Hne.
  - exact Hg.
  - exact Hdir.
  - exact Hlen.
  - intros ->.
    destruct (Bucket_Remove_then_Find b key temp_value Hnd)
      as (_ & _ & _ & Hsz & Hdp & _ & Hsame & _).
    rewrite <- Hf in Hsame. rewrite <- Hb' in Hsame, Hsz, Hdp.
    specialize (Hsame eq_refl).
    assert (Heq : b' = b).
    { destruct b', b. simpl in *. congruence. }
    rewrite Heq, list_insert_id by exact Hh. destruct st. reflexivity.
Qed.

(** The table the constructor builds is empty: whatever the capacity, it has
    global depth 0, one slot whose bucket has local depth 0, every [Find]
    misses and leaves the out parameter alone, and every [Remove] reports
    false and changes nothing. *)
Theorem new_table_is_empty (bucket_size : Z) key value :
  GetGlobalDepth (@ExtendibleHashTable K V bucket_size) = 0 /\
  dir_size (@ExtendibleHashTable K V bucket_size) = 1 /\
  GetLocalDepth (@ExtendibleHashTable K V bucket_size) 0 = Ret 0 /\
  IndexOf hash (@ExtendibleHashTable K V bucket_size) key = Ret 0 /\
  Find hash (ExtendibleHashTable bucket_size) key value = Ret (false, value) /\
  Remove hash (@ExtendibleHashTable K V bucket_size) key
    = Ret (ExtendibleHashTable bucket_size, false).
Proof.
  assert (Hidx : IndexOf hash (@ExtendibleHashTable K V bucket_size) key = Ret 0).
  { unfold IndexOf. simpl. rewrite Z.land_0_r. reflexivity. }
  repeat split; try exact Hidx.
  - unfold Find. rewrite Hidx. reflexivity.
  - unfold Remove. rewrite Hidx. reflexivity.
Qed.

End TableExtras.

(** ** The split that moves the entries *)

Section SplitMoves.

Context {K V : Type} `{EqDecision K}.
Variable hash : K -> Z.
Implicit Types (st : @Table K V) (b : @Bucket K V) (l pairs : list (K * V)).

Lemma remove_keys_cons_other (k : K) (v : V) l pairs :
  k ∉ pairs.*1 -> remove_keys ((k, v) :: l) pairs = (k, v) :: remove_keys l pairs.
Proof.
  revert l. induction pairs as [|[k' v'] rest IH]; intros l Hnot; [reflexivity|].
  assert (Hne : k <> k') by (intros ->; apply Hnot; left).
  assert (Hrest : k ∉ rest.*1) by (intros Hin; apply Hnot; right; exact Hin).
  simpl. destruct (decide (k = k')); [contradiction|].
  destruct (remove_entry l k') as [r found]. simpl. apply IH. exact Hrest.
Qed.

Lemma remove_keys_filter (P Q : K * V -> Prop)
    `{forall x, Decision (P x)} `{forall x, Decision (Q x)} l :
  (forall x, Q x <-> ~ P x) -> NoDup l.*1 ->
  remove_keys l (filter P l) = filter Q l.
Proof.
  intros HPQ. induction l as [|[k v] l IH]; intros Hnd; [reflexivity|].
  apply NoDup_cons in Hnd. destruct Hnd as [Hk Hnd].
  destruct (decide (P (k, v))) as [HP|HP].
  - rewrite (filter_cons_True P) by exact HP.
    rewrite (filter_cons_False Q) by (rewrite HPQ; tauto).
    simpl. destruct (decide (k = k)); [|congruence]. simpl. apply IH. exact Hnd.
  - rewrite (filter_cons_False P) by exact HP.
    rewrite (filter_cons_True Q) by (rewrite HPQ; exact HP).
    rewrite remove_keys_cons_other; [rewrite IH by exact Hnd; reflexivity|].
    intros Hin. apply Hk.
    apply (elem_of_sublist _ _ _ Hin). apply fmap_sublist. apply sublist_filter.
Qed.

Section Distribute.

Variables (src : Z) (a q : nat) (s d cap d' : Z).

Lemma distribute_moves pairs :
  forall st src_list dst_list,
    in_range st src = true -> dir_ st !! Z.to_nat src = Some (Some a) ->
    heap st !! a = Some (mkBucket s d src_list) ->
    heap st !! q = Some (mkBucket cap d' dst_list) -> a <> q ->
    NoDup pairs.*1 -> (forall k, k ∈ pairs.*1 -> k ∉ dst_list.*1) ->
    Z.of_nat (length dst_list + length pairs) <= cap ->
    distribute pairs src (Some q) st =
    Ret (set_heap st (<[q := mkBucket cap d' (dst_list ++ pairs)]>
                        (<[a := mkBucket s d (remove_keys src_list pairs)]> (heap st)))).
Proof.
  induction pairs as [|[k v] rest IH];
    intros st src_list dst_list Hr Hd Ha Hq Hne Hnd Hfresh Hlen.
  - simpl. rewrite app_nil_r.
    rewrite (list_insert_id (heap st) a) by exact Ha.
    rewrite (list_insert_id (heap st) q) by exact Hq.
    destruct st. reflexivity.
  - apply NoDup_cons in Hnd. destruct Hnd as [Hk Hnd].
    pose proof (lookup_lt_Some _ _ _ Ha) as Hlta.
    pose proof (lookup_lt_Some _ _ _ Hq) as Hltq.
    cbn [distribute deref]. rewrite Hq. cbn [bind].
    assert (Hins : fst (Bucket_Insert (mkBucket cap d' dst_list) k v)
                   = mkBucket cap d' (dst_list ++ [(k, v)])).
    { unfold Bucket_Insert, Bucket_IsFull. cbn [list_ size_ depth_].
      replace (Z.of_nat (length dst_list) =? cap) with false
        by (symmetry; apply Z.eqb_neq; simpl in Hlen; lia).
      assert (Hnone : update_entry dst_list k v = None).
      { apply update_entry_None. apply Hfresh. left. }
      rewrite Hnone. reflexivity. }
    rewrite Hins. unfold store.
    destruct (decide (q < length (heap st))%nat) as [_|Hc]; [|contradiction].
    cbn [bind].
    set (st1 := set_heap st (<[q := mkBucket cap d' (dst_list ++ [(k, v)])]> (heap st))).
    assert (Ha1 : heap st1 !! a = Some (mkBucket s d src_list)).
    { simpl. rewrite list_lookup_insert_ne by congruence. exact Ha. }
    rewrite (bucket_update_references st1 src a (mkBucket s d src_list)
               (fun b => fst (Bucket_Remove b k)) Hr Hd Ha1).
    cbn [bind].
    assert (Hrem : fst (Bucket_Remove (mkBucket s d src_list) k)
                   = mkBucket s d (fst (remove_entry src_list k))).
    { unfold Bucket_Remove. cbn [list_ size_ depth_].
      destruct (remove_entry src_list k); reflexivity. }
    rewrite Hrem.
    rewrite (IH _ (fst (remove_entry src_list k)) (dst_list ++ [(k, v)])).
    + f_equal. unfold st1, set_heap. cbn [global_depth_ bucket_size_ num_buckets_ dir_ heap].
      f_equal. rewrite <- app_assoc. cbn [app remove_keys fst].
      rewrite list_insert_insert_eq.
      rewrite (list_insert_insert_ne _ a q) by exact Hne.
      rewrite list_insert_insert_eq. reflexivity.
    + exact Hr.
    + exact Hd.
    + simpl. apply list_lookup_insert_eq. rewrite length_insert. exact Hlta.
    + simpl. rewrite list_lookup_insert_ne by exact Hne.
      apply list_lookup_insert_eq. exact Hltq.
    + exact Hne.
    + exact Hnd.
    + intros x Hx. rewrite fmap_app. intros Hin. apply elem_of_app in Hin.
      destruct Hin as [Hin|Hin].
      * apply (Hfresh x); [right; exact Hx | exact Hin].
      * simpl in Hin. apply list_elem_of_singleton in Hin. subst x. contradiction.
    + rewrite length_app. simpl in *. lia.
Qed.

End Distribute.

Lemma split_moves_eq st (bucket_index : Z) (a : nat) b :
  in_range st bucket_index = true ->
  dir_ st !! Z.to_nat bucket_index = Some (Some a) ->
  heap st !! a = Some b ->
  NoDup (keys b) ->
  Z.of_nat (length (list_ b)) <= bucket_size_ st ->
  1 <= depth_ b <= 31 ->
  in_range st (Z.lor bucket_index (2 ^ (depth_ b - 1))) = true ->
  Z.lor bucket_index (2 ^ (depth_ b - 1)) <> bucket_index ->
  split hash st bucket_index =
  Ret (mkTable (global_depth_ st) (bucket_size_ st) (num_buckets_ st)
         (<[Z.to_nat (Z.lor bucket_index (2 ^ (depth_ b - 1)))
            := Some (length (heap st))]> (dir_ st))
         (<[a := mkBucket (size_ b) (depth_ b)
                   (filter (fun kv => Z.land (hash (fst kv)) (2 ^ (depth_ b - 1)) = 0)
                      (list_ b))]> (heap st)
          ++ [mkBucket (bucket_size_ st) (depth_ b)
                (filter (fun kv => Z.land (hash (fst kv)) (2 ^ (depth_ b - 1)) <> 0)
                   (list_ b))])).
Proof.
  intros Hr Hd Hh Hnd Hlen Hdepth Hr' Hne.
  pose proof (lookup_lt_Some _ _ _ Hh) as Hlt.
  set (mask := 2 ^ (depth_ b - 1)) in *.
  unfold split. rewrite (bucket_at_references st bucket_index a b Hr Hd Hh).
  cbn [bind]. unfold make_shared, Bucket_GetDepth.
  set (st1 := set_heap st (heap st ++ [Bucket_new (bucket_size_ st) (depth_ b)])).
  assert (Hh1 : heap st1 !! a = Some b).
  { simpl. rewrite lookup_app_l by exact Hlt. exact Hh. }
  unfold RedistributeBucket.
  rewrite (bucket_at_references st1 bucket_index a b Hr Hd Hh1). cbn [bind].
  unfold Bucket_GetDepth. rewrite (shl1_in_range (depth_ b - 1)) by lia.
  cbn [bind]. fold mask.
  unfold dir_set. change (in_range st1 (Z.lor bucket_index mask))
    with (in_range st (Z.lor bucket_index mask)).
  rewrite Hr'. cbn [bind].
  set (st2 := set_dir st1 (<[Z.to_nat (Z.lor bucket_index mask)
                             := Some (length (heap st))]> (dir_ st1))).
  apply in_range_iff in Hr as Hr1. apply in_range_iff in Hr' as Hr2.
  assert (Hd2 : dir_ st2 !! Z.to_nat bucket_index = Some (Some a)).
  { simpl. rewrite list_lookup_insert_ne by lia. exact Hd. }
  assert (Hrange2 : in_range st2 bucket_index = true).
  { apply in_range_iff. unfold dir_size. simpl. rewrite length_insert.
    exact Hr1. }
  rewrite (bucket_at_references st2 bucket_index a b Hrange2 Hd2 Hh1). cbn [bind].
  unfold Bucket_GetItems.
  destruct b as [s d l]. cbn [size_ depth_ list_] in *. unfold keys in Hnd.
  cbn [list_] in Hnd.
  rewrite (distribute_moves bucket_index a (length (heap st)) s d
             (bucket_size_ st) d _ st2 l []).
  - f_equal. unfold st2, st1, set_dir, set_heap.
    cbn [global_depth_ bucket_size_ num_buckets_ dir_ heap]. f_equal.
    rewrite (remove_keys_filter _
               (fun kv => Z.land (hash (fst kv)) mask = 0)).
    + rewrite insert_app_l by exact Hlt.
      rewrite insert_app_r_alt by (rewrite length_insert; lia).
      rewrite length_insert, Nat.sub_diag. reflexivity.
    + intros x. split; [intros H0 H1; contradiction|].
      intros H0. destruct (decide (Z.land (hash x.1) mask = 0)); [assumption|].
      contradiction.
    + exact Hnd.
  - exact Hrange2.
  - exact Hd2.
  - exact Hh1.
  - simpl. rewrite lookup_app_r by lia. rewrite Nat.sub_diag. reflexivity.
  - lia.
  - apply (sublist_NoDup _ l.*1); [exact Hnd|].
    apply fmap_sublist. apply sublist_filter.
  - intros k _ Hin. inversion Hin.
  - simpl. pose proof (length_filter
      (fun kv : K * V => Z.land (hash (fst kv)) mask <> 0) l). lia.
Qed.

(** The split, when the slot [bucket_index] does not have the new bit set
    (so that [index | mask] is another slot of the directory).  For a bucket
    with distinct keys, within the capacity of the table and of depth in
    [1, 31], [split] returns; the slot [bucket_index | mask] is given the
    new sibling and no other slot changes; the bucket keeps, in order, the
    entries whose hash has the bit [mask = 1 << (depth - 1)] clear and the
    sibling holds, in order, the entries whose hash has it set; no other
    bucket changes. *)
Theorem split_moves_entries_with_bit_set st (bucket_index : Z) (a : nat) b :
  in_range st bucket_index = true ->
  dir_ st !! Z.to_nat bucket_index = Some (Some a) ->
  heap st !! a = Some b ->
  NoDup (keys b) ->
  Z.of_nat (length (list_ b)) <= bucket_size_ st ->
  1 <= depth_ b <= 31 ->
  in_range st (Z.lor bucket_index (2 ^ (depth_ b - 1))) = true ->
  Z.lor bucket_index (2 ^ (depth_ b - 1)) <> bucket_index ->
  split hash st bucket_index =
  Ret (mkTable (global_depth_ st) (bucket_size_ st) (num_buckets_ st)
         (<[Z.to_nat (Z.lor bucket_index (2 ^ (depth_ b - 1)))
            := Some (length (heap st))]> (dir_ st))
         (<[a := mkBucket (size_ b) (depth_ b)
                   (filter (fun kv => Z.land (hash (fst kv)) (2 ^ (depth_ b - 1)) = 0)
                      (list_ b))]> (heap st)
          ++ [mkBucket (bucket_size_ st) (depth_ b)
                (filter (fun kv => Z.land (hash (fst kv)) (2 ^ (depth_ b - 1)) <> 0)
                   (list_ b))])).
Proof.
  intros Hr Hd Hh Hnd Hlen Hdepth Hr' Hne.
  exact (split_moves_eq st bucket_index a b Hr Hd Hh Hnd Hlen Hdepth Hr' Hne).
Qed.

End SplitMoves.

(** ** A table of capacity 0 *)

Lemma land_mask_mod (h g : Z) : 0 <= g -> Z.land h (2 ^ g - 1) = h mod 2 ^ g.
Proof.
  intros Hg. change (2 ^ g - 1) with (Z.pred (2 ^ g)).
  rewrite <- Z.ones_equiv. apply Z.land_ones. exact Hg.
Qed.

Lemma mod_upper_half (i g : Z) :
  0 <= g -> 2 ^ g <= i < 2 ^ (g + 1) -> i mod 2 ^ g = i - 2 ^ g.
Proof.
  intros Hg Hi. rewrite Z.pow_add_r in Hi by lia. change (2 ^ 1) with 2 in Hi.
  replace i with (i - 2 ^ g + 1 * 2 ^ g) at 1 by lia.
  rewrite Z.mod_add by lia. apply Z.mod_small. lia.
Qed.

Lemma mod_pow_succ (h g : Z) :
  0 <= g ->
  h mod 2 ^ (g + 1) = h mod 2 ^ g \/ h mod 2 ^ (g + 1) = h mod 2 ^ g + 2 ^ g.
Proof.
  intros Hg.
  assert (Hpos : 0 < 2 ^ g) by (apply Z.pow_pos_nonneg; lia).
  assert (Hdouble : 2 ^ (g + 1) = 2 * 2 ^ g).
  { rewrite Z.pow_add_r by lia. change (2 ^ 1) with 2. lia. }
  pose proof (Z.mod_pos_bound h (2 ^ (g + 1)) ltac:(lia)) as Hm.
  assert (Hmm : (h mod 2 ^ (g + 1)) mod 2 ^ g = h mod 2 ^ g).
  { apply Z.mod_mod_divide. exists 2. lia. }
  destruct (Z_lt_dec (h mod 2 ^ (g + 1)) (2 ^ g)) as [Hlt|Hge].
  - left. rewrite <- Hmm. symmetry. apply Z.mod_small. lia.
  - right. rewrite <- Hmm. rewrite (mod_upper_half (h mod 2 ^ (g + 1)) g) by lia. lia.
Qed.

Lemma lor_add_pow (idx g : Z) :
  0 <= g -> 0 <= idx < 2 ^ g -> Z.lor idx (2 ^ g) = idx + 2 ^ g.
Proof.
  intros Hg Hidx. pose proof (Z.add_lor_land idx (2 ^ g)) as Hadd.
  assert (Hland : Z.land idx (2 ^ g) = 0).
  { rewrite <- (Z.mod_small idx (2 ^ g)) at 1 by lia.
    rewrite <- Z.land_ones by lia. rewrite <- Z.land_assoc.
    rewrite (Z.land_comm (Z.ones g)), Z.land_ones by lia.
    rewrite Z.mod_same by lia. apply Z.land_0_r. }
  lia.
Qed.

Section ZeroCapacity.

Context {K V : Type} `{EqDecision K}.
Variable hash : K -> Z.
Variable temp_value : V.
Variables (key : K) (value : V).
Implicit Types (st : @Table K V).

Lemma slot_empty_and_full_bucket_at (idx : Z) st :
  0 <= idx < 2 ^ global_depth_ st -> slot_empty_and_full idx st ->
  bucket_at st idx = Ret (mkBucket 0 (global_depth_ st) []).
Proof.
  intros Hidx (Hs & _ & a & Hd & Hh).
  apply (bucket_at_references st idx a); [|exact Hd|exact Hh].
  apply in_range_iff. lia.
Qed.

Lemma slot_empty_and_full_dir_set (idx i : Z) (p : option nat) st st' :
  0 <= idx -> 0 <= i -> i <> idx -> slot_empty_and_full idx st ->
  dir_set st i p = Ret st' ->
  slot_empty_and_full idx st' /\ global_depth_ st' = global_depth_ st.
Proof.
  intros Hidx Hi Hne (Hs & Hb & a & Hd & Hh) Hset.
  apply dir_set_Ret in Hset. destruct Hset as [_ ->].
  split; [|reflexivity]. split.
  - unfold dir_size in *. simpl. rewrite length_insert. exact Hs.
  - split; [exact Hb|]. exists a. simpl. split; [|exact Hh].
    rewrite list_lookup_insert_ne by lia. exact Hd.
Qed.

Lemma split_empty_and_full st st' :
  let g := global_depth_ st - 1 in
  0 <= g ->
  slot_empty_and_full (hash key mod 2 ^ g) st ->
  split hash st (hash key mod 2 ^ g) = Ret st' ->
  global_depth_ st' = global_depth_ st /\
  slot_empty_and_full (hash key mod 2 ^ global_depth_ st') st'.
Proof.
  intros g Hg Hst Hsplit.
  set (idx := hash key mod 2 ^ g) in *.
  assert (Hpos : 0 < 2 ^ g) by (apply Z.pow_pos_nonneg; lia).
  assert (Hidx : 0 <= idx < 2 ^ g) by (apply Z.mod_pos_bound; exact Hpos).
  assert (Hgd : global_depth_ st = g + 1) by (unfold g; lia).
  assert (Hdouble : 2 ^ (g + 1) = 2 * 2 ^ g).
  { rewrite Z.pow_add_r by lia. change (2 ^ 1) with 2. lia. }
  assert (Hat : bucket_at st idx = Ret (mkBucket 0 (global_depth_ st) [])).
  { apply slot_empty_and_full_bucket_at; [rewrite Hgd; lia | exact Hst]. }
  pose proof Hst as (Hs & Hb & a & Hd & Hh).
  pose proof (lookup_lt_Some _ _ _ Hh) as Hlt.
  unfold split in Hsplit. rewrite Hat in Hsplit. cbn [bind] in Hsplit.
  unfold make_shared, Bucket_GetDepth in Hsplit. cbn [depth_] in Hsplit.
  rewrite Hb in Hsplit.
  set (new := Bucket_new 0 (global_depth_ st)) in Hsplit.
  set (st1 := set_heap st (heap st ++ [new])) in Hsplit.
  assert (Hst1 : slot_empty_and_full idx st1).
  { split; [exact Hs|]. split; [exact Hb|]. exists a. split; [exact Hd|].
    simpl. rewrite lookup_app_l by exact Hlt. exact Hh. }
  assert (Hat1 : bucket_at st1 idx = Ret (mkBucket 0 (global_depth_ st) [])).
  { apply (slot_empty_and_full_bucket_at idx st1); [simpl; rewrite Hgd; lia | exact Hst1]. }
  unfold RedistributeBucket in Hsplit. rewrite Hat1 in Hsplit.
  cbn [bind Bucket_GetDepth depth_] in Hsplit.
  inv_bind Hsplit as mask Hmask. apply shl1_Ret in Hmask.
  destruct Hmask as [Hrange ->].
  replace (global_depth_ st - 1) with g in Hsplit by reflexivity.
  rewrite (lor_add_pow idx g Hg Hidx) in Hsplit.
  inv_bind Hsplit as st2 Hset.
  pose proof Hset as Hset'. apply dir_set_Ret in Hset'. destruct Hset' as [_ Hst2eq].
  destruct (slot_empty_and_full_dir_set idx (idx + 2 ^ g) _ st1 st2
              ltac:(lia) ltac:(lia) ltac:(lia) Hst1 Hset) as [Hst2 Hgd2].
  assert (Hat2 : bucket_at st2 idx = Ret (mkBucket 0 (global_depth_ st) [])).
  { replace (global_depth_ st) with (global_depth_ st2) by exact Hgd2.
    apply (slot_empty_and_full_bucket_at idx st2); [|exact Hst2].
    rewrite Hgd2. simpl. rewrite Hgd. lia. }
  rewrite Hat2 in Hsplit. cbn [bind Bucket_GetItems list_] in Hsplit.
  rewrite filter_nil in Hsplit. simpl in Hsplit. injection Hsplit as <-.
  split; [exact Hgd2|].
  destruct Hst2 as (Hs2 & Hb2 & a2 & Hd2 & Hh2).
  split; [exact Hs2|]. split; [exact Hb2|].
  rewrite Hgd2. change (global_depth_ st1) with (global_depth_ st). rewrite Hgd.
  destruct (mod_pow_succ (hash key) g Hg) as [Hlow|Hhigh].
  - rewrite Hlow. fold idx. exists a2. split; [exact Hd2|].
    rewrite Hgd2 in Hh2. change (global_depth_ st1) with (global_depth_ st) in Hh2.
    rewrite Hgd in Hh2. exact Hh2.
  - rewrite Hhigh. fold idx. exists (length (heap st)). rewrite Hst2eq. simpl. split.
    + apply list_lookup_insert_eq. unfold dir_size in Hs.
      rewrite Hgd, Hdouble in Hs. lia.
    + rewrite lookup_app_r by lia. rewrite Nat.sub_diag. simpl.
      unfold new, Bucket_new. rewrite Hgd. reflexivity.
Qed.

Lemma grow_loop_empty_and_full (fuel : nat) :
  forall (i : Z) st,
    let g := global_depth_ st - 1 in
    0 <= g ->
    2 ^ g <= i <= hash key mod 2 ^ g + 2 ^ g ->
    slot_empty_and_full (hash key mod 2 ^ g) st ->
    (forall f st', (f < fuel)%nat -> 0 <= global_depth_ st' ->
       slot_empty_and_full (hash key mod 2 ^ global_depth_ st') st' ->
       returns (Insert hash temp_value f key value st') = false) ->
    returns (grow_loop hash temp_value fuel key value (hash key mod 2 ^ g)
               (2 ^ g - 1) i st) = false.
Proof.
  induction fuel as [|fuel IHfuel]; intros i st g Hg Hi Hst IH; [reflexivity|].
  set (idx := hash key mod 2 ^ g) in *.
  assert (Hpos : 0 < 2 ^ g) by (apply Z.pow_pos_nonneg; lia).
  assert (Hidx : 0 <= idx < 2 ^ g) by (apply Z.mod_pos_bound; exact Hpos).
  assert (Hgd : global_depth_ st = g + 1) by (unfold g; lia).
  assert (Hdouble : 2 ^ (g + 1) = 2 * 2 ^ g).
  { rewrite Z.pow_add_r by lia. change (2 ^ 1) with 2. lia. }
  pose proof Hst as (Hs & _).
  rewrite grow_loop_S.
  replace (i <? dir_size st) with true
    by (symmetry; apply Z.ltb_lt; rewrite Hs, Hgd; lia).
  rewrite land_mask_mod by exact Hg.
  rewrite mod_upper_half by lia.
  destruct (i - 2 ^ g =? idx) eqn:Hcase.
  - apply Z.eqb_eq in Hcase.
    apply bind_not_returns. intros st1 Hsplit.
    apply bind_not_returns. intros st2 Hins.
    destruct (split_empty_and_full st st1 Hg Hst Hsplit) as [Hgd1 Hst1].
    assert (Hno : returns (Insert hash temp_value fuel key value st1) = false).
    { apply IH; [lia | lia | exact Hst1]. }
    rewrite Hins in Hno. discriminate.
  - apply Z.eqb_neq in Hcase.
    apply bind_not_returns. intros p _.
    apply bind_not_returns. intros st1 Hset.
    destruct (slot_empty_and_full_dir_set idx i p st st1
                ltac:(lia) ltac:(lia) ltac:(lia) Hst Hset) as [Hst1 Hgd1].
    assert (Hg1 : global_depth_ st1 - 1 = g) by lia.
    pose proof (IHfuel (i + 1) st1) as Hrec. cbv zeta in Hrec.
    rewrite Hg1 in Hrec. apply Hrec.
    + exact Hg.
    + fold idx. lia.
    + exact Hst1.
    + intros f st' Hf. apply IH. lia.
Qed.

Lemma Insert_empty_and_full (fuel : nat) :
  forall st,
    0 <= global_depth_ st ->
    slot_empty_and_full (hash key mod 2 ^ global_depth_ st) st ->
    returns (Insert hash temp_value fuel key value st) = false.
Proof.
  induction fuel as [fuel IH] using lt_wf_ind.
  intros st Hg Hst. destruct fuel as [|fuel]; [reflexivity|].
  set (g := global_depth_ st) in *.
  set (idx := hash key mod 2 ^ g) in *.
  assert (Hpos : 0 < 2 ^ g) by (apply Z.pow_pos_nonneg; lia).
  assert (Hidx : 0 <= idx < 2 ^ g) by (apply Z.mod_pos_bound; exact Hpos).
  pose proof Hst as (Hs & Hb & a & Hd & Hh). fold g in Hs, Hh.
  pose proof (lookup_lt_Some _ _ _ Hh) as Hlt.
  rewrite Insert_S.
  apply bind_not_returns. intros bucket_index Hidx'.
  unfold IndexOf in Hidx'. inv_bind Hidx' as m Hm.
  apply shl1_Ret in Hm. destruct Hm as [Hrange ->]. fold g in Hidx'.
  rewrite land_mask_mod in Hidx' by exact Hg. injection Hidx' as <-. fold idx.
  assert (Hat : bucket_at st idx = Ret (mkBucket 0 g [])).
  { apply slot_empty_and_full_bucket_at; [exact Hidx | exact Hst]. }
  rewrite Hat. cbn [bind]. change (fst (Bucket_Find _ key temp_value)) with false.
  cbn iota. change (negb (Bucket_IsFull (mkBucket 0 g []))) with false. cbn iota.
  unfold GetLocalDepth, GetLocalDepthInternal, GetGlobalDepth, GetGlobalDepthInternal.
  rewrite Hat. cbn [bind Bucket_GetDepth depth_]. fold g. rewrite Z.eqb_refl.
  assert (Hr : in_range st idx = true) by (apply in_range_iff; lia).
  rewrite (bucket_update_references (set_global_depth st (g + 1)) idx a
             (mkBucket 0 g []) Bucket_IncrementDepth Hr Hd Hh).
  cbn [bind]. unfold Bucket_IncrementDepth. cbn [size_ depth_ list_].
  apply bind_not_returns. intros n Hn. simpl in Hn.
  apply shl1_Ret in Hn. destruct Hn as [Hrange' ->].
  apply bind_not_returns. intros m Hm.
  apply bind_not_returns. intros m' Hm'.
  cbn [dir_resize set_dir set_heap set_global_depth global_depth_] in Hm, Hm'.
  replace (g + 1 - 1) with g in Hm, Hm' by lia.
  apply shl1_Ret in Hm. destruct Hm as [_ ->].
  apply shl1_Ret in Hm'. destruct Hm' as [_ ->].
  set (st3 := dir_resize _ _).
  assert (Hg3 : global_depth_ st3 - 1 = g) by (simpl; lia).
  pose proof (grow_loop_empty_and_full fuel (2 ^ g) st3) as Hloop.
  cbv zeta in Hloop. rewrite Hg3 in Hloop. fold idx in Hloop. apply Hloop.
  - exact Hg.
  - lia.
  - split; [|split; [exact Hb|]].
    + unfold dir_size, st3. rewrite dir_resize_length. simpl.
      rewrite Z2Nat.id; [reflexivity|]. apply Z.pow_nonneg. lia.
    + exists a. unfold st3, dir_resize.
      cbn [dir_ set_dir set_heap set_global_depth heap global_depth_].
      assert (Hdouble : 2 ^ (g + 1) = 2 * 2 ^ g).
      { rewrite Z.pow_add_r by lia. change (2 ^ 1) with 2. lia. }
      split.
      * rewrite lookup_app_l.
        -- rewrite lookup_take_lt; [exact Hd | lia].
        -- rewrite length_take. apply lookup_lt_Some in Hd. lia.
      * rewrite list_lookup_insert_eq by exact Hlt. reflexivity.
  - intros f st' Hf Hg' Hst'. apply (IH f); [lia | exact Hg' | exact Hst'].
Qed.

(** A table built with capacity 0 accepts no entry: every bucket is both
    empty and full, each split leaves the bucket the key addresses in that
    state, and [Insert] does not return, whatever the key, the value and
    the fuel. *)
Theorem Insert_with_capacity_zero_never_returns (fuel : nat) :
  returns (Insert hash temp_value fuel key value (ExtendibleHashTable 0)) = false.
Proof.
  apply Insert_empty_and_full; [simpl; lia|].
  split; [reflexivity|]. split; [reflexivity|].
  exists 0%nat. simpl. rewrite Z.mod_1_r. split; reflexivity.
Qed.

End ZeroCapacity.

(** ** The further properties at concrete tables *)

Lemma table_032_reachable : reachable int_hash 0 1 table_032.
Proof.
  apply (run_ops_reachable int_hash 0 1 8
           [OpInsert 0 0; OpInsert 3 30; OpInsert 2 20] (ExtendibleHashTable 1)).
  - apply reachable_new.
  - vm_compute. reflexivity.
Defined.

Lemma keys_distinct_in_every_bucket_witness :
  NoDup (keys (mkBucket 1 2 [(3, 30)])).
Proof.
  apply (keys_distinct_in_every_bucket int_hash 0 1 table_0327 1%nat).
  - exact table_0327_reachable.
  - reflexivity.
Defined.

Lemma local_depth_at_most_global_depth_witness :
  0 <= 2 <= GetGlobalDepth table_0327.
Proof.
  apply (local_depth_at_most_global_depth int_hash 0 1 table_0327 3 2).
  - exact table_0327_reachable.
  - reflexivity.
Defined.

Lemma directory_only_grows_witness :
  GetGlobalDepth table_032 <= GetGlobalDepth table_0327 /\
  dir_size table_032 <= dir_size table_0327 /\
  dir_size table_0327 = 2 ^ GetGlobalDepth table_0327.
Proof.
  assert (Hpos : 0 <= 1) by lia.
  apply (directory_only_grows int_hash 0 1 8 table_032 (OpInsert 7 70) table_0327
           Hpos table_032_reachable).
  vm_compute. reflexivity.
Defined.

Lemma Insert_with_room_then_Find_witness :
  exists st',
    int_insert 1 1 10 (ExtendibleHashTable 2) = Ret st' /\
    int_find st' 1 0 = Ret (true, 10) /\
    int_find st' 2 0 = int_find (ExtendibleHashTable 2) 2 0.
Proof.
  assert (Hnot : (1 : Z) ∉ keys (@Bucket_new Z Z 2 0)).
  { vm_compute. intros Hx. inversion Hx. }
  destruct (Insert_with_room_then_Find int_hash 0 (ExtendibleHashTable 2) 1 10 0
              (Bucket_new 2 0) 0%nat eq_refl eq_refl Hnot eq_refl)
    as (st' & Hins & Hfind & Hother & _).
  exists st'. split; [exact Hins|]. split; [apply Hfind|]. apply Hother. lia.
Defined.

Lemma Remove_then_Find_witness :
  exists st',
    Remove int_hash table_0327 7 = Ret (st', true) /\
    Find int_hash st' 7 0 = Ret (false, 0) /\
    dir_ st' = dir_ table_0327.
Proof.
  eexists. split; [vm_compute; reflexivity|].
  match goal with
  | |- Find _ ?st _ _ = _ /\ _ =>
      assert (Hrem : Remove int_hash table_0327 7 = Ret (st, true))
        by (vm_compute; reflexivity)
  end.
  destruct (Remove_then_Find int_hash 0 1 table_0327 7 _ true
              table_0327_reachable Hrem) as (_ & Hmiss & _ & _ & Hdir & _).
  split; [apply Hmiss | exact Hdir].
Defined.

Lemma split_moves_entries_with_bit_set_witness :
  split int_hash
    (mkTable 1 2 1 [Some 0%nat; None] [mkBucket 2 1 [(0, 0); (1, 10)]]) 0
  = Ret (mkTable 1 2 1 [Some 0%nat; Some 1%nat]
           [mkBucket 2 1 [(0, 0)]; mkBucket 2 1 [(1, 10)]]).
Proof.
  assert (Hnd : NoDup (keys (mkBucket 2 1 [(0, 0); (1, 10)]))).
  { vm_compute. apply NoDup_cons. split.
    - intros Hx. inversion Hx as [|? ? ? Hy]; subst. inversion Hy.
    - apply NoDup_cons. split; [intros Hx; inversion Hx | apply NoDup_nil; exact I]. }
  apply (split_moves_entries_with_bit_set int_hash
           (mkTable 1 2 1 [Some 0%nat; None] [mkBucket 2 1 [(0, 0); (1, 10)]])
           0 0%nat (mkBucket 2 1 [(0, 0); (1, 10)])).
  - reflexivity.
  - reflexivity.
  - reflexivity.
  - exact Hnd.
  - simpl. lia.
  - simpl. lia.
  - reflexivity.
  - vm_compute. discriminate.
Defined.

(** ** One split with a doubling of the directory *)

Lemma fill_slot {A : Type} (l0 D : list A) (k m : nat) (x y : A) :
  D !! k = Some x ->
  <[(length l0 + k)%nat := x]> (l0 ++ take k D ++ replicate (S m) y)
  = l0 ++ take (S k) D ++ replicate m y.
Proof.
  intros Hx. pose proof (lookup_lt_Some _ _ _ Hx) as Hlt.
  rewrite insert_app_r. f_equal.
  rewrite insert_app_r_alt by (rewrite length_take; lia).
  rewrite length_take. replace (k - k `min` length D)%nat with 0%nat by lia.
  rewrite (take_S_r D k x Hx), <- app_assoc. reflexivity.
Qed.

Lemma land_pow_zero_low (h g : Z) :
  0 <= g -> (Z.land h (2 ^ g) = 0 <-> h mod 2 ^ (g + 1) = h mod 2 ^ g).
Proof.
  intros Hg.
  assert (Hpos : 0 < 2 ^ g) by (apply Z.pow_pos_nonneg; lia).
  assert (Hbit : Z.land h (2 ^ g) = 0 <-> Z.testbit h g = false).
  { split.
    - intros Hland.
      assert (Ht : Z.testbit (Z.land h (2 ^ g)) g = false)
        by (rewrite Hland; apply Z.bits_0).
      rewrite Z.land_spec, Z.pow2_bits_true, andb_true_r in Ht by lia. exact Ht.
    - intros Ht. apply Z.bits_inj'. intros n Hn.
      rewrite Z.land_spec, Z.bits_0.
      destruct (Z.eq_dec n g) as [->|Hne].
      + rewrite Ht. reflexivity.
      + rewrite (Z.pow2_bits_false g n) by lia. apply andb_false_r. }
  rewrite Hbit.
  assert (Hhigh : h mod 2 ^ (g + 1) = h mod 2 ^ g + Z.b2z (Z.testbit h g) * 2 ^ g).
  { rewrite Z.testbit_spec' by lia.
    replace (g + 1) with (1 + g) by lia. rewrite Z.pow_add_r by lia.
    change (2 ^ 1) with 2.
    rewrite (Z.mul_comm 2), Z.rem_mul_r by lia. lia. }
  rewrite Hhigh. destruct (Z.testbit h g); simpl; split; intros; try lia; discriminate.
Qed.

Section GrowthLoop.

Context {K V : Type} `{EqDecision K}.
Variable hash : K -> Z.
Variable temp_value : V.
Variables (key : K) (value : V).
Implicit Types (st : @Table K V).

(** [m] iterations of the loop of the growth branch that copy the slot
    [i & mask] to the slot [i]. *)
Lemma copy_loop (g bucket_index : Z) (dir0 D : list (option nat)) (m : nat) :
  forall (fuel k : nat) st,
    0 <= g -> Z.of_nat (length dir0) = 2 ^ g -> length D = length dir0 ->
    dir_ st = dir0 ++ take k D ++ replicate (length dir0 - k) None ->
    (k + m <= length dir0)%nat ->
    (forall j, (k <= j < k + m)%nat ->
       Z.of_nat j <> bucket_index /\ D !! j = dir0 !! j) ->
    grow_loop hash temp_value (m + fuel) key value bucket_index (2 ^ g - 1)
      (2 ^ g + Z.of_nat k) st =
    grow_loop hash temp_value fuel key value bucket_index (2 ^ g - 1)
      (2 ^ g + Z.of_nat (k + m))
      (set_dir st (dir0 ++ take (k + m) D ++ replicate (length dir0 - (k + m)) None)).
Proof.
  induction m as [|m IH]; intros fuel k st Hg Hn HD Hdir Hkm Hcopy.
  - rewrite Nat.add_0_r, <- Hdir. destruct st. reflexivity.
  - cbn [Nat.add]. rewrite grow_loop_S.
    assert (Hsize : dir_size st = 2 * 2 ^ g).
    { unfold dir_size. rewrite Hdir, !length_app, length_take, length_replicate. lia. }
    replace (2 ^ g + Z.of_nat k <? dir_size st) with true
      by (symmetry; apply Z.ltb_lt; lia).
    rewrite land_mask_mod by exact Hg.
    assert (Hdouble : 2 ^ (g + 1) = 2 * 2 ^ g).
    { rewrite Z.pow_add_r by lia. change (2 ^ 1) with 2. lia. }
    rewrite mod_upper_half by lia.
    replace (2 ^ g + Z.of_nat k - 2 ^ g) with (Z.of_nat k) by lia.
    destruct (Hcopy k ltac:(lia)) as [Hne HDk].
    replace (Z.of_nat k =? bucket_index) with false
      by (symmetry; apply Z.eqb_neq; exact Hne).
    destruct (dir0 !! k) as [x|] eqn:Hx; [|apply lookup_ge_None in Hx; lia].
    assert (Hget : dir_get st (Z.of_nat k) = Ret x).
    { unfold dir_get.
      replace (in_range st (Z.of_nat k)) with true
        by (symmetry; apply in_range_iff; lia).
      rewrite Nat2Z.id, Hdir, lookup_app_l by lia. rewrite Hx. reflexivity. }
    rewrite Hget. cbn [bind]. unfold dir_set.
    replace (in_range st (2 ^ g + Z.of_nat k)) with true
      by (symmetry; apply in_range_iff; lia).
    cbn [bind].
    replace (Z.to_nat (2 ^ g + Z.of_nat k)) with (length dir0 + k)%nat by lia.
    rewrite Hdir.
    replace (length dir0 - k)%nat with (S (length dir0 - S k)) by lia.
    rewrite (fill_slot dir0 D k _ x None HDk).
    replace (2 ^ g + Z.of_nat k + 1) with (2 ^ g + Z.of_nat (S k)) by lia.
    rewrite (IH fuel (S k)); try assumption.
    + replace (S k + m)%nat with (k + S m)%nat by lia. reflexivity.
    + reflexivity.
    + lia.
    + intros j Hj. apply Hcopy. lia.
Qed.

(** [Insert] through the growth branch when one split makes room: the run
    and the table it leaves.  [b'] at address [a'] is the bucket the key
    addresses after the split, the original one or the sibling. *)
Lemma grow_once_eq st (a : nat) b (idx' : Z) (a' : nat) b' :
  let g := global_depth_ st in
  let idx := hash key mod 2 ^ g in
  let q := length (heap st) in
  let src' := mkBucket (size_ b) (g + 1)
                (filter (fun kv => Z.land (hash (fst kv)) (2 ^ g) = 0) (list_ b)) in
  let dst' := mkBucket (bucket_size_ st) (g + 1)
                (filter (fun kv => Z.land (hash (fst kv)) (2 ^ g) <> 0) (list_ b)) in
  0 <= g <= 29 -> dir_size st = 2 ^ g ->
  dir_ st !! Z.to_nat idx = Some (Some a) -> heap st !! a = Some b ->
  depth_ b = g -> Bucket_IsFull b = true -> key ∉ keys b -> NoDup (keys b) ->
  size_ b = bucket_size_ st ->
  hash key mod 2 ^ (g + 1) = idx' ->
  (idx' = idx /\ a' = a /\ b' = src') \/ (idx' = idx + 2 ^ g /\ a' = q /\ b' = dst') ->
  key ∉ keys b' -> Bucket_IsFull b' = false ->
  forall fuel, (length (dir_ st) + 3 <= fuel)%nat ->
  Insert hash temp_value fuel key value st =
  Ret (mkTable (g + 1) (bucket_size_ st) (num_buckets_ st)
         (dir_ st ++ <[Z.to_nat idx := Some q]> (dir_ st))
         (<[a' := fst (Bucket_Insert b' key value)]>
            (<[a := src']> (heap st) ++ [dst']))).
Proof.
  intros g idx q src' dst' Hg Hs Hd Hh Hdepth Hfull Hnot Hnd Hcap Hidx' Hcase
    Hnot' Hroom fuel Hfuel.
  set (dir0 := dir_ st) in *. set (n := length dir0) in *.
  set (D := <[Z.to_nat idx := Some q]> dir0).
  assert (Hpos : 0 < 2 ^ g) by (apply Z.pow_pos_nonneg; lia).
  assert (Hidx : 0 <= idx < 2 ^ g) by (apply Z.mod_pos_bound; exact Hpos).
  assert (Hdouble : 2 ^ (g + 1) = 2 * 2 ^ g).
  { rewrite Z.pow_add_r by lia. change (2 ^ 1) with 2. lia. }
  assert (Hn : Z.of_nat n = 2 ^ g) by exact Hs.
  assert (HD : length D = n) by (unfold D; apply length_insert).
  assert (Hr : in_range st idx = true) by (apply in_range_iff; lia).
  pose proof (lookup_lt_Some _ _ _ Hh) as Hlt.
  assert (HDidx : D !! Z.to_nat idx = Some (Some q)).
  { unfold D. apply list_lookup_insert_eq. lia. }
  assert (HDother : forall j, j <> Z.to_nat idx -> D !! j = dir0 !! j).
  { intros j Hj. unfold D. apply list_lookup_insert_ne. lia. }
  destruct fuel as [|f0]; [lia|].
  rewrite Insert_S.
  (* the three tests of Insert *)
  assert (HIndexOf : IndexOf hash st key = Ret idx).
  { unfold IndexOf. fold g. rewrite shl1_in_range by lia. cbn [bind].
    rewrite land_mask_mod by lia. reflexivity. }
  rewrite HIndexOf. cbn [bind].
  rewrite (bucket_at_references st idx a b Hr Hd Hh). cbn [bind].
  unfold Bucket_Find at 1. rewrite (find_entry_miss _ _ temp_value Hnot).
  cbn [fst]. rewrite Hfull. cbn [negb].
  unfold GetLocalDepth, GetLocalDepthInternal, GetGlobalDepth, GetGlobalDepthInternal.
  rewrite (bucket_at_references st idx a b Hr Hd Hh). cbn [bind].
  unfold Bucket_GetDepth. rewrite Hdepth. fold g. rewrite Z.eqb_refl.
  (* the growth of the directory *)
  rewrite (bucket_update_references (set_global_depth st (g + 1)) idx a b
             Bucket_IncrementDepth Hr Hd Hh).
  cbn [bind set_heap set_global_depth global_depth_ bucket_size_ num_buckets_ dir_ heap].
  rewrite shl1_in_range by lia. cbn [bind].
  cbn [dir_resize set_dir set_heap set_global_depth
       global_depth_ bucket_size_ num_buckets_ dir_ heap].
  replace (g + 1 - 1) with g by lia.
  rewrite shl1_in_range by lia. cbn [bind].
  set (b1 := Bucket_IncrementDepth b).
  set (heap1 := <[a := b1]> (heap st)).
  set (st3 := mkTable (g + 1) (bucket_size_ st) (num_buckets_ st)
                (dir0 ++ replicate n None) heap1).
  replace (dir_resize _ (2 ^ (g + 1))) with st3.
  2:{ unfold st3, dir_resize, set_dir, set_heap, set_global_depth.
      cbn [global_depth_ bucket_size_ num_buckets_ dir_ heap]. fold dir0 n.
      rewrite take_ge by (fold n; lia).
      replace (Z.to_nat (2 ^ (g + 1)) - n)%nat with n by lia. reflexivity. }
  (* the copies below the split slot *)
  replace f0 with (Z.to_nat idx + (f0 - Z.to_nat idx))%nat by lia.
  replace (2 ^ g) with (2 ^ g + Z.of_nat 0) at 2 by lia.
  rewrite (copy_loop g idx dir0 D (Z.to_nat idx) _ 0 st3);
    [|lia|exact Hn|exact HD|simpl; rewrite Nat.sub_0_r; reflexivity|lia|
     intros j Hj; split; [lia | apply HDother; lia]].
  cbn [Nat.add].
  set (st4 := set_dir st3 _).
  destruct (f0 - Z.to_nat idx)%nat as [|f2] eqn:Hf2; [lia|].
  rewrite grow_loop_S.
  assert (Hsize4 : dir_size st4 = 2 * 2 ^ g).
  { unfold dir_size, st4. simpl.
    rewrite !length_app, length_take, length_replicate. lia. }
  replace (2 ^ g + Z.of_nat (Z.to_nat idx) <? dir_size st4) with true
    by (symmetry; apply Z.ltb_lt; lia).
  rewrite land_mask_mod by lia. rewrite mod_upper_half by lia.
  replace (2 ^ g + Z.of_nat (Z.to_nat idx) - 2 ^ g) with idx by lia.
  rewrite Z.eqb_refl.
  (* the split *)
  assert (Hr4 : in_range st4 idx = true) by (apply in_range_iff; lia).
  assert (Hd4 : dir_ st4 !! Z.to_nat idx = Some (Some a)).
  { unfold st4. simpl. rewrite lookup_app_l by (fold n; lia). exact Hd. }
  assert (Hh4 : heap st4 !! a = Some b1).
  { unfold st4, heap1. simpl. apply list_lookup_insert_eq. exact Hlt. }
  assert (Hlen : Z.of_nat (length (list_ b)) = size_ b).
  { unfold Bucket_IsFull in Hfull. apply Z.eqb_eq in Hfull. exact Hfull. }
  rewrite (split_moves_eq hash st4 idx a b1 Hr4 Hd4 Hh4);
    [|exact Hnd|simpl; lia|simpl; lia| |].
  2:{ apply in_range_iff. simpl. rewrite Hdepth. replace (g + 1 - 1) with g by lia.
      rewrite (lor_add_pow idx g) by lia. lia. }
  2:{ simpl. rewrite Hdepth. replace (g + 1 - 1) with g by lia.
      rewrite (lor_add_pow idx g) by lia. lia. }
  cbn [bind]. cbn [b1 Bucket_IncrementDepth size_ depth_ list_].
  rewrite Hdepth. replace (g + 1 - 1) with g by lia.
  rewrite (lor_add_pow idx g) by lia.
  cbn [st4 st3 set_dir global_depth_ bucket_size_ num_buckets_ dir_ heap].
  unfold heap1. rewrite list_insert_insert_eq, length_insert.
  fold src' dst' q.
  replace (Z.to_nat (idx + 2 ^ g)) with (n + Z.to_nat idx)%nat by lia.
  fold n.
  replace (n - Z.to_nat idx)%nat with (S (n - S (Z.to_nat idx))) by lia.
  pose proof (fill_slot dir0 D (Z.to_nat idx) (n - S (Z.to_nat idx))
                (Some q) None HDidx) as Hfill.
  fold n in Hfill. rewrite Hfill. clear Hfill.
  set (heapT := <[a := src']> (heap st) ++ [dst']).
  set (dirT := dir0 ++ take (S (Z.to_nat idx)) D ++ replicate (n - S (Z.to_nat idx)) None).
  set (T0 := mkTable (g + 1) (bucket_size_ st) (num_buckets_ st) dirT heapT).
  (* the retry *)
  assert (HIndexOfT : IndexOf hash T0 key = Ret idx').
  { unfold IndexOf. simpl. rewrite shl1_in_range by lia. cbn [bind].
    rewrite land_mask_mod by lia. rewrite Hidx'. reflexivity. }
  assert (HheapT : heapT !! a' = Some b').
  { unfold heapT. destruct Hcase as [(_ & -> & ->)|(_ & -> & ->)].
    - rewrite lookup_app_l by (rewrite length_insert; exact Hlt).
      apply list_lookup_insert_eq. exact Hlt.
    - rewrite lookup_app_r by (rewrite length_insert; unfold q; lia).
      rewrite length_insert. unfold q. rewrite Nat.sub_diag. reflexivity. }
  assert (HdirT : dirT !! Z.to_nat idx' = Some (Some a')).
  { unfold dirT. destruct Hcase as [(-> & -> & _)|(-> & -> & _)].
    - rewrite lookup_app_l by (fold n; lia). exact Hd.
    - replace (Z.to_nat (idx + 2 ^ g)) with (n + Z.to_nat idx)%nat by lia.
      unfold n. rewrite lookup_app_r by lia.
      replace (length dir0 + Z.to_nat idx - length dir0)%nat with (Z.to_nat idx) by lia.
      rewrite lookup_app_l by (rewrite length_take; lia).
      rewrite lookup_take_lt by lia. exact HDidx. }
  assert (HrT : in_range T0 idx' = true).
  { apply in_range_iff. unfold dir_size, T0, dirT. simpl.
    rewrite !length_app, length_take, length_replicate.
    destruct Hcase as [(-> & _)|(-> & _)]; lia. }
  destruct f2 as [|f3]; [lia|].
  rewrite (Insert_with_room_eq hash temp_value T0 key value idx' b' f3 HIndexOfT
             (bucket_at_references T0 idx' a' b' HrT HdirT HheapT) Hnot' Hroom).
  rewrite (bucket_update_references T0 idx' a' b'
             (fun b => fst (Bucket_Insert b key value)) HrT HdirT HheapT).
  cbn [bind].
  (* the copies above the split slot *)
  set (T1 := set_heap T0 _).
  replace (2 ^ g + Z.of_nat (Z.to_nat idx) + 1)
    with (2 ^ g + Z.of_nat (S (Z.to_nat idx))) by lia.
  replace (S f3) with ((n - S (Z.to_nat idx)) + (S f3 - (n - S (Z.to_nat idx))))%nat
    by lia.
  rewrite (copy_loop g idx dir0 D (n - S (Z.to_nat idx)) _ (S (Z.to_nat idx)) T1);
    [|lia|exact Hn|exact HD|reflexivity|fold n; lia|
     intros j Hj; split; [lia | apply HDother; lia]].
  fold n. replace (S (Z.to_nat idx) + (n - S (Z.to_nat idx)))%nat with n by lia.
  destruct (S f3 - (n - S (Z.to_nat idx)))%nat as [|f5] eqn:Hf5; [lia|].
  rewrite grow_loop_S.
  replace (2 ^ g + Z.of_nat n <? _) with false.
  2:{ symmetry. apply Z.ltb_ge. unfold dir_size. simpl.
      rewrite !length_app, length_take, length_replicate. lia. }
  f_equal. unfold T1, T0, set_dir, set_heap.
  cbn [global_depth_ bucket_size_ num_buckets_ dir_ heap].
  rewrite Nat.sub_diag. simpl replicate. rewrite app_nil_r.
  rewrite take_ge by lia. reflexivity.
Qed.

Lemma find_entry_filter_keep (P : K * V -> Prop) `{forall x, Decision (P x)}
    (l : list (K * V)) (k : K) (value0 : V) :
  (forall v, P (k, v)) ->
  find_entry (filter P l) k value0 = find_entry l k value0.
Proof.
  intros HP. induction l as [|[k0 v] l IH]; [reflexivity|].
  destruct (decide (P (k0, v))) as [Hyes|Hno].
  - rewrite filter_cons_True by exact Hyes. simpl.
    destruct (decide (k0 = k)); [reflexivity | exact IH].
  - rewrite filter_cons_False by exact Hno. simpl.
    destruct (decide (k0 = k)) as [->|Hne]; [|exact IH].
    exfalso. apply Hno, HP.
Qed.

Lemma find_entry_app_other (l : list (K * V)) (k k' : K) (v value0 : V) :
  k' <> k -> find_entry (l ++ [(k, v)]) k' value0 = find_entry l k' value0.
Proof.
  intros Hne. induction l as [|[k0 v0] l IH]; simpl.
  - destruct (decide (k = k')); [congruence | reflexivity].
  - destruct (decide (k0 = k')); [reflexivity | exact IH].
Qed.

Lemma Bucket_Insert_absent (b : @Bucket K V) (k : K) (v : V) :
  Bucket_IsFull b = false -> k ∉ keys b ->
  fst (Bucket_Insert b k v) = mkBucket (size_ b) (depth_ b) (list_ b ++ [(k, v)]).
Proof.
  intros Hfull Hnot. unfold Bucket_Insert. rewrite Hfull.
  apply (update_entry_None _ _ v) in Hnot. rewrite Hnot. reflexivity.
Qed.

Lemma Find_lookup st (k : K) (value0 : V) (idx : Z) :
  IndexOf hash st k = Ret idx -> in_range st idx = true ->
  Find hash st k value0 =
  match dir_ st !! Z.to_nat idx with
  | Some (Some x) => match heap st !! x with
                     | Some b => Ret (Bucket_Find b k value0)
                     | None => Undef
                     end
  | _ => Undef
  end.
Proof.
  intros Hidx Hr. unfold Find, bucket_at, dir_get. rewrite Hidx. cbn [bind].
  rewrite Hr. destruct (dir_ st !! Z.to_nat idx) as [[x|]|]; cbn [bind deref];
    try reflexivity.
  destruct (heap st !! x); reflexivity.
Qed.

(** [Insert] through one doubling of the directory.  In a table whose
    directory has [2 ^ global_depth_] slots, let the key address a full
    bucket whose local depth is the global depth (at most 29), which only
    that slot references, whose keys are distinct and do not include the
    key, and one entry of which differs from the key in the bit the split
    looks at; let no slot hold a pointer outside the store.  Then [Insert]
    returns for every fuel above the length of the directory plus 3, the
    global depth is one more and the directory twice as long, [Find] of
    the key yields the value, and [Find] of every other key gives what it
    gave before. *)
Theorem Insert_doubling_the_directory_once st (a : nat) b :
  let g := global_depth_ st in
  let idx := hash key mod 2 ^ g in
  0 <= g <= 29 -> dir_size st = 2 ^ g ->
  dir_ st !! Z.to_nat idx = Some (Some a) -> heap st !! a = Some b ->
  depth_ b = g -> Bucket_IsFull b = true -> key ∉ keys b -> NoDup (keys b) ->
  size_ b = bucket_size_ st ->
  (exists kv, kv ∈ list_ b /\
     (Z.land (hash (fst kv)) (2 ^ g) = 0 <-> Z.land (hash key) (2 ^ g) <> 0)) ->
  (forall j, dir_ st !! j = Some (Some a) -> j = Z.to_nat idx) ->
  (forall j x, dir_ st !! j = Some (Some x) -> (x < length (heap st))%nat) ->
  forall fuel, (length (dir_ st) + 3 <= fuel)%nat ->
  exists st',
    Insert hash temp_value fuel key value st = Ret st' /\
    GetGlobalDepth st' = g + 1 /\ dir_size st' = 2 * dir_size st /\
    (forall value0, Find hash st' key value0 = Ret (true, value)) /\
    (forall key' value0, key' <> key ->
       Find hash st' key' value0 = Find hash st key' value0).
Proof.
  intros g idx Hg Hs Hd Hh Hdepth Hfull Hnot Hnd Hcap Hother Hsole Hvalid fuel Hfuel.
  set (q := length (heap st)).
  set (src' := mkBucket (size_ b) (g + 1)
                 (filter (fun kv => Z.land (hash (fst kv)) (2 ^ g) = 0) (list_ b))).
  set (dst' := mkBucket (bucket_size_ st) (g + 1)
                 (filter (fun kv => Z.land (hash (fst kv)) (2 ^ g) <> 0) (list_ b))).
  assert (Hpos : 0 < 2 ^ g) by (apply Z.pow_pos_nonneg; lia).
  assert (Hidx : 0 <= idx < 2 ^ g) by (apply Z.mod_pos_bound; exact Hpos).
  assert (Hdouble : 2 ^ (g + 1) = 2 * 2 ^ g).
  { rewrite Z.pow_add_r by lia. change (2 ^ 1) with 2. lia. }
  assert (Hn : Z.of_nat (length (dir_ st)) = 2 ^ g) by exact Hs.
  assert (Hlen : Z.of_nat (length (list_ b)) = size_ b).
  { unfold Bucket_IsFull in Hfull. apply Z.eqb_eq in Hfull. exact Hfull. }
  pose proof (lookup_lt_Some _ _ _ Hh) as Hlt.
  destruct Hother as (kv & Hkv & Hdiffer).
  (* the bucket the key addresses after the split *)
  assert (Hchoice : exists idx' a' b',
    hash key mod 2 ^ (g + 1) = idx' /\
    ((idx' = idx /\ a' = a /\ b' = src') \/
     (idx' = idx + 2 ^ g /\ a' = q /\ b' = dst')) /\
    (key ∉ keys b') /\ Bucket_IsFull b' = false).
  { destruct (decide (Z.land (hash key) (2 ^ g) = 0)) as [Hclear|Hset].
    - exists idx, a, src'. split; [apply land_pow_zero_low; [lia | exact Hclear]|].
      split; [left; repeat split|]. split.
      + intros Hin. apply Hnot. unfold keys in *. simpl in Hin.
        apply (elem_of_sublist _ _ _ Hin). apply fmap_sublist, sublist_filter.
      + unfold Bucket_IsFull. simpl. apply Z.eqb_neq.
        assert (Hk : ~ Z.land (hash (fst kv)) (2 ^ g) = 0) by tauto.
        pose proof (length_filter_lt
          (fun kv => Z.land (hash (fst kv)) (2 ^ g) = 0) (list_ b) kv Hkv Hk). lia.
    - exists (idx + 2 ^ g), q, dst'. split.
      + destruct (mod_pow_succ (hash key) g ltac:(lia)) as [Hlow|Hhigh]; [|exact Hhigh].
        apply land_pow_zero_low in Hlow; [contradiction | lia].
      + split; [right; repeat split|]. split.
        * intros Hin. apply Hnot. unfold keys in *. simpl in Hin.
          apply (elem_of_sublist _ _ _ Hin). apply fmap_sublist, sublist_filter.
        * unfold Bucket_IsFull. simpl. apply Z.eqb_neq.
          assert (Hk : ~ Z.land (hash (fst kv)) (2 ^ g) <> 0) by tauto.
          pose proof (length_filter_lt
            (fun kv => Z.land (hash (fst kv)) (2 ^ g) <> 0) (list_ b) kv Hkv Hk). lia. }
  destruct Hchoice as (idx' & a' & b' & Hidx' & Hcase & Hnot' & Hroom).
  pose proof (grow_once_eq st a b idx' a' b' Hg Hs Hd Hh Hdepth Hfull Hnot Hnd Hcap
                Hidx' Hcase Hnot' Hroom fuel Hfuel) as Hrun.
  fold g idx q src' dst' in Hrun.
  rewrite (Bucket_Insert_absent b' key value Hroom Hnot') in Hrun.
  set (b'' := mkBucket (size_ b') (depth_ b') (list_ b' ++ [(key, value)])) in Hrun.
  set (dir' := dir_ st ++ <[Z.to_nat idx := Some q]> (dir_ st)) in Hrun.
  set (heap' := <[a' := b'']> (<[a := src']> (heap st) ++ [dst'])) in Hrun.
  set (st' := mkTable (g + 1) (bucket_size_ st) (num_buckets_ st) dir' heap') in Hrun.
  exists st'. split; [exact Hrun|]. split; [reflexivity|].
  assert (Hsize' : dir_size st' = 2 * 2 ^ g).
  { unfold dir_size, st', dir'. simpl. rewrite length_app, length_insert. lia. }
  split; [rewrite Hsize', Hs; reflexivity|].
  assert (HIndexOf' : forall k, IndexOf hash st' k = Ret (hash k mod 2 ^ (g + 1))).
  { intros k. unfold IndexOf. simpl. rewrite shl1_in_range by lia. cbn [bind].
    rewrite land_mask_mod by lia. reflexivity. }
  assert (HIndexOf : forall k, IndexOf hash st k = Ret (hash k mod 2 ^ g)).
  { intros k. unfold IndexOf. fold g. rewrite shl1_in_range by lia. cbn [bind].
    rewrite land_mask_mod by lia. reflexivity. }
  assert (Hrange' : forall k, in_range st' (hash k mod 2 ^ (g + 1)) = true).
  { intros k. apply in_range_iff. rewrite Hsize', <- Hdouble.
    apply Z.mod_pos_bound. lia. }
  assert (Hrange : forall k, in_range st (hash k mod 2 ^ g) = true).
  { intros k. apply in_range_iff. rewrite Hs. apply Z.mod_pos_bound. lia. }
  assert (Hlow' : forall i, 0 <= i < 2 ^ g -> dir' !! Z.to_nat i = dir_ st !! Z.to_nat i).
  { intros i Hi. unfold dir'. apply lookup_app_l. lia. }
  assert (Hhigh' : forall i, 0 <= i < 2 ^ g ->
            dir' !! Z.to_nat (i + 2 ^ g) =
            (<[Z.to_nat idx := Some q]> (dir_ st)) !! Z.to_nat i).
  { intros i Hi. unfold dir'. rewrite lookup_app_r by lia. f_equal. lia. }
  assert (Hheap_a' : heap' !! a' = Some b'').
  { unfold heap'. apply list_lookup_insert_eq.
    rewrite length_app, length_insert. simpl.
    destruct Hcase as [(_ & -> & _)|(_ & -> & _)]; unfold q; lia. }
  assert (Hdir_idx' : dir' !! Z.to_nat idx' = Some (Some a')).
  { destruct Hcase as [(-> & -> & _)|(-> & -> & _)].
    - rewrite Hlow' by lia. exact Hd.
    - rewrite Hhigh' by lia. apply list_lookup_insert_eq. lia. }
  split.
  - intros value0. rewrite (Find_lookup st' key value0 _ (HIndexOf' key) (Hrange' key)).
    rewrite Hidx'. change (dir_ st') with dir'. change (heap st') with heap'.
    rewrite Hdir_idx', Hheap_a'. unfold Bucket_Find, b''. cbn [list_].
    rewrite find_entry_app.
    assert (Hmiss : find_entry (list_ b') key value0 = (false, value0))
      by (apply find_entry_miss; exact Hnot').
    rewrite Hmiss. cbn [fst]. destruct (decide (key = key)); [reflexivity | congruence].
  - intros key' value0 Hne.
    rewrite (Find_lookup st' key' value0 _ (HIndexOf' key') (Hrange' key')).
    rewrite (Find_lookup st key' value0 _ (HIndexOf key') (Hrange key')).
    change (dir_ st') with dir'. change (heap st') with heap'.
    set (i0 := hash key' mod 2 ^ g).
    assert (Hi0 : 0 <= i0 < 2 ^ g) by (apply Z.mod_pos_bound; exact Hpos).
    (* the two buckets of the split, as [Find(key')] sees them *)
    assert (Hsrc : forall value1,
              Z.land (hash key') (2 ^ g) = 0 ->
              (exists bx, heap' !! a = Some bx /\
                 Bucket_Find bx key' value1 = Bucket_Find b key' value1)).
    { intros value1 Hclear.
      assert (Hkeep : find_entry (list_ src') key' value1
                      = find_entry (list_ b) key' value1).
      { unfold src'. cbn [list_].
        apply (find_entry_filter_keep
                 (fun kv => Z.land (hash (fst kv)) (2 ^ g) = 0)).
        intros v. exact Hclear. }
      destruct Hcase as [(_ & -> & ->)|(_ & -> & ->)].
      - exists b''. split; [exact Hheap_a'|]. unfold Bucket_Find, b''. cbn [list_].
        rewrite find_entry_app_other by exact Hne. exact Hkeep.
      - exists src'. split; [|exact Hkeep]. unfold heap'.
        rewrite list_lookup_insert_ne by (unfold q; lia).
        rewrite lookup_app_l by (rewrite length_insert; exact Hlt).
        apply list_lookup_insert_eq. exact Hlt. }
    assert (Hdst : forall value1,
              Z.land (hash key') (2 ^ g) <> 0 ->
              (exists bx, heap' !! q = Some bx /\
                 Bucket_Find bx key' value1 = Bucket_Find b key' value1)).
    { intros value1 Hset.
      assert (Hkeep : find_entry (list_ dst') key' value1
                      = find_entry (list_ b) key' value1).
      { unfold dst'. cbn [list_].
        apply (find_entry_filter_keep
                 (fun kv => Z.land (hash (fst kv)) (2 ^ g) <> 0)).
        intros v. exact Hset. }
      destruct Hcase as [(_ & -> & ->)|(_ & -> & ->)].
      - exists dst'. split; [|exact Hkeep]. unfold heap'.
        rewrite list_lookup_insert_ne by (unfold q; lia).
        rewrite lookup_app_r by (rewrite length_insert; unfold q; lia).
        rewrite length_insert. unfold q. rewrite Nat.sub_diag. reflexivity.
      - exists b''. split; [exact Hheap_a'|]. unfold Bucket_Find, b''. cbn [list_].
        rewrite find_entry_app_other by exact Hne. exact Hkeep. }
    (* a bucket that the split does not touch *)
    assert (Hsame : forall x, x <> a -> (x < length (heap st))%nat ->
              heap' !! x = heap st !! x).
    { intros x Hxa Hxl. unfold heap'.
      rewrite list_lookup_insert_ne
        by (destruct Hcase as [(_ & -> & _)|(_ & -> & _)]; unfold q; lia).
      rewrite lookup_app_l by (rewrite length_insert; exact Hxl).
      apply list_lookup_insert_ne. lia. }
    destruct (decide (Z.land (hash key') (2 ^ g) = 0)) as [Hclear|Hset].
    + (* key' stays in the lower half *)
      assert (Hi1 : hash key' mod 2 ^ (g + 1) = i0)
        by (apply land_pow_zero_low; [lia | exact Hclear]).
      rewrite Hi1, Hlow' by exact Hi0.
      destruct (dir_ st !! Z.to_nat i0) as [[x|]|] eqn:Hx; try reflexivity.
      destruct (decide (x = a)) as [->|Hxa].
      * rewrite Hh. destruct (Hsrc value0 Hclear) as (bx & Hbx & Hfind).
        rewrite Hbx, Hfind. reflexivity.
      * rewrite (Hsame x Hxa (Hvalid _ _ Hx)). reflexivity.
    + (* key' goes to the upper half *)
      assert (Hi1 : hash key' mod 2 ^ (g + 1) = i0 + 2 ^ g).
      { destruct (mod_pow_succ (hash key') g ltac:(lia)) as [Hlow|Hhigh]; [|exact Hhigh].
        apply land_pow_zero_low in Hlow; [contradiction | lia]. }
      rewrite Hi1, Hhigh' by exact Hi0.
      destruct (decide (i0 = idx)) as [Hi|Hi].
      * rewrite Hi, list_lookup_insert_eq by lia. fold idx in Hd. rewrite Hd, Hh.
        destruct (Hdst value0 Hset) as (bx & Hbx & Hfind).
        rewrite Hbx, Hfind. reflexivity.
      * rewrite list_lookup_insert_ne by lia.
        destruct (dir_ st !! Z.to_nat i0) as [[x|]|] eqn:Hx; try reflexivity.
        assert (Hxa : x <> a).
        { intros ->. apply Hsole in Hx. lia. }
        rewrite (Hsame x Hxa (Hvalid _ _ Hx)). reflexivity.
Qed.

(** [Insert] through one split without a doubling.  In a table whose
    directory has [2 ^ global_depth_] slots, let the key address, through a
    slot that does not have the new bit set, a full bucket whose local depth
    is one less than the global depth (at most 30); let that bucket be
    referenced by that slot and by the slot with the new bit set and by no
    other, have distinct keys that do not include the key, and hold one
    entry whose hash has the new bit set; let no slot hold a pointer outside
    the store.  Then [Insert] returns for every fuel from 2 on, the global
    depth and the length of the directory are unchanged, [Find] of the key
    yields the value, and [Find] of every other key gives what it gave
    before. *)
Theorem Insert_splitting_below_global_depth st (a : nat) b :
  let d := depth_ b in
  let idx := hash key mod 2 ^ (d + 1) in
  0 <= d <= 29 -> global_depth_ st = d + 1 -> dir_size st = 2 ^ (d + 1) ->
  dir_ st !! Z.to_nat idx = Some (Some a) -> heap st !! a = Some b ->
  Bucket_IsFull b = true -> key ∉ keys b -> NoDup (keys b) ->
  size_ b = bucket_size_ st ->
  Z.land (hash key) (2 ^ d) = 0 ->
  (exists kv, kv ∈ list_ b /\ Z.land (hash (fst kv)) (2 ^ d) <> 0) ->
  (forall j, dir_ st !! j = Some (Some a) <->
             j = Z.to_nat idx \/ j = Z.to_nat (idx + 2 ^ d)) ->
  (forall j x, dir_ st !! j = Some (Some x) -> (x < length (heap st))%nat) ->
  forall fuel, (2 <= fuel)%nat ->
  exists st',
    Insert hash temp_value fuel key value st = Ret st' /\
    GetGlobalDepth st' = GetGlobalDepth st /\ dir_size st' = dir_size st /\
    (forall value0, Find hash st' key value0 = Ret (true, value)) /\
    (forall key' value0, key' <> key ->
       Find hash st' key' value0 = Find hash st key' value0).
Proof.
  intros d idx Hd0 Hgd Hs Hd Hh Hfull Hnot Hnd Hcap Hclear Hother Hpair Hvalid
    fuel Hfuel.
  set (q := length (heap st)).
  set (src' := mkBucket (size_ b) (d + 1)
                 (filter (fun kv => Z.land (hash (fst kv)) (2 ^ d) = 0) (list_ b))).
  set (dst' := mkBucket (bucket_size_ st) (d + 1)
                 (filter (fun kv => Z.land (hash (fst kv)) (2 ^ d) <> 0) (list_ b))).
  assert (Hpos : 0 < 2 ^ d) by (apply Z.pow_pos_nonneg; lia).
  assert (Hdouble : 2 ^ (d + 1) = 2 * 2 ^ d).
  { rewrite Z.pow_add_r by lia. change (2 ^ 1) with 2. lia. }
  assert (Hidx_low : idx = hash key mod 2 ^ d)
    by (apply land_pow_zero_low; [lia | exact Hclear]).
  assert (Hidx : 0 <= idx < 2 ^ d).
  { rewrite Hidx_low. apply Z.mod_pos_bound. exact Hpos. }
  assert (Hlen : Z.of_nat (length (list_ b)) = size_ b).
  { unfold Bucket_IsFull in Hfull. apply Z.eqb_eq in Hfull. exact Hfull. }
  pose proof (lookup_lt_Some _ _ _ Hh) as Hlt.
  destruct Hother as (kv & Hkv & Hkvset).
  assert (Hn : Z.of_nat (length (dir_ st)) = 2 ^ (d + 1)) by exact Hs.
  assert (Hr : in_range st idx = true) by (apply in_range_iff; lia).
  assert (HIndexOf : forall k, IndexOf hash st k = Ret (hash k mod 2 ^ (d + 1))).
  { intros k. unfold IndexOf. rewrite Hgd, shl1_in_range by lia. cbn [bind].
    rewrite land_mask_mod by lia. reflexivity. }
  destruct fuel as [|[|f]]; try lia.
  (* the run *)
  set (b1 := Bucket_IncrementDepth b).
  set (st1 := set_heap st (<[a := b1]> (heap st))).
  set (dir' := <[Z.to_nat (idx + 2 ^ d) := Some q]> (dir_ st)).
  set (heapT := <[a := src']> (heap st) ++ [dst']).
  set (T0 := mkTable (d + 1) (bucket_size_ st) (num_buckets_ st) dir' heapT).
  assert (Hsplit : split hash st1 idx = Ret T0).
  { assert (Hh1 : heap st1 !! a = Some b1)
      by (unfold st1; simpl; apply list_lookup_insert_eq; exact Hlt).
    rewrite (split_moves_eq hash st1 idx a b1 Hr Hd Hh1).
    - unfold T0, dir', heapT, st1, b1. simpl. fold d.
      replace (d + 1 - 1) with d by lia.
      rewrite (lor_add_pow idx d) by lia.
      rewrite list_insert_insert_eq, length_insert, Hgd. reflexivity.
    - exact Hnd.
    - simpl. lia.
    - simpl. fold d. lia.
    - apply in_range_iff. simpl. fold d. replace (d + 1 - 1) with d by lia.
      rewrite (lor_add_pow idx d) by lia. unfold dir_size. simpl. lia.
    - simpl. fold d. replace (d + 1 - 1) with d by lia.
      rewrite (lor_add_pow idx d) by lia. lia. }
  assert (HdT : dir' !! Z.to_nat idx = Some (Some a)).
  { unfold dir'. rewrite list_lookup_insert_ne by lia. exact Hd. }
  assert (HhT : heapT !! a = Some src').
  { unfold heapT. rewrite lookup_app_l by (rewrite length_insert; exact Hlt).
    apply list_lookup_insert_eq. exact Hlt. }
  assert (HrT : in_range T0 idx = true).
  { apply in_range_iff. unfold dir_size, T0, dir'. simpl. rewrite length_insert. lia. }
  assert (HIndexOfT : forall k, IndexOf hash T0 k = Ret (hash k mod 2 ^ (d + 1))).
  { intros k. unfold IndexOf. simpl. rewrite shl1_in_range by lia. cbn [bind].
    rewrite land_mask_mod by lia. reflexivity. }
  assert (Hnot' : key ∉ keys src').
  { intros Hin. apply Hnot. unfold keys in *. simpl in Hin.
    apply (elem_of_sublist _ _ _ Hin). apply fmap_sublist, sublist_filter. }
  assert (Hroom : Bucket_IsFull src' = false).
  { unfold Bucket_IsFull. simpl. apply Z.eqb_neq.
    assert (Hk : ~ Z.land (hash (fst kv)) (2 ^ d) = 0) by tauto.
    pose proof (length_filter_lt
      (fun kv => Z.land (hash (fst kv)) (2 ^ d) = 0) (list_ b) kv Hkv Hk). lia. }
  set (b'' := mkBucket (size_ b) (d + 1) (list_ src' ++ [(key, value)])).
  set (heap' := <[a := b'']> heapT).
  set (st' := mkTable (d + 1) (bucket_size_ st) (num_buckets_ st) dir' heap').
  assert (Hrun : Insert hash temp_value (S (S f)) key value st = Ret st').
  { rewrite Insert_S, HIndexOf. cbn [bind]. fold idx.
    rewrite (bucket_at_references st idx a b Hr Hd Hh). cbn [bind].
    unfold Bucket_Find at 1. rewrite (find_entry_miss _ _ temp_value Hnot).
    cbn [fst]. rewrite Hfull. cbn [negb].
    unfold GetLocalDepth, GetLocalDepthInternal, GetGlobalDepth, GetGlobalDepthInternal.
    rewrite (bucket_at_references st idx a b Hr Hd Hh). cbn [bind].
    unfold Bucket_GetDepth. fold d. rewrite Hgd.
    replace (d =? d + 1) with false by (symmetry; apply Z.eqb_neq; lia).
    rewrite (bucket_update_references st idx a b Bucket_IncrementDepth Hr Hd Hh).
    cbn [bind]. fold b1 st1. rewrite Hsplit. cbn [bind].
    rewrite (Insert_with_room_eq hash temp_value T0 key value idx src' f
               (HIndexOfT key)
               (bucket_at_references T0 idx a src' HrT HdT HhT) Hnot' Hroom).
    rewrite (bucket_update_references T0 idx a src'
               (fun b => fst (Bucket_Insert b key value)) HrT HdT HhT).
    rewrite (Bucket_Insert_absent src' key value Hroom Hnot'). reflexivity. }
  exists st'. split; [exact Hrun|].
  split; [unfold GetGlobalDepth, GetGlobalDepthInternal; simpl; lia|].
  assert (Hsize' : dir_size st' = dir_size st).
  { unfold dir_size, st', dir'. simpl. rewrite length_insert. reflexivity. }
  split; [exact Hsize'|].
  assert (Hrange : forall k, in_range st (hash k mod 2 ^ (d + 1)) = true).
  { intros k. apply in_range_iff. rewrite Hs. apply Z.mod_pos_bound. lia. }
  assert (Hrange' : forall k, in_range st' (hash k mod 2 ^ (d + 1)) = true).
  { intros k. apply in_range_iff. rewrite Hsize', Hs. apply Z.mod_pos_bound. lia. }
  assert (Hheap_a : heap' !! a = Some b'').
  { unfold heap'. apply list_lookup_insert_eq. unfold heapT.
    rewrite length_app, length_insert. lia. }
  split.
  - intros value0.
    rewrite (Find_lookup st' key value0 _ (HIndexOfT key) (Hrange' key)).
    fold idx. change (dir_ st') with dir'. change (heap st') with heap'.
    rewrite HdT, Hheap_a. unfold Bucket_Find, b''. cbn [list_].
    rewrite find_entry_app.
    assert (Hmiss : find_entry (list_ src') key value0 = (false, value0))
      by (apply find_entry_miss; exact Hnot').
    rewrite Hmiss. cbn [fst]. destruct (decide (key = key)); [reflexivity | congruence].
  - intros key' value0 Hne.
    rewrite (Find_lookup st' key' value0 _ (HIndexOfT key') (Hrange' key')).
    rewrite (Find_lookup st key' value0 _ (HIndexOf key') (Hrange key')).
    change (dir_ st') with dir'. change (heap st') with heap'.
    set (i0 := hash key' mod 2 ^ (d + 1)).
    assert (Hi0 : 0 <= i0 < 2 ^ (d + 1)) by (apply Z.mod_pos_bound; lia).
    destruct (decide (i0 = idx + 2 ^ d)) as [Hhigh|Hnothigh].
    + (* the slot given to the sibling *)
      assert (Hset : Z.land (hash key') (2 ^ d) <> 0).
      { intros Hc. apply land_pow_zero_low in Hc; [|lia]. fold i0 in Hc.
        pose proof (Z.mod_pos_bound (hash key') (2 ^ d) Hpos). lia. }
      unfold dir'. rewrite Hhigh, list_lookup_insert_eq by lia.
      assert (Hbefore : dir_ st !! Z.to_nat (idx + 2 ^ d) = Some (Some a))
        by (apply Hpair; right; reflexivity).
      rewrite Hbefore, Hh. unfold heap', heapT.
      rewrite list_lookup_insert_ne by (unfold q in *; lia).
      rewrite lookup_app_r by (rewrite length_insert; lia).
      rewrite length_insert, Nat.sub_diag. cbn [lookup list_lookup].
      unfold Bucket_Find, dst'. cbn [list_].
      rewrite (find_entry_filter_keep
                 (fun kv => Z.land (hash (fst kv)) (2 ^ d) <> 0));
        [reflexivity | intros v; exact Hset].
    + unfold dir'. rewrite list_lookup_insert_ne by lia.
      destruct (dir_ st !! Z.to_nat i0) as [[x|]|] eqn:Hx; try reflexivity.
      destruct (decide (x = a)) as [->|Hxa].
      * (* the slot of the key *)
        assert (Hi : i0 = idx).
        { apply Hpair in Hx. destruct Hx as [Hx|Hx]; lia. }
        assert (Hclear' : Z.land (hash key') (2 ^ d) = 0).
        { apply land_pow_zero_low; [lia|]. fold i0.
          rewrite <- (Z.mod_mod_divide (hash key') (2 ^ (d + 1)) (2 ^ d))
            by (exists 2; lia).
          fold i0. symmetry. apply Z.mod_small. lia. }
        rewrite Hh, Hheap_a. unfold Bucket_Find, b'', src'. cbn [list_].
        rewrite find_entry_app_other by exact Hne.
        rewrite (find_entry_filter_keep
                   (fun kv => Z.land (hash (fst kv)) (2 ^ d) = 0));
          [reflexivity | intros v; exact Hclear'].
      * (* a bucket the split does not touch *)
        pose proof (Hvalid _ _ Hx) as Hxl. unfold heap', heapT.
        rewrite list_lookup_insert_ne by lia.
        rewrite lookup_app_l by (rewrite length_insert; exact Hxl).
        rewrite list_lookup_insert_ne by lia. reflexivity.
Qed.

End GrowthLoop.

Lemma table_01_reached :
  int_run 8 [OpInsert 0 0; OpInsert 1 10] (ExtendibleHashTable 1) = Ret table_01.
Proof. vm_compute. reflexivity. Qed.

Lemma Insert_doubling_the_directory_once_witness :
  exists st',
    int_insert 5 2 20 table_01 = Ret st' /\
    GetGlobalDepth st' = 2 /\
    int_find st' 2 0 = Ret (true, 20) /\
    int_find st' 1 0 = int_find table_01 1 0.
Proof.
  assert (Hnot : (2 : Z) ∉ keys (mkBucket 1 1 [(0, 0)])).
  { vm_compute. intros Hx. inversion Hx as [|? ? ? Hy]; subst. inversion Hy. }
  assert (Hnd : NoDup (keys (mkBucket 1 1 [(0, 0)]))).
  { vm_compute. apply NoDup_singleton. }
  assert (Hg : 0 <= global_depth_ table_01 <= 29) by (simpl; lia).
  assert (Hother : exists kv : Z * Z, kv ∈ list_ (mkBucket 1 1 [(0, 0)]) /\
            (Z.land (int_hash (fst kv)) (2 ^ global_depth_ table_01) = 0 <->
             Z.land (int_hash 2) (2 ^ global_depth_ table_01) <> 0)).
  { exists (0, 0). split; [left|]. vm_compute. split; [discriminate | reflexivity]. }
  assert (Hsole : forall j, dir_ table_01 !! j = Some (Some 0%nat) ->
            j = Z.to_nat (int_hash 2 mod 2 ^ global_depth_ table_01)).
  { intros [|[|j]] Hj; simpl in Hj; [reflexivity | discriminate | discriminate]. }
  assert (Hvalid : forall j x, dir_ table_01 !! j = Some (Some x) ->
            (x < length (heap table_01))%nat).
  { intros [|[|j]] x Hj; simpl in Hj; try discriminate;
      injection Hj as <-; simpl; lia. }
  destruct (Insert_doubling_the_directory_once int_hash 0 2 20 table_01 0%nat
              (mkBucket 1 1 [(0, 0)]) Hg eq_refl eq_refl eq_refl eq_refl eq_refl
              Hnot Hnd eq_refl Hother Hsole Hvalid 5%nat ltac:(simpl; lia))
    as (st' & Hrun & Hgd & _ & Hfind & Hkeep).
  exists st'. split; [exact Hrun|]. split; [exact Hgd|].
  split; [apply Hfind | apply Hkeep; lia].
Defined.

Lemma Insert_splitting_below_global_depth_witness :
  exists st',
    int_insert 2 5 50 table_032 = Ret st' /\
    int_find st' 5 0 = Ret (true, 50) /\
    int_find st' 3 0 = int_find table_032 3 0.
Proof.
  assert (Hnot : (5 : Z) ∉ keys (mkBucket 1 1 [(3, 30)])).
  { vm_compute. intros Hx. inversion Hx as [|? ? ? Hy]; subst. inversion Hy. }
  assert (Hnd : NoDup (keys (mkBucket 1 1 [(3, 30)]))).
  { vm_compute. apply NoDup_singleton. }
  assert (Hd : 0 <= depth_ (mkBucket 1 1 [(3, 30)]) <= 29) by (simpl; lia).
  assert (Hother : exists kv : Z * Z, kv ∈ list_ (mkBucket 1 1 [(3, 30)]) /\
            Z.land (int_hash (fst kv)) (2 ^ depth_ (mkBucket 1 1 [(3, 30)])) <> 0).
  { exists (3, 30). split; [left|]. vm_compute. discriminate. }
  assert (Hpair : forall j, dir_ table_032 !! j = Some (Some 1%nat) <->
            j = Z.to_nat (int_hash 5 mod 2 ^ (depth_ (mkBucket 1 1 [(3, 30)]) + 1)) \/
            j = Z.to_nat (int_hash 5 mod 2 ^ (depth_ (mkBucket 1 1 [(3, 30)]) + 1)
                          + 2 ^ depth_ (mkBucket 1 1 [(3, 30)]))).
  { intros j. change (Z.to_nat _) with 1%nat at 1. change (Z.to_nat _) with 3%nat.
    split.
    - destruct j as [|[|[|[|j]]]]; simpl; intros Hj;
        try discriminate; [left | right]; reflexivity.
    - intros [-> | ->]; reflexivity. }
  assert (Hvalid : forall j x, dir_ table_032 !! j = Some (Some x) ->
            (x < length (heap table_032))%nat).
  { intros [|[|[|[|j]]]] x Hj; simpl in Hj; try discriminate;
      injection Hj as <-; simpl; lia. }
  destruct (Insert_splitting_below_global_depth int_hash 0 5 50 table_032 1%nat
              (mkBucket 1 1 [(3, 30)]) Hd eq_refl eq_refl eq_refl eq_refl eq_refl
              Hnot Hnd eq_refl eq_refl Hother Hpair Hvalid 2%nat ltac:(lia))
    as (st' & Hrun & _ & _ & Hfind & Hkeep).
  exists st'. split; [exact Hrun|]. split; [apply Hfind | apply Hkeep; lia].
Defined.

(** ** After [Insert], [Find] hits *)

Section InsertThenFind.

Context {K V : Type} `{EqDecision K}.
Variable hash : K -> Z.
Variable temp_value : V.
Variables (key : K) (value : V).
Implicit Types (st : @Table K V).

Lemma Bucket_Insert_holds (b : @Bucket K V) :
  Bucket_IsFull b = false -> key ∈ keys (fst (Bucket_Insert b key value)).
Proof.
  intros Hfull. unfold Bucket_Insert, keys. rewrite Hfull.
  destruct (update_entry (list_ b) key value) as [l|] eqn:Hu; cbn [fst list_].
  - pose proof Hu as Hsome. apply update_entry_Some in Hsome.
    destruct Hsome as (_ & -> & _).
    destruct (decide (key ∈ (list_ b).*1)) as [Hin|Hnot]; [exact Hin|].
    apply (update_entry_None _ _ value) in Hnot. congruence.
  - rewrite fmap_app. apply elem_of_app. right. left.
Qed.

Lemma holds_key_Find st (value0 : V) :
  holds_key hash st key -> exists v, Find hash st key value0 = Ret (true, v).
Proof.
  intros (b & Hb & Hin). unfold addressed_bucket in Hb. inv_bind Hb as idx Hidx.
  unfold Find. rewrite Hidx. cbn [bind]. rewrite Hb. cbn [bind].
  pose proof (find_entry_hit (list_ b) key value0 Hin) as Hhit.
  unfold Bucket_Find. destruct (find_entry (list_ b) key value0) as [f v].
  simpl in Hhit. subst f. exists v. reflexivity.
Qed.

Lemma holds_key_dir_set st (g i : Z) (p : option nat) st' :
  0 <= g <= global_depth_ st ->
  Z.land i (2 ^ g - 1) <> hash key mod 2 ^ g ->
  dir_set st i p = Ret st' -> holds_key hash st key -> holds_key hash st' key.
Proof.
  intros Hg Hi Hset (b & Hb & Hin). exists b. split; [|exact Hin].
  apply dir_set_Ret in Hset. destruct Hset as [Hr ->].
  unfold addressed_bucket in *.
  change (IndexOf hash (set_dir st _) key) with (IndexOf hash st key).
  inv_bind Hb as idx Hidx. rewrite Hidx. cbn [bind].
  apply bucket_at_Ret in Hb. destruct Hb as (a & Hra & Hd & Hh).
  assert (Hne : idx <> i).
  { intros ->. apply Hi. unfold IndexOf in Hidx. inv_bind Hidx as m Hm.
    apply shl1_Ret in Hm. destruct Hm as [Hrange ->]. injection Hidx as Hidx.
    rewrite land_mask_mod in Hidx by lia. rewrite <- Hidx.
    rewrite land_mask_mod by lia. apply Z.mod_mod_divide.
    exists (2 ^ (global_depth_ st - g)). rewrite <- Z.pow_add_r by lia.
    f_equal. lia. }
  apply in_range_iff in Hra as Hra'. apply in_range_iff in Hr as Hr'.
  apply (bucket_at_references _ idx a b).
  - apply in_range_iff. unfold dir_size. simpl. rewrite length_insert. exact Hra'.
  - simpl. rewrite list_lookup_insert_ne by lia. exact Hd.
  - exact Hh.
Qed.

Lemma Insert_grow_loop_holds (fuel : nat) :
  (forall st st',
     heap_inv st -> dir_inv st ->
     Insert hash temp_value fuel key value st = Ret st' ->
     holds_key hash st' key) /\
  (forall (g i : Z) st st',
     heap_inv st -> dir_inv st ->
     0 <= g -> g + 1 <= global_depth_ st ->
     holds_key hash st key \/ i <= hash key mod 2 ^ g + 2 ^ g ->
     grow_loop hash temp_value fuel key value (hash key mod 2 ^ g) (2 ^ g - 1) i st
       = Ret st' ->
     holds_key hash st' key).
Proof.
  induction fuel as [|fuel [IHins IHloop]]; [split; intros; discriminate|].
  destruct (Insert_grow_loop_inv hash temp_value fuel) as [Hinv_ins _].
  destruct (Insert_grow_loop_wf hash temp_value fuel) as [Hwf_ins _].
  split.
  - intros st st' Hinv Hdir Hi. rewrite Insert_S in Hi.
    inv_bind Hi as bucket_index Hidx. inv_bind Hi as b Hb.
    destruct (fst (Bucket_Find b key temp_value)) eqn:Hfound.
    { injection Hi as <-. exists b. split.
      - unfold addressed_bucket. rewrite Hidx. exact Hb.
      - destruct (decide (key ∈ keys b)) as [Hin|Hnot]; [exact Hin|].
        unfold Bucket_Find in Hfound.
        rewrite (find_entry_miss _ _ temp_value Hnot) in Hfound. discriminate. }
    inv_bind Hi as b' Hb'. rewrite Hb in Hb'. injection Hb' as <-.
    destruct (Bucket_IsFull b) eqn:Hfull; cbn [negb] in Hi.
    2:{ apply bucket_update_Ret in Hi. destruct Hi as (a & b0 & Hr & Hd & Hh & ->).
        rewrite (bucket_at_references st bucket_index a b0 Hr Hd Hh) in Hb.
        injection Hb as ->.
        exists (fst (Bucket_Insert b key value)). split.
        - unfold addressed_bucket.
          change (IndexOf hash (set_heap st _) key) with (IndexOf hash st key).
          rewrite Hidx. cbn [bind].
          apply (bucket_at_references _ bucket_index a); [exact Hr | exact Hd|].
          simpl. apply list_lookup_insert_eq. apply (lookup_lt_Some _ _ _ Hh).
        - apply Bucket_Insert_holds. exact Hfull. }
    inv_bind Hi as local_depth Hld.
    destruct Hdir as [Hgd Hsize].
    assert (Hbi : bucket_index = hash key mod 2 ^ global_depth_ st).
    { unfold IndexOf in Hidx. rewrite shl1_in_range in Hidx by exact Hgd.
      cbn [bind] in Hidx. injection Hidx as <-. apply land_mask_mod. lia. }
    destruct (local_depth =? GetGlobalDepth st).
    + inv_bind Hi as st1 Hupd. inv_bind Hi as n Hn.
      inv_bind Hi as m Hm. inv_bind Hi as m' Hm'.
      assert (Hinv0 : heap_inv (set_global_depth st (global_depth_ st + 1)))
        by exact Hinv.
      destruct (bucket_update_keeps _ _ _ _ Hinv0
                  (fun x Hx => bucket_ok_IncrementDepth _ x Hx) Hupd)
        as [Hinv1 (K1 & K2 & K3 & K4)].
      simpl in K1.
      assert (Hdir3 : dir_inv (dir_resize st1 n)).
      { apply dir_inv_grow; [|exact Hn].
        unfold dir_inv, dir_size in *. simpl in *. rewrite K1, K4.
        replace (global_depth_ st + 1 - 1) with (global_depth_ st) by lia.
        split; assumption. }
      assert (Hgd3 : global_depth_ (dir_resize st1 n) = global_depth_ st + 1)
        by exact K1.
      rewrite Hgd3 in Hm, Hm'.
      replace (global_depth_ st + 1 - 1) with (global_depth_ st) in Hm, Hm' by lia.
      apply shl1_Ret in Hm. destruct Hm as [_ ->].
      apply shl1_Ret in Hm'. destruct Hm' as [_ ->].
      rewrite Hbi in Hi.
      apply (IHloop (global_depth_ st) (2 ^ global_depth_ st) (dir_resize st1 n) st'
               Hinv1 Hdir3); [lia | rewrite Hgd3; lia | | exact Hi].
      right. pose proof (Z.mod_pos_bound (hash key) (2 ^ global_depth_ st)
                           ltac:(apply Z.pow_pos_nonneg; lia)). lia.
    + inv_bind Hi as st1 Hupd. inv_bind Hi as st2 Hsplit.
      destruct (bucket_update_keeps _ _ _ _ Hinv
                  (fun x Hx => bucket_ok_IncrementDepth _ x Hx) Hupd)
        as [Hinv1 Hk1].
      destruct (split_keeps hash _ _ _ Hinv1 Hsplit) as [Hinv2 Hk2].
      apply (IHins st2 st' Hinv2); [|exact Hi].
      apply (dir_inv_keeps st); [split; assumption|].
      eapply keeps_trans; eassumption.
  - intros g i st st' Hinv Hdir Hg Hgd Hcase Hl. rewrite grow_loop_S in Hl.
    set (bi := hash key mod 2 ^ g) in *.
    assert (Hpos : 0 < 2 ^ g) by (apply Z.pow_pos_nonneg; lia).
    assert (Hbi : 0 <= bi < 2 ^ g) by (apply Z.mod_pos_bound; exact Hpos).
    destruct (i <? dir_size st) eqn:Hi.
    2:{ injection Hl as <-. destruct Hcase as [Hhit|Hbelow]; [exact Hhit|].
        exfalso. apply Z.ltb_ge in Hi. destruct Hdir as [Hd Hs].
        assert (Hle : 2 ^ (g + 1) <= 2 ^ global_depth_ st)
          by (apply Z.pow_le_mono_r; lia).
        rewrite Z.pow_add_r in Hle by lia. change (2 ^ 1) with 2 in Hle. lia. }
    destruct (Z.land i (2 ^ g - 1) =? bi) eqn:Hsplitcase.
    + inv_bind Hl as st1 Hsplit. inv_bind Hl as st2 Hins.
      destruct (split_keeps hash _ _ _ Hinv Hsplit) as [Hinv1 Hk1].
      pose proof (dir_inv_keeps _ _ Hdir Hk1) as Hdir1.
      destruct (Hinv_ins _ _ _ _ Hinv1 Hdir1 Hins) as (Hinv2 & Hdir2 & _).
      destruct (Hwf_ins _ _ _ _ Hins) as [Hle _].
      apply (IHloop g (i + 1) st2 st' Hinv2 Hdir2 Hg); [| |exact Hl].
      * destruct Hk1 as (Hg1 & _). lia.
      * left. apply (IHins st1 st2 Hinv1 Hdir1 Hins).
    + inv_bind Hl as p Hp. inv_bind Hl as st1 Hset.
      apply Z.eqb_neq in Hsplitcase.
      destruct (dir_set_keeps _ _ _ _ Hinv Hset) as [Hinv1 Hk1].
      pose proof (dir_inv_keeps _ _ Hdir Hk1) as Hdir1.
      apply (IHloop g (i + 1) st1 st' Hinv1 Hdir1 Hg); [| |exact Hl].
      * destruct Hk1 as (Hg1 & _). lia.
      * destruct Hcase as [Hhit|Hbelow].
        -- left. apply (holds_key_dir_set st g i p st1); try assumption. lia.
        -- right. assert (Hne : i <> bi + 2 ^ g).
           { intros ->. apply Hsplitcase. rewrite land_mask_mod by lia.
             replace (bi + 2 ^ g) with (bi + 1 * 2 ^ g) by lia.
             rewrite Z.mod_add by lia. apply Z.mod_small. exact Hbi. }
           lia.
Qed.

(** After [Insert], [Find] hits.  In a table built by the constructor and any
    sequence of completed operations, whenever [Insert(key, value)]
    returns, with or without splits, [Find(key)] succeeds on the table it
    leaves. *)
Theorem Insert_then_Find_hits bucket_size fuel st st' (value0 : V) :
  0 <= bucket_size -> reachable hash temp_value bucket_size st ->
  Insert hash temp_value fuel key value st = Ret st' ->
  exists v, Find hash st' key value0 = Ret (true, v).
Proof.
  intros Hb Hreach Hins.
  destruct (reachable_inv hash temp_value _ _ Hb Hreach) as (Hinv & Hdir & _).
  destruct (Insert_grow_loop_holds fuel) as [Hholds _].
  apply holds_key_Find. apply (Hholds st st' Hinv Hdir Hins).
Qed.

Lemma Insert_holds_key_noop st (value' : V) (fuel : nat) :
  holds_key hash st key ->
  Insert hash temp_value (S fuel) key value' st = Ret st.
Proof.
  intros (b & Hb & Hin). unfold addressed_bucket in Hb. inv_bind Hb as idx Hidx.
  rewrite Insert_S, Hidx. cbn [bind]. rewrite Hb. cbn [bind].
  unfold Bucket_Find. rewrite (find_entry_hit _ _ temp_value Hin). reflexivity.
Qed.

(** A second [Insert] of the same key changes nothing.  In a reachable
    state, once [Insert(key, value)] has returned, [Insert(key, value')]
    returns at once, for any value and any fuel from 1 on, and leaves the
    table exactly as it found it: the stored value is not replaced. *)
Theorem Insert_twice_is_Insert_once bucket_size fuel st st' (value' : V)
    (fuel' : nat) :
  0 <= bucket_size -> reachable hash temp_value bucket_size st ->
  Insert hash temp_value fuel key value st = Ret st' ->
  Insert hash temp_value (S fuel') key value' st' = Ret st'.
Proof.
  intros Hb Hreach Hins.
  destruct (reachable_inv hash temp_value _ _ Hb Hreach) as (Hinv & Hdir & _).
  destruct (Insert_grow_loop_holds fuel) as [Hholds _].
  apply Insert_holds_key_noop. apply (Hholds st st' Hinv Hdir Hins).
Qed.

End InsertThenFind.

Lemma Insert_then_Find_hits_witness :
  exists v, int_find table_0327 7 0 = Ret (true, v).
Proof.
  assert (Hpos : 0 <= 1) by lia.
  apply (Insert_then_Find_hits int_hash 0 7 70 1 8 table_032 table_0327 0 Hpos
           table_032_reachable).
  vm_compute. reflexivity.
Defined.

Lemma Insert_twice_is_Insert_once_witness :
  int_insert 1 7 71 table_0327 = Ret table_0327.
Proof.
  assert (Hpos : 0 <= 1) by lia.
  apply (Insert_twice_is_Insert_once int_hash 0 7 70 1 8 table_032 table_0327 71
           0%nat Hpos table_032_reachable).
  vm_compute. reflexivity.
Defined.

(** ** No dangling pointer in the directory *)

Section PointersValid.

Context {K V : Type} `{EqDecision K}.
Variable hash : K -> Z.
Variable temp_value : V.
Implicit Types (st : @Table K V) (p : option nat).

Lemma pointers_valid_store st p (b : @Bucket K V) st' :
  store st p b = Ret st' -> pointers_valid st -> pointers_valid st'.
Proof.
  intros Hs Hv. apply store_Ret in Hs. destruct Hs as (a & _ & _ & ->).
  intros i x Hi. simpl in *. rewrite length_insert. apply (Hv i x Hi).
Qed.

Lemma pointers_valid_bucket_update st (i : Z) f st' :
  bucket_update st i f = Ret st' -> pointers_valid st -> pointers_valid st'.
Proof.
  intros Hu Hv. apply bucket_update_Ret in Hu. destruct Hu as (a & b & _ & _ & _ & ->).
  intros j x Hj. simpl in *. rewrite length_insert. apply (Hv j x Hj).
Qed.

Lemma pointers_valid_dir_set st (i : Z) p st' :
  dir_set st i p = Ret st' -> pointers_valid st ->
  (forall x, p = Some x -> (x < length (heap st))%nat) -> pointers_valid st'.
Proof.
  intros Hs Hv Hp. apply dir_set_Ret in Hs. destruct Hs as (_ & ->).
  intros j x Hj. simpl in *. apply list_lookup_insert_Some in Hj.
  destruct Hj as [(_ & Heq & _)|(_ & Hj)]; [apply Hp; exact Heq | apply (Hv j x Hj)].
Qed.

Lemma pointers_valid_distribute pairs (src : Z) p st st' :
  distribute pairs src p st = Ret st' -> pointers_valid st -> pointers_valid st'.
Proof.
  revert st. induction pairs as [|[k v] rest IH]; simpl; intros st Hd Hv.
  - injection Hd as <-. exact Hv.
  - inv_bind Hd as d Hderef. inv_bind Hd as st1 Hstore. inv_bind Hd as st2 Hupd.
    apply (IH st2 Hd). apply (pointers_valid_bucket_update _ _ _ _ Hupd).
    apply (pointers_valid_store _ _ _ _ Hstore). exact Hv.
Qed.

Lemma pointers_valid_split st (bucket_index : Z) st' :
  split hash st bucket_index = Ret st' -> pointers_valid st -> pointers_valid st'.
Proof.
  unfold split, make_shared, RedistributeBucket. intros Hs Hv.
  inv_bind Hs as b Hb. inv_bind Hs as s Hs0. inv_bind Hs as mask Hmask.
  inv_bind Hs as st1 Hset. inv_bind Hs as s' Hs1.
  apply (pointers_valid_distribute _ _ _ _ _ Hs).
  apply (pointers_valid_dir_set _ _ _ _ Hset).
  - intros i x Hi. simpl in *. rewrite length_app. simpl.
    pose proof (Hv i x Hi). lia.
  - intros x [= <-]. simpl. rewrite length_app. simpl. lia.
Qed.

Lemma pointers_valid_dir_resize st (n : Z) :
  pointers_valid st -> pointers_valid (dir_resize st n).
Proof.
  intros Hv i x Hi. unfold dir_resize in Hi. simpl in *.
  apply lookup_app_Some in Hi. destruct Hi as [Hi|[_ Hi]].
  - apply lookup_take_Some in Hi. destruct Hi as [Hi _]. apply (Hv i x Hi).
  - apply lookup_replicate in Hi. destruct Hi as [Hi _]. discriminate.
Qed.

Lemma Insert_grow_loop_pointers_valid fuel :
  (forall key value st st',
     Insert hash temp_value fuel key value st = Ret st' ->
     pointers_valid st -> pointers_valid st') /\
  (forall key value bucket_index mask i st st',
     grow_loop hash temp_value fuel key value bucket_index mask i st = Ret st' ->
     pointers_valid st -> pointers_valid st').
Proof.
  induction fuel as [|fuel [IHins IHloop]]; [split; intros; discriminate|].
  split.
  - intros key value st st' Hi Hv. rewrite Insert_S in Hi.
    inv_bind Hi as bucket_index Hidx. inv_bind Hi as b Hb.
    destruct (fst (Bucket_Find b key temp_value)).
    { injection Hi as <-. exact Hv. }
    inv_bind Hi as b' Hb'.
    destruct (negb (Bucket_IsFull b')).
    { apply (pointers_valid_bucket_update _ _ _ _ Hi Hv). }
    inv_bind Hi as local_depth Hld.
    destruct (local_depth =? GetGlobalDepth st).
    + inv_bind Hi as st1 Hupd. inv_bind Hi as n Hn.
      inv_bind Hi as m Hm. inv_bind Hi as m' Hm'.
      apply (IHloop _ _ _ _ _ _ _ Hi). apply pointers_valid_dir_resize.
      apply (pointers_valid_bucket_update _ _ _ _ Hupd). exact Hv.
    + inv_bind Hi as st1 Hupd. inv_bind Hi as st2 Hsplit.
      apply (IHins _ _ _ _ Hi). apply (pointers_valid_split _ _ _ Hsplit).
      apply (pointers_valid_bucket_update _ _ _ _ Hupd). exact Hv.
  - intros key value bucket_index mask i st st' Hl Hv. rewrite grow_loop_S in Hl.
    destruct (i <? dir_size st).
    2:{ injection Hl as <-. exact Hv. }
    destruct (Z.land i mask =? bucket_index).
    + inv_bind Hl as st1 Hsplit. inv_bind Hl as st2 Hins.
      apply (IHloop _ _ _ _ _ _ _ Hl). apply (IHins _ _ _ _ Hins).
      apply (pointers_valid_split _ _ _ Hsplit Hv).
    + inv_bind Hl as p Hp. inv_bind Hl as st1 Hset.
      apply (IHloop _ _ _ _ _ _ _ Hl).
      apply (pointers_valid_dir_set _ _ _ _ Hset Hv).
      intros x ->. apply dir_get_Ret in Hp. destruct Hp as [_ Hp].
      apply (Hv _ x Hp).
Qed.

Lemma reachable_pointers_valid bucket_size st :
  reachable hash temp_value bucket_size st -> pointers_valid st.
Proof.
  intros Hreach. induction Hreach as [|fuel st o st' _ IH Hstep].
  - intros [|i] x Hi; simpl in Hi; [injection Hi as <-; simpl; lia | discriminate].
  - destruct o as [key|key value|key]; simpl in Hstep.
    + inv_bind Hstep as r Hr. injection Hstep as <-. exact IH.
    + destruct (Insert_grow_loop_pointers_valid fuel) as [Hins _].
      apply (Hins _ _ _ _ Hstep IH).
    + inv_bind Hstep as r Hr. injection Hstep as <-. destruct r as [st1 found].
      unfold Remove in Hr. inv_bind Hr as idx Hidx. inv_bind Hr as p Hp.
      inv_bind Hr as b Hb. destruct (Bucket_Remove b key) as [b' f].
      inv_bind Hr as st2 Hstore. injection Hr as <- <-. simpl.
      apply (pointers_valid_store _ _ _ _ Hstore IH).
Qed.

(** No dangling pointer.  In a table built by the constructor and any
    sequence of completed operations, a slot of the directory that is not
    null references a bucket of the store: for such a slot
    [GetLocalDepth(dir_index)] returns, with a depth between 0 and the
    global depth. *)
Theorem non_null_slot_references_a_bucket bucket_size st (dir_index : Z) (x : nat) :
  reachable hash temp_value bucket_size st ->
  0 <= dir_index -> dir_ st !! Z.to_nat dir_index = Some (Some x) ->
  exists b, heap st !! x = Some b /\
            GetLocalDepth st dir_index = Ret (depth_ b) /\
            0 <= depth_ b <= GetGlobalDepth st.
Proof.
  intros Hreach Hpos Hd.
  pose proof (reachable_pointers_valid _ _ Hreach _ _ Hd) as Hlt.
  destruct (lookup_lt_is_Some_2 (heap st) x Hlt) as [b Hb].
  exists b. split; [exact Hb|].
  assert (Hget : GetLocalDepth st dir_index = Ret (depth_ b)).
  { unfold GetLocalDepth, GetLocalDepthInternal.
    rewrite (bucket_at_references st dir_index x b); [reflexivity| |exact Hd|exact Hb].
    apply in_range_iff. apply lookup_lt_Some in Hd. unfold dir_size. lia. }
  split; [exact Hget|].
  pose proof (reachable_wf hash temp_value _ _ Hreach) as Hwf.
  unfold buckets_wf in Hwf. rewrite Forall_lookup in Hwf.
  destruct (Hwf x b Hb) as [_ Hdepth]. exact Hdepth.
Qed.

(** [GetNumBuckets] is constant.  In a table built by the constructor and
    any sequence of completed operations, [GetNumBuckets()] returns 1,
    however many buckets the splits have created. *)
Theorem GetNumBuckets_is_always_one bucket_size st :
  0 <= bucket_size -> reachable hash temp_value bucket_size st ->
  GetNumBuckets st = 1.
Proof.
  intros Hb Hreach.
  destruct (reachable_inv hash temp_value _ _ Hb Hreach) as ((_ & _ & Hn) & _).
  exact Hn.
Qed.

End PointersValid.

Lemma non_null_slot_references_a_bucket_witness :
  exists b, heap table_0327 !! 3%nat = Some b /\
            GetLocalDepth table_0327 3 = Ret (depth_ b) /\
            0 <= depth_ b <= GetGlobalDepth table_0327.
Proof.
  apply (non_null_slot_references_a_bucket int_hash 0 1 table_0327 3 3%nat
           table_0327_reachable); [lia | reflexivity].
Defined.

Lemma GetNumBuckets_is_always_one_witness : GetNumBuckets table_0327 = 1.
Proof.
  assert (Hpos : 0 <= 1) by lia.
  apply (GetNumBuckets_is_always_one int_hash 0 1 table_0327 Hpos
           table_0327_reachable).
Defined.
